(** * Planning client: history aggregation, edit panel, modals and array editor

    A shallow embedding of the helper functions and component methods of the
    planning client, with the properties its specification states about them
    and further properties the code shows.

    Conventions used throughout:
    - a JavaScript object used as a dictionary is a [gmap string _];
    - an optional property read through lodash [get] is an [option]: [None]
      stands for a missing property as well as for [null]/[undefined], which
      [get] and the truthiness tests of the source do not tell apart;
    - callbacks handed in through props are not run: a method returns the list
      of calls it makes, in order. *)

From Stdlib Require Import ZArith.
From Stdlib Require Import DecimalString.
From Stdlib Require Import Ascii.
From stdpp Require Import base option list gmap strings fin_maps pretty sorting.

Local Open Scope string_scope.
Local Open Scope list_scope.
Local Open Scope nat_scope.

(** ** JavaScript data *)

Module Js.

(** Plain data as it sits in component state and props. Numbers are the
    integer-valued ones. *)
Local Unset Elimination Schemes.
Inductive jsval :=
| JUndefined
| JNull
| JBool (b : bool)
| JNum (n : Z)
| JStr (s : string)
| JArr (elems : list jsval)
| JObj (props : list (string * jsval)).
Local Set Elimination Schemes.

(** Induction that reaches the elements of arrays and the values of
    properties. *)
Section Induction.
Variable P : jsval → Prop.
Hypothesis Hundefined : P JUndefined.
Hypothesis Hnull : P JNull.
Hypothesis Hbool : ∀ b, P (JBool b).
Hypothesis Hnum : ∀ n, P (JNum n).
Hypothesis Hstr : ∀ s, P (JStr s).
Hypothesis Harr : ∀ elems, Forall P elems → P (JArr elems).
Hypothesis Hobj : ∀ props, Forall (λ kv, P kv.2) props → P (JObj props).

Fixpoint jsval_ind (v : jsval) : P v :=
  match v with
  | JUndefined => Hundefined
  | JNull => Hnull
  | JBool b => Hbool b
  | JNum n => Hnum n
  | JStr s => Hstr s
  | JArr elems =>
      Harr elems
        ((fix all (l : list jsval) : Forall P l :=
            match l with
            | [] => List.Forall_nil P
            | x :: l' => @List.Forall_cons _ P x l' (jsval_ind x) (all l')
            end) elems)
  | JObj props =>
      Hobj props
        ((fix all (l : list (string * jsval)) : Forall (λ kv, P kv.2) l :=
            match l with
            | [] => List.Forall_nil _
            | kv :: l' =>
                @List.Forall_cons _ (λ kv, P kv.2) kv l' (jsval_ind kv.2) (all l')
            end) props)
  end.
End Induction.

(** Structural equality of values. *)
Fixpoint jsval_eqb (a b : jsval) : bool :=
  match a, b with
  | JUndefined, JUndefined => true
  | JNull, JNull => true
  | JBool x, JBool y => Bool.eqb x y
  | JNum x, JNum y => Z.eqb x y
  | JStr x, JStr y => String.eqb x y
  | JArr xs, JArr ys =>
      (fix all (xs ys : list jsval) : bool :=
         match xs, ys with
         | [], [] => true
         | x :: xs', y :: ys' => jsval_eqb x y && all xs' ys'
         | _, _ => false
         end) xs ys
  | JObj xs, JObj ys =>
      (fix all (xs ys : list (string * jsval)) : bool :=
         match xs, ys with
         | [], [] => true
         | (k, x) :: xs', (l, y) :: ys' =>
             String.eqb k l && jsval_eqb x y && all xs' ys'
         | _, _ => false
         end) xs ys
  | _, _ => false
  end.

(** The properties of an object are kept in the order they were created
    in. [prop_get] reads a property ([undefined] when there is none),
    [prop_set] assigns one: an existing property keeps its place. *)
Fixpoint prop_get (key : string) (props : list (string * jsval)) : jsval :=
  match props with
  | [] => JUndefined
  | (k, v) :: props' => if String.eqb k key then v else prop_get key props'
  end.

Fixpoint prop_set (key : string) (value : jsval)
    (props : list (string * jsval)) : list (string * jsval) :=
  match props with
  | [] => [(key, value)]
  | (k, v) :: props' =>
      if String.eqb k key then (k, value) :: props'
      else (k, v) :: prop_set key value props'
  end.

(** The array index a property name stands for: the names ["0"], ["1"], ... *)
Definition index_of_key (key : string) : option nat :=
  match NilEmpty.uint_of_string key with
  | Some u =>
      let i := Nat.of_uint u in
      if String.eqb (pretty i) key then Some i else None
  | None => None
  end.

(** [v == null] *)
Definition nullish (v : jsval) : bool :=
  match v with
  | JUndefined | JNull => true
  | _ => false
  end.

(** [JSON.stringify(v)], given by the document its output spells out rather
    than by the text: two outputs are the same text exactly when they spell
    the same document. [undefined] has no output; inside an array it is
    written as [null], and a property holding it is left out. *)
Fixpoint JSON_stringify (v : jsval) : option jsval :=
  match v with
  | JUndefined => None
  | JArr elems =>
      Some (JArr ((fix each (l : list jsval) : list jsval :=
                     match l with
                     | [] => []
                     | x :: l' => default JNull (JSON_stringify x) :: each l'
                     end) elems))
  | JObj props =>
      Some (JObj ((fix each (l : list (string * jsval))
                     : list (string * jsval) :=
                     match l with
                     | [] => []
                     | (k, x) :: l' =>
                         match JSON_stringify x with
                         | Some j => (k, j) :: each l'
                         | None => each l'
                         end
                     end) props))
  | _ => Some v
  end.


(** Truthiness of a string-valued optional property: [undefined], [null]
    and the empty string are falsy. *)
Definition truthy (v : option string) : bool :=
  match v with
  | Some s => negb (String.eqb s "")
  | None => false
  end.

End Js.

(** ** History aggregator (history helpers) *)

Module History.
Import Js.

(** [update.planning] of a history entry. *)
Record PlanningUpdate := mkPlanningUpdate {
  g2_content_type : option string;
  scheduled : option string;
}.

(** [update] of a history entry. *)
Record Update := mkUpdate {
  coverage_id : option string;
  planning : option PlanningUpdate;
  assigned_to : option (gmap string jsval);
  workflow_status : option string;
  pubstatus : option string;
}.

Record HistoryItem := mkHistoryItem {
  operation : string;
  update : option Update;
  user_id : option string;
  _created : string;
}.

(** The result of [moment(x)]: a date object built from the stored value. *)
Inductive Moment := moment (input : string).

(** [planning] of an aggregated coverage record. *)
Record CoveragePlanning := mkCoveragePlanning {
  cov_g2_content_type : option string;
  cov_scheduled : option Moment;
}.

(** One value of the object returned by [getGroupedCoverageHistory]. *)
Record CoverageHistory := mkCoverageHistory {
  cov_items : list HistoryItem;
  cov_planning : CoveragePlanning;
  cov_assigned_to : gmap string jsval;
  cov_workflow_status : option string;
}.

(** lodash [get(item, 'update.<...>')]: a missing link of the path gives
    [undefined]. *)
Definition get_coverage_id (item : HistoryItem) : option string :=
  update item ≫= coverage_id.
Definition get_g2_content_type (item : HistoryItem) : option string :=
  (update item ≫= planning) ≫= g2_content_type.
Definition get_scheduled (item : HistoryItem) : option string :=
  (update item ≫= planning) ≫= scheduled.
Definition get_assigned_to (item : HistoryItem) : option (gmap string jsval) :=
  update item ≫= assigned_to.
Definition get_workflow_status (item : HistoryItem) : option string :=
  update item ≫= workflow_status.

(** [historyItems.forEach(f)] with the accumulator the callback closes
    over made explicit. *)
Definition forEach {A S : Type} (f : S → A → S) (l : list A) (init : S) : S :=
  fold_left f l init.

Definition getPlanningItemHistory (historyItems : list HistoryItem)
  : list HistoryItem :=
  forEach (λ history item,
             if negb (truthy (get_coverage_id item))
             then history ++ [item]          (* history.push(item) *)
             else history)
          historyItems [].

(** The record a coverage id is initialised with:
    [{items: [], planning: {}, assigned_to: {}}]. *)
Definition emptyCoverageHistory : CoverageHistory :=
  mkCoverageHistory [] (mkCoveragePlanning None None) ∅ None.

Definition set_items (v : list HistoryItem) (r : CoverageHistory) :=
  mkCoverageHistory v (cov_planning r) (cov_assigned_to r) (cov_workflow_status r).
Definition set_g2_content_type (v : string) (r : CoverageHistory) :=
  mkCoverageHistory (cov_items r)
    (mkCoveragePlanning (Some v) (cov_scheduled (cov_planning r)))
    (cov_assigned_to r) (cov_workflow_status r).
Definition set_scheduled (v : Moment) (r : CoverageHistory) :=
  mkCoverageHistory (cov_items r)
    (mkCoveragePlanning (cov_g2_content_type (cov_planning r)) (Some v))
    (cov_assigned_to r) (cov_workflow_status r).
Definition set_assigned_to (v : gmap string jsval) (r : CoverageHistory) :=
  mkCoverageHistory (cov_items r) (cov_planning r) v (cov_workflow_status r).
Definition set_workflow_status (v : string) (r : CoverageHistory) :=
  mkCoverageHistory (cov_items r) (cov_planning r) (cov_assigned_to r) (Some v).

(** Object spread [{...a, ...b}]: the properties of [b] win. *)
Definition spread (a b : gmap string jsval) : gmap string jsval := b ∪ a.

(** [if (get(item, path)) { covHistory[id].field = ... }] for a string
    property. *)
Definition when_truthy (v : option string)
    (f : string → CoverageHistory → CoverageHistory)
    (id : string) (covHistory : gmap string CoverageHistory) :=
  match v with
  | Some s => if truthy (Some s) then alter (f s) id covHistory else covHistory
  | None => covHistory
  end.

(** How a call of [getGroupedCoverageHistory] ends: with the object it has
    built, or with a [TypeError] thrown on the way. *)
Inductive outcome :=
  | Returns (covHistory : gmap string CoverageHistory)
  | Throws.

Section Grouping.

(** lodash [get(covHistory, id)] reads [id] as a path. When [id] names a
    property of [covHistory] itself it gives the group stored there. When
    it does not, [get] may still find something: a property that every
    object inherits ([constructor], say), or, for an id with dots or
    brackets, a value inside a group ([cov1.items]).
    [finds_elsewhere covHistory id] tells whether lodash finds a truthy
    value in one of these ways. *)
Variable finds_elsewhere : gmap string CoverageHistory → string → bool.

(** [if (!get(covHistory, id)) { covHistory[id] = {items: [], ...} }]
    followed by the first read of [covHistory[id].items]. A stored group is
    an object, hence truthy. When [get] finds something elsewhere nothing is
    set up, [covHistory[id]] is [undefined] or an inherited function, and
    spreading its [items] throws. *)
Definition init_group (covHistory : gmap string CoverageHistory) (id : string)
  : option (gmap string CoverageHistory) :=
  match covHistory !! id with
  | Some _ => Some covHistory
  | None =>
      if finds_elsewhere covHistory id then None
      else Some (<[id := emptyCoverageHistory]> covHistory)
  end.

(** The body of the [forEach] callback of [getGroupedCoverageHistory]. *)
Definition groupItem (covHistory : gmap string CoverageHistory)
    (item : HistoryItem) : outcome :=
  match get_coverage_id item with
  | Some id =>
      if truthy (Some id) then
        match init_group covHistory id with
        | Some covHistory =>
            let covHistory :=
              alter (λ r, set_items (cov_items r ++ [item]) r) id covHistory in
            let covHistory :=
              when_truthy (get_g2_content_type item) set_g2_content_type
                          id covHistory in
            let covHistory :=
              when_truthy (get_scheduled item)
                          (λ s, set_scheduled (moment s)) id covHistory in
            let covHistory :=
              match get_assigned_to item with
              | Some a =>
                  alter (λ r, set_assigned_to (spread (cov_assigned_to r) a) r)
                        id covHistory
              | None => covHistory
              end in
            Returns
              (when_truthy (get_workflow_status item) set_workflow_status
                           id covHistory)
        | None => Throws
        end
      else Returns covHistory
  | None => Returns covHistory
  end.

(** The loop: an exception ends it. *)
Definition getGroupedCoverageHistory (historyItems : list HistoryItem)
  : outcome :=
  forEach (λ covHistory item,
             match covHistory with
             | Returns covHistory => groupItem covHistory item
             | Throws => Throws
             end)
          historyItems (Returns ∅).

End Grouping.

End History.

(** ** The history helpers over an object store

    The functional reading above cannot say that the helpers leave their
    argument alone. Here the same two functions are written over a store of
    mutable objects: every object, array and [moment] lives at a location, a
    value is a primitive or a reference, and assignments update the store in
    place. *)

Module Store.

Abbreviation index_of_key := Js.index_of_key.

Abbreviation loc := nat.

Inductive val :=
| VUndefined
| VNull
| VBool (b : bool)
| VNum (n : Z)
| VStr (s : string)
| VRef (l : loc).

Inductive object :=
| OObj (props : list (string * val))
| OArr (elems : list val)
| OMoment (input : val).

(** The store: location [l] is position [l]; allocation appends. *)
Abbreviation heap := (list object).

(** How a computation ends: with a value, with a thrown [TypeError], or at
    a point this model has no rule for. *)
Inductive outcome (A : Type) :=
| Done (a : A)
| Throw
| Stuck.
Arguments Done {A} a.
Arguments Throw {A}.
Arguments Stuck {A}.

Definition M (A : Type) : Type := heap → heap * outcome A.

Definition ret {A : Type} (a : A) : M A := λ h, (h, Done a).

Definition bind {A B : Type} (m : M A) (k : A → M B) : M B :=
  λ h, match m h with
       | (h', Done a) => k a h'
       | (h', Throw) => (h', Throw)
       | (h', Stuck) => (h', Stuck)
       end.

Notation "x <~ m ;; k" := (bind m (λ x, k))
  (at level 100, m at next level, right associativity,
   format "x  <~  m  ;;  '/' k").
Notation "m ;;; k" := (bind m (λ _, k))
  (at level 100, right associativity, format "m  ;;;  '/' k").

Definition throw {A : Type} : M A := λ h, (h, Throw).
Definition stuck {A : Type} : M A := λ h, (h, Stuck).
Definition get_heap : M heap := λ h, (h, Done h).
Definition alloc (o : object) : M loc := λ h, (h ++ [o], Done (length h)).
Definition store (l : loc) (o : object) : M unit :=
  λ h, (<[l := o]> h, Done tt).

Fixpoint prop_lookup (key : string) (props : list (string * val))
  : option val :=
  match props with
  | [] => None
  | (k, v) :: props' => if String.eqb k key then Some v else prop_lookup key props'
  end.

Fixpoint prop_assign (key : string) (value : val)
    (props : list (string * val)) : list (string * val) :=
  match props with
  | [] => [(key, value)]
  | (k, v) :: props' =>
      if String.eqb k key then (k, value) :: props'
      else (k, v) :: prop_assign key value props'
  end.

Definition to_boolean (v : val) : bool :=
  match v with
  | VUndefined | VNull => false
  | VBool b => b
  | VNum n => negb (Z.eqb n 0)
  | VStr s => negb (String.eqb s "")
  | VRef _ => true
  end.

Definition nullish (v : val) : bool :=
  match v with
  | VUndefined | VNull => true
  | _ => false
  end.

Section Helpers.

(** What the language and the libraries decide: the string a non-string
    value turns into when used as a property name; the fields of a [moment];
    and, for a name that is no property of the coverage-history object
    itself, whether lodash [get] still finds something truthy under it (a
    dotted path into a group, or an inherited property). *)
Variable toString : heap → val → string.
Variable moment_fields : val → list (string * val).
Variable finds_elsewhere : heap → loc → string → bool.

Definition property_key (h : heap) (v : val) : string :=
  match v with
  | VStr s => s
  | _ => toString h v
  end.

(** [v[key]] for a property of the value itself. An array has its elements
    as properties; a string or a number has none. *)
Definition get_prop (h : heap) (v : val) (key : string) : val :=
  match v with
  | VRef l =>
      match h !! l with
      | Some (OObj props) => default VUndefined (prop_lookup key props)
      | Some (OArr elems) =>
          match index_of_key key with
          | Some i => default VUndefined (elems !! i)
          | None => VUndefined
          end
      | Some (OMoment input) =>
          default VUndefined (prop_lookup key (moment_fields input))
      | None => VUndefined
      end
  | _ => VUndefined
  end.

(** lodash [get(v, path)] for a path given as its list of names. *)
Fixpoint get (h : heap) (v : val) (path : list string) : val :=
  match path with
  | [] => v
  | key :: path' =>
      if nullish v then VUndefined else get h (get_prop h v key) path'
  end.

(** The own properties an object spread copies. *)
Definition own_props (h : heap) (v : val) : list (string * val) :=
  match v with
  | VRef l =>
      match h !! l with
      | Some (OObj props) => props
      | Some (OArr elems) => imap (λ i x, (pretty i, x)) elems
      | Some (OMoment input) => moment_fields input
      | None => []
      end
  | VStr s =>
      imap (λ i c, (pretty i, VStr (String c EmptyString)))
           (String.list_ascii_of_string s)
  | _ => []
  end.

(** [{...a, ...b}] *)
Definition spread (a b : list (string * val)) : list (string * val) :=
  fold_left (λ acc kv, prop_assign kv.1 kv.2 acc) (a ++ b) [].

(** [l[key] = value] on a plain object. *)
Definition assign_prop (l : loc) (key : string) (value : val) : M unit :=
  h <~ get_heap ;;
  match h !! l with
  | Some (OObj props) => store l (OObj (prop_assign key value props))
  | _ => stuck
  end.

(** [l.push(item)] *)
Definition push (l : loc) (item : val) : M unit :=
  h <~ get_heap ;;
  match h !! l with
  | Some (OArr elems) => store l (OArr (elems ++ [item]))
  | _ => stuck
  end.

(** [arr.forEach(f)]: the length is read once, the elements as the loop
    reaches them. *)
Fixpoint forEach_from (n i : nat) (l : loc) (f : val → M unit) : M unit :=
  match n with
  | 0 => ret tt
  | S n' =>
      h <~ get_heap ;;
      match h !! l with
      | Some (OArr elems) =>
          match elems !! i with
          | Some item => f item
          | None => ret tt
          end
      | _ => ret tt
      end ;;;
      forEach_from n' (S i) l f
  end.

Definition forEach (arr : val) (f : val → M unit) : M unit :=
  h <~ get_heap ;;
  match arr with
  | VRef l =>
      match h !! l with
      | Some (OArr elems) => forEach_from (length elems) 0 l f
      | _ => throw
      end
  | _ => throw
  end.

(** A parameter with the default [= []]. *)
Definition or_empty_array (v : val) : M val :=
  match v with
  | VUndefined => l <~ alloc (OArr []) ;; ret (VRef l)
  | _ => ret v
  end.

Definition getPlanningItemHistory (historyItems : val) : M val :=
  historyItems <~ or_empty_array historyItems ;;
  history <~ alloc (OArr []) ;;
  forEach historyItems (λ item,
    h <~ get_heap ;;
    if negb (to_boolean (get h item ["update"; "coverage_id"]))
    then push history item
    else ret tt) ;;;
  ret (VRef history).

(** [covHistory[key] = {items: [], planning: {}, assigned_to: {}}] *)
Definition init_group (covHistory : loc) (key : string) : M unit :=
  items <~ alloc (OArr []) ;;
  planning <~ alloc (OObj []) ;;
  assigned_to <~ alloc (OObj []) ;;
  group <~ alloc (OObj [("items", VRef items); ("planning", VRef planning);
                        ("assigned_to", VRef assigned_to)]) ;;
  assign_prop covHistory key (VRef group).

(** The record [covHistory[key]] the statements after the initialisation
    work on. Without an own property of that name the lookup gives
    [undefined] or an inherited function, and reading or spreading its
    [items] throws. *)
Definition group_of (covHistory : loc) (key : string) : M loc :=
  h <~ get_heap ;;
  match h !! covHistory with
  | Some (OObj props) =>
      match prop_lookup key props with
      | Some (VRef group) => ret group
      | Some _ => stuck
      | None => throw
      end
  | _ => stuck
  end.

(** The callback of [getGroupedCoverageHistory]. *)
Definition groupItem (covHistory : loc) (item : val) : M unit :=
  h <~ get_heap ;;
  let id := get h item ["update"; "coverage_id"] in
  if to_boolean id then
    let key := property_key h id in
    (* if (!get(covHistory, id)) covHistory[id] = {...} *)
    match h !! covHistory with
    | Some (OObj props) =>
        match prop_lookup key props with
        | Some v => if to_boolean v then ret tt else init_group covHistory key
        | None =>
            if finds_elsewhere h covHistory key then ret tt
            else init_group covHistory key
        end
    | _ => stuck
    end ;;;
    (* covHistory[id].items = [...covHistory[id].items, item] *)
    group <~ group_of covHistory key ;;
    h <~ get_heap ;;
    match get_prop h (VRef group) "items" with
    | VRef old =>
        match h !! old with
        | Some (OArr elems) =>
            items <~ alloc (OArr (elems ++ [item])) ;;
            assign_prop group "items" (VRef items)
        | _ => stuck
        end
    | _ => stuck
    end ;;;
    (* covHistory[id].planning.g2_content_type = ... *)
    h <~ get_heap ;;
    (if to_boolean (get h item ["update"; "planning"; "g2_content_type"]) then
       match get_prop h (VRef group) "planning" with
       | VRef planning =>
           assign_prop planning "g2_content_type"
             (get h item ["update"; "planning"; "g2_content_type"])
       | _ => stuck
       end
     else ret tt) ;;;
    (* covHistory[id].planning.scheduled = moment(...) *)
    h <~ get_heap ;;
    (if to_boolean (get h item ["update"; "planning"; "scheduled"]) then
       m <~ alloc (OMoment (get h item ["update"; "planning"; "scheduled"])) ;;
       h <~ get_heap ;;
       match get_prop h (VRef group) "planning" with
       | VRef planning => assign_prop planning "scheduled" (VRef m)
       | _ => stuck
       end
     else ret tt) ;;;
    (* covHistory[id].assigned_to = {...covHistory[id].assigned_to, ...} *)
    h <~ get_heap ;;
    (if to_boolean (get h item ["update"; "assigned_to"]) then
       merged <~ alloc (OObj (spread
                   (own_props h (get_prop h (VRef group) "assigned_to"))
                   (own_props h (get h item ["update"; "assigned_to"])))) ;;
       assign_prop group "assigned_to" (VRef merged)
     else ret tt) ;;;
    (* covHistory[id].workflow_status = ... *)
    h <~ get_heap ;;
    (if to_boolean (get h item ["update"; "workflow_status"]) then
       assign_prop group "workflow_status"
         (get h item ["update"; "workflow_status"])
     else ret tt)
  else ret tt.

Definition getGroupedCoverageHistory (historyItems : val) : M val :=
  historyItems <~ or_empty_array historyItems ;;
  covHistory <~ alloc (OObj []) ;;
  forEach historyItems (groupItem covHistory) ;;;
  ret (VRef covHistory).

End Helpers.

End Store.

(** ** Planning edit panel *)

Module EditPlanningPanel.

(** Helper enum for the publish method used when saving. *)
Inductive saveMethods :=
| SAVE            (* Save Only *)
| PUBLISH         (* Publish Only *)
| UNPUBLISH       (* Unpublish Only *)
| SAVE_PUBLISH    (* Save & Publish *)
| SAVE_UNPUBLISH. (* Save & Unpublish *)

Record State := mkState {
  openUnlockPopup : bool;
  previewHistory : bool;
  saveMethod : saveMethods;
}.

Definition initialState : State := mkState false false SAVE.

Definition set_saveMethod (m : saveMethods) (st : State) : State :=
  mkState (openUnlockPopup st) (previewHistory st) m.

Section Panel.

(** Planning and event records are owned by the store; the panel only hands
    them on. [isItemSpiked] and the [planningUtils] predicates live in the
    utilities of the application and are taken as given. *)
Variable Item User : Type.
Variable isItemSpiked : option Item → bool.
Variable getLockedUser : option Item → list User → option User.
Variable canSavePlanning canPublishPlanning canUnpublishPlanning :
  option Item → option Item → bool.
Variable canEditPlanning :
  option Item → option Item → bool → bool → option User → bool.

Record Props := mkProps {
  planning : option Item;
  event : option Item;
  pristine : bool;
  submitting : bool;
  readOnly : bool;
  lockedInThisSession : bool;
  planningManagementPrivilege : bool;
  notForPublication : bool;
  users : list User;
}.

(** The calls of the dispatching props. *)
Inductive dispatched :=
| save (planning : Item)
| publish (planning : Item)
| unpublish (planning : Item)
| saveAndPublish (planning : Item)
| saveAndUnpublish (planning : Item).

Definition onSubmit (st : State) (planning : Item) : dispatched :=
  match saveMethod st with
  | PUBLISH => publish planning
  | UNPUBLISH => unpublish planning
  | SAVE_PUBLISH => saveAndPublish planning
  | SAVE_UNPUBLISH => saveAndUnpublish planning
  | SAVE => save planning
  end.

(** One run of the form's [submit()]: it validates the form and, when that
    passes, calls the [onSubmit] it was given with the form values; the
    promise it returns is fulfilled when the dispatched action succeeds. *)
Record Submission := mkSubmission {
  values : Item;
  validates : bool;
  succeeds : dispatched → bool;
}.

Definition fulfilled (form : Submission) (st : State) : bool :=
  validates form && succeeds form (onSubmit st (values form)).

(** [handleSave]: submit the form, then restore the save method to
    [SAVE]. The [then] callback runs only for a fulfilled promise. *)
Definition handleSave (form : Submission) (st : State)
  : State * list dispatched :=
  let calls := if validates form then [onSubmit st (values form)] else [] in
  (if fulfilled form st then set_saveMethod SAVE st else st, calls).

(** [setState({saveMethod}, this.handleSave)]: the callback runs on the
    updated state. *)
Definition handleSaveAndPublish (props : Props) (form : Submission)
    (st : State) : State * list dispatched :=
  if pristine props || readOnly props
  then handleSave form (set_saveMethod PUBLISH st)
  else handleSave form (set_saveMethod SAVE_PUBLISH st).

Definition handleSaveAndUnpublish (props : Props) (form : Submission)
    (st : State) : State * list dispatched :=
  if pristine props || readOnly props
  then handleSave form (set_saveMethod UNPUBLISH st)
  else handleSave form (set_saveMethod SAVE_UNPUBLISH st).

(** The read-only flag [render] computes before it lays out the panel. *)
Definition forceReadOnly (props : Props) : bool :=
  let forceReadOnly := readOnly props in
  if negb (lockedInThisSession props)
     || isItemSpiked (event props) || isItemSpiked (planning props)
  then true
  else forceReadOnly.

(** What [render] puts on the screen: for each button whether it is shown,
    and whether it is disabled; the form with its [readOnly] prop. *)
Record View := mkView {
  lockAvatar : option User;
  cancelButton : option bool;
  saveButton : option bool;
  publishButton : option bool;
  unpublishButton : option bool;
  editButton : bool;
  closeButton : bool;
  planningForm : option bool;
  historyPreview : bool;
}.

Definition shown (cond : bool) (disabled : bool) : option bool :=
  if cond then Some disabled else None.

(** With the history preview open, [render] reads [planning._id] for the
    history container, which throws when there is no planning: the view is
    what is on the screen when there is one. *)
Definition render (props : Props) (st : State) : View :=
  let lockedUser := getLockedUser (planning props) (users props) in
  let forceReadOnly := forceReadOnly props in
  let showSave := canSavePlanning (planning props) (event props) in
  let showPublish := canPublishPlanning (planning props) (event props) in
  let showUnpublish := canUnpublishPlanning (planning props) (event props) in
  let showEdit :=
    canEditPlanning (planning props) (event props)
                    (planningManagementPrivilege props)
                    (lockedInThisSession props) lockedUser in
  let actions := negb (previewHistory st) in
  mkView
    (if lockedInThisSession props then None else lockedUser)
    (shown (actions && negb forceReadOnly) (submitting props))
    (shown (actions && negb forceReadOnly && showSave)
           (pristine props || submitting props))
    (shown (actions && showPublish)
           (submitting props || notForPublication props))
    (shown (actions && showUnpublish)
           (submitting props || notForPublication props))
    (actions && forceReadOnly && showEdit)
    (actions && forceReadOnly)
    (if previewHistory st then None else Some forceReadOnly)
    (previewHistory st).

End Panel.

End EditPlanningPanel.

(** ** Array-field editor *)

Module InputArray.

Section Editor.

(** The elements of the list and the arguments the add button passes on. *)
Variable A Arg : Type.

(** [defaultElement] is either a factory or the element itself. *)
Inductive DefaultElement :=
| Factory (f : list Arg → A)
| Element (a : A).

Record Props := mkProps {
  field : string;
  value : option (list A);
  defaultElement : DefaultElement;
  maxCount : nat;
  addOnly : bool;
  originalCount : nat;
  readOnly : bool;
}.

(** Calls to the caller's [onChange] and to the [confirm]/[notify] services
    of the host application. *)
Inductive call :=
| onChange (field : string) (value : list A)
| confirm (message : string)
| notify_success (message : string).

(** [this.props.value ?? []] *)
Definition currentValue (props : Props) : list A := default [] (value props).

Definition onAdd (props : Props) (args : list Arg) : list call :=
  let newElement :=
    match defaultElement props with
    | Factory f => f args
    | Element a => a
    end in
  [onChange (field props) (currentValue props ++ [newElement])].

(** [l.filter((value, i) => p(value, i))] *)
Fixpoint filter_indexed (p : A → nat → bool) (i : nat) (l : list A) : list A :=
  match l with
  | [] => []
  | x :: l' =>
      if p x i then x :: filter_indexed p (S i) l' else filter_indexed p (S i) l'
  end.

(** [remove(index)] opens the confirmation dialog; the [then] callback gets
    the answer and reads the props of that moment. *)
Definition remove (index : nat) : list call * (bool → Props → list call) :=
  ([confirm "Remove Coverage"],
   λ (response : bool) (props : Props),
     if response then
       [onChange (field props)
          (filter_indexed (λ _ i, negb (Nat.eqb i index)) 0 (currentValue props));
        notify_success "The coverage has been removed"]
     else []).

(** The editor keeps no list of its own: the parent stores what [onChange]
    reports and passes it back as [value]. *)
Definition rerender (props : Props) (c : call) : Props :=
  match c with
  | onChange _ v =>
      mkProps (field props) (Some v) (defaultElement props) (maxCount props)
              (addOnly props) (originalCount props) (readOnly props)
  | _ => props
  end.

(** [(maxCount ? value.length < maxCount : true) && !readOnly], with the
    default [value = []] of [render] for a value that is not given. *)
Definition showAddButton (props : Props) : bool :=
  (if Nat.eqb (maxCount props) 0 then true
   else Nat.ltb (length (currentValue props)) (maxCount props))
  && negb (readOnly props).

Definition isIndexReadOnly (props : Props) (index : nat) : bool :=
  if addOnly props && Nat.eqb index (originalCount props) then false
  else readOnly props.

End Editor.

Arguments Factory {A Arg} f.
Arguments Element {A Arg} a.
Arguments onChange {A} field value.
Arguments confirm {A} message.
Arguments notify_success {A} message.

End InputArray.

(** ** Related-articles search modal *)

Module EventsRelatedArticlesModal.
Import Js.

(** An article is an object; only its properties matter here. *)
Abbreviation article := (list (string * jsval)).

Record language := mkLanguage { label : string; code : string }.

Record Props := mkProps {
  selectedArticles : option (list article);
}.

Record State := mkState {
  articles : list article;
  searchQuery : string;
  loading : bool;
  currentlySelectedArticles : option (list article);
  activeLanguage : language;
  previewItem : option article;
  repo : jsval;
  languages : list language;
}.

Definition constructor (props : Props) : State :=
  mkState [] "" true (selectedArticles props)
          (mkLanguage "All languages" "") None JNull [].

(** An entry of the answer to [GET /search_providers]. *)
Record provider := mkProvider {
  search_provider : string;
  _id : jsval;
}.

Record ISuperdeskQuery := mkQuery {
  filter_language : option string;     (* filter.language = {$eq: code} *)
  page : nat;
  max_results : nat;
  sort_versioncreated : string;
  fullTextSearch : option string;
}.

Record http_request := mkRequest {
  method : string;
  path : string;
  urlParams : list (string * jsval);
}.

(** What [getItems] hands to the pagination: an answer it already has, or a
    request whose answer gives the page. *)
Inductive fetch :=
| Resolved (items : list article) (itemCount : nat)
| Requested (request : http_request).

(** Calls of the two callbacks of the props. *)
Inductive call :=
| onChange (value : list article)
| closeModal.

(** What the user and the network can make happen. *)
Inductive event :=
| ProvidersLoaded (items : list provider)
| PageLoaded
| SearchSubmitted (value : string)
| LanguageSelected (language : language)
| PreviewSet (itemToPreview : article)
| PreviewClosed
| ArticleRemoved (articleId : string)
| ArticleAdded (article : article)
| CancelClicked
| ApplyClicked.

Section Modal.

(** Configuration and services of the host application. *)
Variable searchProviderName : option string.
Variable languageVocabulary : list (string * string).
Variable projections : string.
Variable superdeskToElasticQuery : ISuperdeskQuery → list (string * jsval).
Variable cleanArticlesFields : list article → list article.
Variable toLowerCase : string → string.

Definition set_loading (b : bool) (st : State) : State :=
  mkState (articles st) (searchQuery st) b (currentlySelectedArticles st)
          (activeLanguage st) (previewItem st) (repo st) (languages st).
Definition set_searchQuery (q : string) (st : State) : State :=
  mkState (articles st) q (loading st) (currentlySelectedArticles st)
          (activeLanguage st) (previewItem st) (repo st) (languages st).
Definition set_selected (sel : list article) (st : State) : State :=
  mkState (articles st) (searchQuery st) (loading st) (Some sel)
          (activeLanguage st) (previewItem st) (repo st) (languages st).
Definition set_activeLanguage (l : language) (st : State) : State :=
  mkState (articles st) (searchQuery st) (loading st)
          (currentlySelectedArticles st) l (previewItem st) (repo st)
          (languages st).
Definition set_previewItem (a : option article) (st : State) : State :=
  mkState (articles st) (searchQuery st) (loading st)
          (currentlySelectedArticles st) (activeLanguage st) a (repo st)
          (languages st).
Definition set_repo_languages (r : jsval) (ls : list language) (st : State)
  : State :=
  mkState (articles st) (searchQuery st) (loading st)
          (currentlySelectedArticles st) (activeLanguage st) (previewItem st)
          r ls.

Definition componentDidUpdate (prevState st : State) : State :=
  if negb (String.eqb (code (activeLanguage prevState)) (code (activeLanguage st)))
     || negb (String.eqb (searchQuery prevState) (searchQuery st))
     || negb (jsval_eqb (repo prevState) (repo st))
  then set_loading true st
  else st.

(** [this.setState(...)], followed by the update hook. *)
Definition setState (update : State → State) (st : State) : State :=
  componentDidUpdate st (update st).

(** [componentDidMount]: with a provider name configured, the list of
    providers is requested; the [then] callback stores the id of the first
    provider of that name, [undefined] when there is none. *)
Definition componentDidMount
  : option (http_request * (list provider → State → State)) :=
  match searchProviderName with
  | Some name =>
      Some (mkRequest "GET" "/search_providers" [("manage", JNum 1)],
            λ (items : list provider) (st : State),
              let repoId :=
                match find (λ p, String.eqb (search_provider p) name) items with
                | Some p => _id p
                | None => JUndefined
                end in
              setState
                (set_repo_languages repoId
                   (((λ nq, mkLanguage nq.1 nq.2) <$> languageVocabulary)
                      ++ [mkLanguage "All languages" ""]))
                st)
  | None => None
  end.

(** Object spread of [b] over [a]. *)
Definition spread (a b : list (string * jsval)) : list (string * jsval) :=
  fold_left (λ acc kv, prop_set kv.1 kv.2 acc) b a.

(** The [getItems] callback given to the pagination. *)
Definition getItems (st : State) (pageNo pageSize : nat) : fetch :=
  if nullish (repo st) then Resolved [] 0
  else
    let query := mkQuery None pageNo pageSize "desc" None in
    let urlParams :=
      [("aggregations", JNum 0); ("es_highlight", JNum 1);
       ("repo", repo st); ("projections", JStr projections)] in
    let '(query, urlParams) :=
      if negb (String.eqb (code (activeLanguage st)) "") then
        (mkQuery (Some (code (activeLanguage st))) (page query)
                 (max_results query) (sort_versioncreated query)
                 (fullTextSearch query),
         prop_set "params"
                  (JObj [("languages", JStr (code (activeLanguage st)))])
                  urlParams)
      else (query, urlParams) in
    let query :=
      if negb (String.eqb (searchQuery st) "") then
        mkQuery (filter_language query) (page query) (max_results query)
                (sort_versioncreated query)
                (Some (toLowerCase (searchQuery st)))
      else query in
    Requested (mkRequest "GET" "/search_providers_proxy"
                         (spread urlParams (superdeskToElasticQuery query))).

(** [this.state.currentlySelectedArticles ?? []] *)
Definition selection (st : State) : list article :=
  default [] (currentlySelectedArticles st).

(** [guid !== articleId] for the [guid] of an article. *)
Definition guid_differs (articleId : string) (a : article) : bool :=
  match prop_get "guid" a with
  | JStr guid => negb (String.eqb guid articleId)
  | _ => true
  end.

Definition removeArticle (articleId : string) (st : State) : State :=
  setState (set_selected (List.filter (guid_differs articleId) (selection st))) st.

Definition addArticle (a : article) (st : State) : State :=
  setState
    (set_selected (selection st ++ [prop_set "search_provider" (repo st) a])) st.

(** The document [JSON.stringify] writes for a selection; a missing
    selection has none. *)
Definition selection_json (sel : option (list article)) : option jsval :=
  match sel with
  | Some l => JSON_stringify (JArr (JObj <$> l))
  | None => None
  end.

(** The [disabled] prop of the Apply button. *)
Definition apply_disabled (props : Props) (st : State) : bool :=
  match selection_json (selectedArticles props),
        selection_json (currentlySelectedArticles st) with
  | Some a, Some b => jsval_eqb a b
  | None, None => true
  | _, _ => false
  end.

(** One event: the new state and the callbacks called. A disabled button
    does not react to a click. *)
Definition handle (props : Props) (st : State) (ev : event)
  : State * list call :=
  match ev with
  | ProvidersLoaded items =>
      match componentDidMount with
      | Some (_, callback) => (callback items st, [])
      | None => (st, [])
      end
  | PageLoaded => (setState (set_loading false) st, [])
  | SearchSubmitted value => (setState (set_searchQuery value) st, [])
  | LanguageSelected l => (setState (set_activeLanguage l) st, [])
  | PreviewSet a => (setState (set_previewItem (Some a)) st, [])
  | PreviewClosed => (setState (set_previewItem None) st, [])
  | ArticleRemoved articleId => (removeArticle articleId st, [])
  | ArticleAdded a => (addArticle a st, [])
  | CancelClicked => (st, [closeModal])
  | ApplyClicked =>
      if apply_disabled props st then (st, [])
      else (st, [onChange (cleanArticlesFields (selection st)); closeModal])
  end.

(** The state after a sequence of events. *)
Definition run (props : Props) (evs : list event) (st : State) : State :=
  fold_left (λ st ev, (handle props st ev).1) evs st.

End Modal.

End EventsRelatedArticlesModal.

(** ** Coverage assignment modal *)

Module EditCoverageAssignmentModal.
Import Js.

(** [isObject(v)] of lodash. *)
Definition isObject (v : jsval) : bool :=
  match v with
  | JObj _ | JArr _ => true
  | _ => false
  end.

(** [v[key]] for a property of the value itself: a property of an object,
    an element or the length of an array, a character or the length of a
    string (a string being the list of its code units). What a value
    inherits, its methods, is no data and is not read here. *)
Definition get_own (v : jsval) (key : string) : jsval :=
  match v with
  | JObj props => prop_get key props
  | JArr elems =>
      match index_of_key key with
      | Some i => default JUndefined (elems !! i)
      | None =>
          if String.eqb key "length" then JNum (Z.of_nat (length elems))
          else JUndefined
      end
  | JStr s =>
      match index_of_key key with
      | Some i =>
          match String.get i s with
          | Some c => JStr (String c EmptyString)
          | None => JUndefined
          end
      | None =>
          if String.eqb key "length" then JNum (Z.of_nat (String.length s))
          else JUndefined
      end
  | _ => JUndefined
  end.

(** [elems[i] = value]: past the end the array grows, with holes. *)
Definition array_set (i : nat) (value : jsval) (elems : list jsval)
  : list jsval :=
  if decide (i < length elems) then <[i := value]> elems
  else elems ++ replicate (i - length elems) JUndefined ++ [value].

(** [elems.length = n]: the array is cut, or grows with holes. *)
Definition array_resize (n : nat) (elems : list jsval) : list jsval :=
  take n elems ++ replicate (n - length elems) JUndefined.

(** [assignValue(object, key, value)] of lodash. Arrays are lists of
    elements: an index assigns an element and [length], given a number that
    can be the length of an array, cuts or extends the list. Every other
    assignment to an array either stores a property that a list of elements
    has no place for or throws a [RangeError]; the array is left as it is
    then, and the statements about [set] keep away from these paths (see
    [addressable]). *)
Definition assignValue (object : jsval) (key : string) (value : jsval)
  : jsval :=
  match object with
  | JObj props => JObj (prop_set key value props)
  | JArr elems =>
      match index_of_key key with
      | Some i => JArr (array_set i value elems)
      | None =>
          match value with
          | JNum n =>
              if String.eqb key "length" && bool_decide (0 ≤ n < 2 ^ 32)%Z
              then JArr (array_resize (Z.to_nat n) elems)
              else JArr elems
          | _ => JArr elems
          end
      end
  | _ => object
  end.

(** The names lodash [set] refuses to go through. *)
Definition unsafe_key (key : string) : bool :=
  String.eqb key "__proto__" || String.eqb key "constructor"
  || String.eqb key "prototype".

(** The loop of lodash [baseSet], for a path given as the list of names
    lodash reads it as: a missing or primitive link of the path is replaced
    by an empty array when the next name is an index, by an empty object
    otherwise. What the loop does to [nested] in place is returned. *)
Fixpoint baseSet_from (nested : jsval) (path : list string) (value : jsval)
  : jsval :=
  match path with
  | [] => nested
  | key :: rest =>
      if unsafe_key key then nested
      else
        match rest with
        | [] => assignValue nested key value
        | next :: _ =>
            let objValue := get_own nested key in
            let newValue :=
              if isObject objValue then objValue
              else match index_of_key next with
                   | Some _ => JArr []
                   | None => JObj []
                   end in
            assignValue nested key (baseSet_from newValue rest value)
        end
  end.

(** lodash [set(object, path, value)] *)
Definition set (object : jsval) (path : list string) (value : jsval) : jsval :=
  if isObject object then baseSet_from object path value else object.

(** lodash [get(object, path)] *)
Fixpoint get (object : jsval) (path : list string) : jsval :=
  match path with
  | [] => object
  | key :: rest =>
      if nullish object then JUndefined else get (get_own object key) rest
  end.

(** lodash [cloneDeep]: a copy that shares nothing with the original. For
    values, which are compared by structure, the copy is the value; the
    copying itself is in [AssignmentStore.cloneDeep]. *)
Definition cloneDeep (v : jsval) : jsval := v.

Record modalProps := mkModalProps {
  field : option string;
  value : jsval;
  priorityPrefix : option string;
  disableDeskSelection : bool;
  disableUserSelection : bool;
}.

Record State := mkState {
  valid : bool;
  submitting : bool;
  diff : jsval;
}.

(** Calls of the callbacks of the props. *)
Inductive call :=
| modalProps_onChange (field : option string) (diff : jsval)
| setCoverageDefaultDesk (diff : jsval)
| handleHide.

Definition constructor (props : modalProps) : State :=
  let copy := cloneDeep (value props) in
  mkState true false (if nullish copy then JObj [] else copy).

Definition onChange (field : list string) (value : jsval) (st : State)
  : State * list call :=
  let diffCopy := cloneDeep (diff st) in
  let diffCopy := set diffCopy field value in
  (mkState (valid st) (submitting st) diffCopy, []).

Definition onSubmit (props : modalProps) (st : State) : State * list call :=
  let st := mkState (valid st) true (diff st) in
  (st, [modalProps_onChange (field props) (diff st);
        setCoverageDefaultDesk (diff st);
        handleHide]).

Definition setValid (valid : bool) (st : State) : State * list call :=
  (mkState valid (submitting st) (diff st), []).

(** A series of changes made through the editor, each reported when the
    state set by the one before is in place. (Two changes reported within
    one batch of state updates would both start from the same draft, and
    the second would undo the first.) *)
Definition onChanges (changes : list (list string * jsval)) (st : State)
  : State :=
  fold_left (λ st change, (onChange change.1 change.2 st).1) changes st.

(** What [render] shows: whether the close icon is there, and whether the
    two buttons are disabled. *)
Record View := mkView {
  closeIcon : bool;
  cancelDisabled : bool;
  okDisabled : bool;
  editorValue : jsval;
}.

Definition render (st : State) : View :=
  mkView (negb (submitting st)) (submitting st)
         (negb (valid st) || submitting st) (diff st).

(** What can happen to the open modal. A disabled button and a missing icon
    do not react. *)
Inductive event :=
| EditorChanged (field : list string) (value : jsval)
| EditorValidated (valid : bool)
| OkClicked
| CancelClicked
| CloseClicked
| ModalHidden.

Definition handle (props : modalProps) (st : State) (ev : event)
  : State * list call :=
  match ev with
  | EditorChanged field value => onChange field value st
  | EditorValidated valid => setValid valid st
  | OkClicked =>
      if okDisabled (render st) then (st, []) else onSubmit props st
  | CancelClicked =>
      if cancelDisabled (render st) then (st, []) else (st, [handleHide])
  | CloseClicked =>
      if closeIcon (render st) then (st, [handleHide]) else (st, [])
  | ModalHidden => (st, [handleHide])
  end.

End EditCoverageAssignmentModal.

(** ** The coverage assignment modal over an object store

    [set] changes its argument in place and [cloneDeep] makes new objects:
    to see what the modal does to the value it is opened with, its draft is
    kept in the object store of the history helpers. *)

Module AssignmentStore.
Import Store.

Section Modal.

Variable moment_fields : val → list (string * val).

Fixpoint memo_lookup (l : loc) (memo : list (loc * loc)) : option loc :=
  match memo with
  | [] => None
  | (original, copy) :: memo' =>
      if Nat.eqb original l then Some copy else memo_lookup l memo'
  end.

(** The loops of lodash [baseClone] over the properties of an object and
    the elements of an array: each is copied with [clone] and given to the
    copy of the object. *)
Fixpoint clone_props (clone : val → list (loc * loc) → M (val * list (loc * loc)))
    (copy : loc) (props : list (string * val)) (memo : list (loc * loc))
  : M (list (loc * loc)) :=
  match props with
  | [] => ret memo
  | (key, sub) :: props' =>
      r <~ clone sub memo ;;
      assign_prop copy key r.1 ;;;
      clone_props clone copy props' r.2
  end.

Fixpoint clone_elems (clone : val → list (loc * loc) → M (val * list (loc * loc)))
    (copy : loc) (elems : list val) (memo : list (loc * loc))
  : M (list (loc * loc)) :=
  match elems with
  | [] => ret memo
  | sub :: elems' =>
      r <~ clone sub memo ;;
      push copy r.1 ;;;
      clone_elems clone copy elems' r.2
  end.

(** lodash [baseClone] with the deep flag. [memo] is its stack of the
    objects met so far with their copies, which keeps shared and cyclic
    structure. A primitive is its own copy. [fuel] bounds the depth of the
    recursion. *)
Fixpoint baseClone (fuel : nat) (v : val) (memo : list (loc * loc))
  : M (val * list (loc * loc)) :=
  match v with
  | VRef l =>
      match memo_lookup l memo with
      | Some copy => ret (VRef copy, memo)
      | None =>
          match fuel with
          | 0 => stuck
          | S fuel' =>
              h <~ get_heap ;;
              match h !! l with
              | Some (OObj props) =>
                  copy <~ alloc (OObj []) ;;
                  memo <~ clone_props (baseClone fuel') copy props
                                      ((l, copy) :: memo) ;;
                  ret (VRef copy, memo)
              | Some (OArr elems) =>
                  copy <~ alloc (OArr []) ;;
                  memo <~ clone_elems (baseClone fuel') copy elems
                                      ((l, copy) :: memo) ;;
                  ret (VRef copy, memo)
              | Some (OMoment input) =>
                  copy <~ alloc (OMoment VUndefined) ;;
                  r <~ baseClone fuel' input ((l, copy) :: memo) ;;
                  store copy (OMoment r.1) ;;;
                  ret (VRef copy, r.2)
              | None => stuck
              end
          end
      end
  | _ => ret (v, memo)
  end.

(** [cloneDeep(v)]: no chain of distinct objects is longer than the store. *)
Definition cloneDeep (v : val) : M val :=
  h <~ get_heap ;;
  r <~ baseClone (S (length h)) v [] ;;
  ret r.1.

(** [elems[i] = value] *)
Definition array_set (i : nat) (value : val) (elems : list val) : list val :=
  if decide (i < length elems) then <[i := value]> elems
  else elems ++ replicate (i - length elems) VUndefined ++ [value].

(** [elems.length = n] *)
Definition array_resize (n : nat) (elems : list val) : list val :=
  take n elems ++ replicate (n - length elems) VUndefined.

(** [assignValue(nested, key, value)]. An array takes an element at an
    index and a number that can be its length as [length]; any other
    assignment to an array stores a property the arrays of this store have
    no place for, or throws a [RangeError]: the store has no rule for
    these. *)
Definition assignValue (nested : loc) (key : string) (value : val) : M unit :=
  h <~ get_heap ;;
  match h !! nested with
  | Some (OObj props) => store nested (OObj (prop_assign key value props))
  | Some (OArr elems) =>
      match index_of_key key with
      | Some i => store nested (OArr (array_set i value elems))
      | None =>
          match value with
          | VNum n =>
              if String.eqb key "length" && bool_decide (0 ≤ n < 2 ^ 32)%Z
              then store nested (OArr (array_resize (Z.to_nat n) elems))
              else stuck
          | _ => stuck
          end
      end
  | _ => stuck
  end.

(** The loop of lodash [baseSet]. *)
Fixpoint baseSet_from (nested : loc) (path : list string) (value : val)
  : M unit :=
  match path with
  | [] => ret tt
  | key :: rest =>
      if EditCoverageAssignmentModal.unsafe_key key then ret tt
      else
        match rest with
        | [] => assignValue nested key value
        | next :: _ =>
            h <~ get_heap ;;
            newValue <~
              match get_prop moment_fields h (VRef nested) key with
              | VRef objValue => ret objValue
              | _ =>
                  alloc match index_of_key next with
                        | Some _ => OArr []
                        | None => OObj []
                        end
              end ;;
            assignValue nested key (VRef newValue) ;;;
            baseSet_from newValue rest value
        end
  end.

(** lodash [set(object, path, value)] *)
Definition set (object : val) (path : list string) (value : val) : M unit :=
  match object with
  | VRef l => baseSet_from l path value
  | _ => ret tt
  end.

Record State := mkState {
  valid : bool;
  submitting : bool;
  diff : val;
}.

(** [diff: cloneDeep(props.modalProps.value) ?? {}] *)
Definition constructor (value : val) : M State :=
  copy <~ cloneDeep value ;;
  diff <~ (if nullish copy then l <~ alloc (OObj []) ;; ret (VRef l)
           else ret copy) ;;
  ret (mkState true false diff).

Definition onChange (field : list string) (value : val) (st : State)
  : M State :=
  diffCopy <~ cloneDeep (diff st) ;;
  set diffCopy field value ;;;
  ret (mkState (valid st) (submitting st) diffCopy).

(** A series of changes made through the editor, each reported when the
    state set by the one before is in place. *)
Fixpoint onChanges (changes : list (list string * val)) (st : State)
  : M State :=
  match changes with
  | [] => ret st
  | (field, value) :: changes' =>
      st <~ onChange field value st ;;
      onChanges changes' st
  end.

(** The life of the modal up to its submission or dismissal: it is opened
    with [value], then the editor reports changes. *)
Definition session (value : val) (changes : list (list string * val))
  : M State :=
  st <~ constructor value ;;
  onChanges changes st.

End Modal.

(** [repr h v t F]: in the store [h] the value [v] stands for the plain
    value [t], and [F] lists the locations of the objects and arrays it is
    made of, one entry for each way of reaching them. The names of the
    properties of an object are distinct. *)
Inductive repr (h : heap) : val → Js.jsval → list loc → Prop :=
| repr_undefined : repr h VUndefined Js.JUndefined []
| repr_null : repr h VNull Js.JNull []
| repr_bool b : repr h (VBool b) (Js.JBool b) []
| repr_num n : repr h (VNum n) (Js.JNum n) []
| repr_str s : repr h (VStr s) (Js.JStr s) []
| repr_obj l props tprops F :
    h !! l = Some (OObj props) →
    NoDup props.*1 →
    repr_props h props tprops F →
    repr h (VRef l) (Js.JObj tprops) (l :: F)
| repr_arr l elems telems F :
    h !! l = Some (OArr elems) →
    repr_elems h elems telems F →
    repr h (VRef l) (Js.JArr telems) (l :: F)
with repr_props (h : heap)
  : list (string * val) → list (string * Js.jsval) → list loc → Prop :=
| repr_props_nil : repr_props h [] [] []
| repr_props_cons key v t F props tprops F' :
    repr h v t F →
    repr_props h props tprops F' →
    repr_props h ((key, v) :: props) ((key, t) :: tprops) (F ++ F')
with repr_elems (h : heap) : list val → list Js.jsval → list loc → Prop :=
| repr_elems_nil : repr_elems h [] [] []
| repr_elems_cons v t F elems telems F' :
    repr h v t F →
    repr_elems h elems telems F' →
    repr_elems h (v :: elems) (t :: telems) (F ++ F').

Scheme repr_mut := Minimality for repr Sort Prop
  with repr_props_mut := Minimality for repr_props Sort Prop
  with repr_elems_mut := Minimality for repr_elems Sort Prop.
Combined Scheme repr_mutind from repr_mut, repr_props_mut, repr_elems_mut.

(** The value a store value stands for, down to a given depth; for
    comparing the two models of the modal on examples. *)
Fixpoint reify (depth : nat) (h : heap) (v : val) : Js.jsval :=
  match v with
  | VUndefined => Js.JUndefined
  | VNull => Js.JNull
  | VBool b => Js.JBool b
  | VNum n => Js.JNum n
  | VStr s => Js.JStr s
  | VRef l =>
      match depth with
      | 0 => Js.JUndefined
      | S depth' =>
          match h !! l with
          | Some (OObj props) =>
              Js.JObj (map (λ kv, (kv.1, reify depth' h kv.2)) props)
          | Some (OArr elems) => Js.JArr (map (reify depth' h) elems)
          | _ => Js.JUndefined
          end
      end
  end.

End AssignmentStore.

(** ** Array-field editor: the add button *)

Module InputArrayView.
Import InputArray.

Section View.

Variable A Arg : Type.

(** The props of [render] that decide where the add button goes. A missing
    label is [None]. *)
Record Layout := mkLayout {
  label : option string;
  buttonWithLabel : bool;
}.

(** [!label?.length] *)
Definition noLabel (layout : Layout) : bool :=
  match label layout with
  | Some s => Nat.eqb (String.length s) 0
  | None => true
  end.

(** The two places of the add button in what [render] returns: beside the
    label, inside the block that is there only with a label, and below the
    elements. *)
Definition addButtonBesideLabel (props : Props A Arg) (layout : Layout)
  : bool :=
  if noLabel layout then false
  else buttonWithLabel layout && showAddButton A Arg props.

Definition addButtonBelow (props : Props A Arg) (layout : Layout) : bool :=
  negb (buttonWithLabel layout) && showAddButton A Arg props.

(** A click on the add button: it is there to be clicked only when
    [render] shows it, and the parent passes the reported list back. *)
Definition clickAdd (layout : Layout) (props : Props A Arg)
    (args : list Arg) : Props A Arg :=
  if addButtonBesideLabel props layout || addButtonBelow props layout
  then fold_left (rerender A Arg) (onAdd A Arg props args) props
  else props.

End View.

End InputArrayView.

(** ** Rows of the history list *)

Module HistoryRows.
Import Js.

Abbreviation get := EditCoverageAssignmentModal.get.
Abbreviation get_own := EditCoverageAssignmentModal.get_own.

(** How a call ends: with a [TypeError] or with what it returns, where
    [None] is [undefined]. *)
Inductive result (A : Type) :=
| TypeError
| Returned (a : option A).
Arguments TypeError {A}.
Arguments Returned {A} a.

(** [v === s] for a string [s]. *)
Definition is_string (v : jsval) (s : string) : bool :=
  match v with
  | JStr x => String.eqb x s
  | _ => false
  end.

(** What the row shows: the text, the word before the user name when there
    is a user, the name, and the date handed to [AbsoluteDate]. *)
Record Row := mkRow {
  text : string;
  by_word : option string;
  user_name : jsval;
  date : jsval;
}.

Section Rows.

(** The translations, the constants [HISTORY_OPERATIONS.POST],
    [.EVENTS_CANCEL], [.PLANNING_CANCEL] and [POST_STATE.CANCELLED], and the
    lookup of a user by id belong to the application. *)
Variable gettext : string → string.
Variable POST EVENTS_CANCEL PLANNING_CANCEL : string.
Variable CANCELLED : string.
Variable getItemInArrayById : jsval → jsval → jsval.

Definition getDisplayUser (userId users : jsval) : jsval :=
  get (getItemInArrayById users userId) ["display_name"].

(** Reading a property of [null] or [undefined] throws. *)
Definition getHistoryRowElement (text : string) (historyItem users : jsval)
  : result Row :=
  if negb (String.eqb text "") then
    if nullish historyItem then TypeError
    else
      Returned (Some (mkRow
        text
        (if negb (nullish (get_own historyItem "user_id"))
         then Some (gettext " by ") else None)
        (getDisplayUser (get_own historyItem "user_id") users)
        (get_own historyItem "_created")))
  else Returned None.

(** ['event_id' in historyItem]: a [TypeError] on anything that is not an
    object; an array has no property of that name. *)
Definition has_event_id (historyItem : jsval) : option bool :=
  match historyItem with
  | JObj props => Some (bool_decide ("event_id" ∈ props.*1))
  | JArr _ => Some false
  | _ => None
  end.

Definition getPostedHistoryElement (index : nat) (historyItems : list jsval)
    (users : jsval) : result Row :=
  let historyItem := default JUndefined (historyItems !! index) in
  match has_event_id historyItem with
  | None => TypeError
  | Some is_event =>
      let itemType :=
        if is_event then gettext "Event " else gettext "Planning " in
      let operation := get_own historyItem "operation" in
      if negb (is_string operation POST)
         && negb (is_string operation EVENTS_CANCEL)
         && negb (is_string operation PLANNING_CANCEL)
      then Returned None   (* not post operation *)
      else
        let text := String.append itemType (gettext "posted") in
        let text :=
          if is_string (get historyItem ["update"; "pubstatus"]) CANCELLED
          then String.append itemType (gettext "unposted")
          else text in
        getHistoryRowElement text historyItem users
  end.

End Rows.

End HistoryRows.

(** ** Item actions of a menu *)

Module ItemActions.
Import Js.

Section Actions.

(** [GENERIC_ITEM_ACTIONS.DIVIDER.label] *)
Variable DIVIDER_label : string.

(** An entry of a menu is an object, given by its properties. *)
Definition isItemAction (x : list (string * jsval)) : bool :=
  negb (nullish (prop_get "label" x))
  && negb (HistoryRows.is_string (prop_get "label" x) DIVIDER_label).

Definition isMenuDivider (x : list (string * jsval)) : bool :=
  negb (nullish (prop_get "label" x))
  && HistoryRows.is_string (prop_get "label" x) DIVIDER_label.

End Actions.

End ItemActions.

(** ** Date and time display *)

Module DateTime.

(** The characters of the class [[\/\#.-]] and, with the flag [i], of
    [y]. Text is a list of bytes; these are ASCII characters, which are
    bytes of no other character. *)
Definition is_separator (c : ascii) : bool :=
  Ascii.eqb c "/" || Ascii.eqb c "#" || Ascii.eqb c "." || Ascii.eqb c "-".

Definition is_y (c : ascii) : bool := Ascii.eqb c "y" || Ascii.eqb c "Y".

(** The rest of a text after the [y]s it starts with: what [y+] leaves. *)
Fixpoint after_ys (s : list ascii) : list ascii :=
  match s with
  | c :: s' => if is_y c then after_ys s' else s
  | [] => []
  end.

(** [s.replace(/([\/\#.-]y+)|(y+[\/\#.-])/gi, '')]: at each place, from the
    left, a separator followed by [y]s, or else [y]s followed by a
    separator, is taken out and the search goes on behind it; a character
    where neither starts is kept. [fuel] bounds the number of places. *)
Fixpoint without_year_from (fuel : nat) (s : list ascii) : list ascii :=
  match fuel with
  | 0 => s
  | S fuel' =>
      match s with
      | [] => []
      | c :: rest =>
          if is_separator c
             && match rest with y :: _ => is_y y | [] => false end
          then without_year_from fuel' (after_ys rest)
          else if is_y c
                  && match after_ys rest with
                     | d :: _ => is_separator d
                     | [] => false
                     end
          then without_year_from fuel' (tail (after_ys rest))
          else c :: without_year_from fuel' rest
      end
  end.

Definition without_year (format : string) : string :=
  String.string_of_list_ascii
    (without_year_from (String.length format)
                       (String.list_ascii_of_string format)).

(** The no-break space [ ]. *)
Definition nbsp : string :=
  String (ascii_of_nat 194) (String (ascii_of_nat 160) EmptyString).

(** [parts.filter((d) => d).join(sep)] for parts that are a string or
    [null]. *)
Definition join_truthy (sep : string) (parts : list (option string))
  : string :=
  let kept :=
    omap (λ d, match d with
               | Some s => if String.eqb s "" then None else Some s
               | None => None
               end) parts in
  match kept with
  | [] => ""
  | first :: others =>
      fold_left (λ acc s, String.append (String.append acc sep) s) others first
  end.

Record Props := mkProps {
  withTime : bool;
  withYear : bool;
  withDate : bool;
  padLeft : bool;
  toBeConfirmed : bool;
  isFullDay : bool;
  isEndEventDateTime : bool;
  noEndTime : bool;
  multiDay : bool;
}.

(** The [<time>] element returned. *)
Record Time := mkTime {
  className : option string;
  title : string;
  children : option string;
}.

Section Component.

(** The translations and the configured formats; [format f] is
    [moment(date).format(f)] and [timeZone] is
    [timeUtils.getTimeZoneAbbreviation(date.format('z'))], both for the date
    of the props. *)
Variable gettext : string → string.
Variable dateformat timeformat : string.
Variable format : string → string.
Variable timeZone : string.

Definition dateTimeFormat (props : Props) : string :=
  let newTimeFormat :=
    if toBeConfirmed props
    then String.append "[" (String.append
           (gettext (String.append "Time " (gettext "TBC"))) "]")
    else timeformat in
  let format :=
    if withYear props then dateformat else without_year dateformat in
  join_truthy nbsp
    [ if withDate props then Some format else None;
      if withTime props then Some newTimeFormat else None ].

Definition displayDate (props : Props) : option string :=
  let eventStartDate :=
    if isFullDay props then format dateformat
    else if noEndTime props then format (dateTimeFormat props)
    else format (dateTimeFormat props) in
  let eventEndDate :=
    if (noEndTime props || isFullDay props) && negb (multiDay props)
    then None
    else if (noEndTime props || isFullDay props) && multiDay props
    then Some (format dateformat)
    else Some (format (dateTimeFormat props)) in
  if negb (isEndEventDateTime props) then Some eventStartDate
  else eventEndDate.

(** In [tz + displayDate] a [null] is written out as the text "null". *)
Definition DateTime (props : Props) : Time :=
  let tz := String.append timeZone " " in
  mkTime (if negb (padLeft props) then Some "Datetime" else None)
         (String.append tz (default "null" (displayDate props)))
         (displayDate props).

End Component.

End DateTime.

(** ** The item of the editor *)

Module ItemInstance.
Import Store.

(** [a === b] without the special cases of numbers that are not integers:
    objects are the same when they are at the same location. *)
Definition same_value (a b : val) : bool :=
  match a, b with
  | VUndefined, VUndefined => true
  | VNull, VNull => true
  | VBool x, VBool y => Bool.eqb x y
  | VNum x, VNum y => Z.eqb x y
  | VStr x, VStr y => String.eqb x y
  | VRef x, VRef y => Nat.eqb x y
  | _, _ => false
  end.

(** [l.includes(v)] *)
Definition includes (l : list val) (v : val) : bool := existsb (same_value v) l.

(** A name that is an array index: a number below [2^32 - 1] written the
    usual way. *)
Definition array_index (key : string) : option N :=
  match index_of_key key with
  | Some i =>
      if (N.of_nat i <? 4294967295)%N then Some (N.of_nat i) else None
  | None => None
  end.

(** The order of the array indices among the names of an object. *)
Definition by_index (a b : N * string) : Prop := (a.1 ≤ b.1)%N.

#[global] Instance by_index_dec a b : Decision (by_index a b) :=
  decide ((a.1 ≤ b.1)%N).

(** [Object.keys(o)] for an object with the given properties: the array
    indices in ascending order, then the other names in the order they were
    created in. *)
Definition Object_keys (props : list (string * val)) : list string :=
  let indexed :=
    omap (λ key, (λ i, (i, key)) <$> array_index key) props.*1 in
  let named := filter (λ key, ¬ is_Some (array_index key)) props.*1 in
  (merge_sort by_index indexed).*2 ++ named.

(** [l.map((v) => cloneDeep(v))] *)
Fixpoint map_cloneDeep (l : list val) : M (list val) :=
  match l with
  | [] => ret []
  | v :: l' =>
      copy <~ AssignmentStore.cloneDeep v ;;
      copies <~ map_cloneDeep l' ;;
      ret (copy :: copies)
  end.

Record FormProps := mkFormProps {
  itemType : val;
  itemId : val;
}.

Section Instance.

(** [planningApi.editor(type).form.getProps()], and the ids of the events a
    planning is related to, which the planning utilities read off the
    planning without changing anything. *)
Variable getProps : FormProps.
Variable getRelatedEventIdsForPlanning : heap → val → string → list val.

Definition getItemType : val := itemType getProps.

Definition getItemId : val := itemId getProps.

(** The stored plannings [filter] lets through, in the order of
    [Object.keys]. *)
Definition relatedPlannings (h : heap) (plans : list (string * val))
    (eventId : val) : list val :=
  (λ planId, default VUndefined (prop_lookup planId plans)) <$>
  List.filter
    (λ planId,
       let plan := default VUndefined (prop_lookup planId plans) in
       negb (nullish plan)
       && includes (getRelatedEventIdsForPlanning h plan "primary") eventId)
    (Object_keys plans).

(** [getAssociatedPlannings], for the object [plans] the selector
    [storedPlannings] gives. [Object.keys] throws on [null] and
    [undefined]. *)
Definition getAssociatedPlannings (plans : val) : M val :=
  let eventId := getItemId in
  h <~ get_heap ;;
  match plans with
  | VRef l =>
      match h !! l with
      | Some (OObj props) =>
          copies <~ map_cloneDeep (relatedPlannings h props eventId) ;;
          result <~ alloc (OArr copies) ;;
          ret (VRef result)
      | _ => stuck
      end
  | VUndefined | VNull => throw
  | _ => stuck
  end.

End Instance.

End ItemInstance.

(** * Properties *)

(** ** History aggregator *)

Section HistoryFacts.
Import Js History.

(** What lodash [get] finds outside the groups (see [History.groupItem]). *)
Variable finds_elsewhere : gmap string CoverageHistory → string → bool.

Local Abbreviation groupItem := (groupItem finds_elsewhere).
Local Abbreviation getGroupedCoverageHistory :=
  (getGroupedCoverageHistory finds_elsewhere).

(** The coverage a history entry belongs to: its [update.coverage_id] when
    that is truthy. *)
Definition coverage_key (item : HistoryItem) : option string :=
  if truthy (get_coverage_id item) then get_coverage_id item else None.

(** The entries of a list that carry the coverage id [id], in input
    order. *)
Definition entries_of (id : string) (l : list HistoryItem) : list HistoryItem :=
  filter (λ item, coverage_key item = Some id) l.

(** The value an entry sets a string field to: a falsy value sets
    nothing. *)
Definition set_value (v : option string) : option string :=
  if truthy v then v else None.

(** The value given by the last entry of [es] that sets a field, where
    [f] tells what an entry sets it to. *)
Definition last_set {A : Type} (f : HistoryItem → option A)
    (es : list HistoryItem) : option A :=
  last (omap f es).

(** All entries held by the groups of a coverage-history object. *)
Definition all_items (m : gmap string CoverageHistory) : list HistoryItem :=
  concat (cov_items <$> (map_to_list m).*2).

(** What one entry does to the record of its coverage. *)
Definition absorb (item : HistoryItem) (r : CoverageHistory) : CoverageHistory :=
  let r := set_items (cov_items r ++ [item]) r in
  let r := match set_value (get_g2_content_type item) with
           | Some s => set_g2_content_type s r | None => r end in
  let r := match set_value (get_scheduled item) with
           | Some s => set_scheduled (moment s) r | None => r end in
  let r := match get_assigned_to item with
           | Some a => set_assigned_to (spread (cov_assigned_to r) a) r
           | None => r end in
  match set_value (get_workflow_status item) with
  | Some s => set_workflow_status s r | None => r end.

Lemma forEach_snoc {A S : Type} (f : S → A → S) l x init :
  forEach f (l ++ [x]) init = f (forEach f l init) x.
Proof. unfold forEach. by rewrite fold_left_app. Qed.

Lemma truthy_Some_ne s : truthy (Some s) = true ↔ s ≠ "".
Proof.
  unfold truthy. destruct (String.eqb_spec s ""); simpl; split; congruence.
Qed.

Lemma coverage_key_Some item id :
  coverage_key item = Some id ↔ get_coverage_id item = Some id ∧ id ≠ "".
Proof.
  unfold coverage_key. destruct (get_coverage_id item) as [s|] eqn:E.
  - destruct (truthy (Some s)) eqn:T.
    + apply truthy_Some_ne in T. split; [intros [= <-]; done | intros [? ?]; done].
    + split; [done|]. intros [[= <-] Hne]. apply truthy_Some_ne in Hne. congruence.
  - simpl. split; [done | intros [? ?]; done].
Qed.

Lemma coverage_key_None item :
  coverage_key item = None ↔ truthy (get_coverage_id item) = false.
Proof.
  unfold coverage_key. destruct (truthy (get_coverage_id item)) eqn:T.
  - split; [|done]. destruct (get_coverage_id item); [done | discriminate T].
  - done.
Qed.

Lemma alter_id_fun {A : Type} (m : gmap string A) id :
  alter (λ r, r) id m = m.
Proof.
  apply map_eq. intros k. rewrite lookup_alter.
  case_decide; [subst; by destruct (m !! k) | done].
Qed.

Lemma when_truthy_alter v f id (m : gmap string CoverageHistory) :
  when_truthy v f id m =
  alter (λ r, match set_value v with Some s => f s r | None => r end) id m.
Proof.
  unfold when_truthy, set_value. destruct v as [s|].
  - destruct (truthy (Some s)); [done | by rewrite alter_id_fun].
  - change (truthy None) with false. by rewrite alter_id_fun.
Qed.

(** What an entry does to the object under construction when the callback
    returns: nothing, or one group is rewritten. *)
Definition regroup (m : gmap string CoverageHistory) (item : HistoryItem)
  : gmap string CoverageHistory :=
  match coverage_key item with
  | Some id => <[id := absorb item (default emptyCoverageHistory (m !! id))]> m
  | None => m
  end.

(** The object built from a list when no call of the callback throws. *)
Definition regrouped (l : list HistoryItem) : gmap string CoverageHistory :=
  forEach regroup l ∅.

(** Under the coverage ids of [l] lodash [get] finds nothing but groups. *)
Definition nothing_elsewhere (l : list HistoryItem) : Prop :=
  ∀ m item id,
    item ∈ l → get_coverage_id item = Some id → finds_elsewhere m id = false.

Lemma groupItem_skip m item :
  coverage_key item = None → groupItem m item = Returns m.
Proof.
  intros H%coverage_key_None. unfold History.groupItem.
  destruct (get_coverage_id item); [by rewrite H | done].
Qed.

Lemma groupItem_insert m item id :
  coverage_key item = Some id →
  groupItem m item =
  match init_group finds_elsewhere m id with
  | Some _ => Returns (regroup m item)
  | None => Throws
  end.
Proof.
  intros K. unfold regroup. rewrite K.
  apply coverage_key_Some in K as [E Hne]. unfold History.groupItem. rewrite E.
  apply truthy_Some_ne in Hne. rewrite Hne.
  unfold init_group.
  destruct (m !! id) as [r|] eqn:Em;
    [|destruct (finds_elsewhere m id); [done|]];
    f_equal; rewrite !when_truthy_alter;
    apply map_eq; intros k; (destruct (decide (k = id)) as [->|Hk];
    [ rewrite lookup_insert_eq; unfold absorb; simpl;
      rewrite !lookup_alter, !decide_True by done;
      destruct (get_assigned_to item);
        rewrite ?lookup_alter, ?decide_True by done;
        by rewrite ?Em, ?lookup_insert_eq
    | rewrite lookup_insert_ne by done;
      rewrite !lookup_alter, !decide_False by done;
      destruct (get_assigned_to item);
        rewrite ?lookup_alter, ?decide_False by done;
        by rewrite ?lookup_insert_ne ]).
Qed.

Lemma groupItem_Returns m item m' :
  groupItem m item = Returns m' → m' = regroup m item.
Proof.
  destruct (coverage_key item) as [id|] eqn:K.
  - rewrite (groupItem_insert _ _ _ K).
    destruct (init_group _ _ _); [by intros [= <-] | done].
  - rewrite (groupItem_skip _ _ K). intros [= <-]. unfold regroup. by rewrite K.
Qed.

Lemma getGroupedCoverageHistory_snoc l x :
  getGroupedCoverageHistory (l ++ [x]) =
  match getGroupedCoverageHistory l with
  | Returns m => groupItem m x
  | Throws => Throws
  end.
Proof. unfold History.getGroupedCoverageHistory. by rewrite forEach_snoc. Qed.

(** When the helper returns, it returns the regrouped entries. *)
Lemma returned_regrouped l m :
  getGroupedCoverageHistory l = Returns m → m = regrouped l.
Proof.
  revert m. induction l as [|x l IH] using rev_ind; intros m.
  - by intros [= <-].
  - rewrite getGroupedCoverageHistory_snoc.
    destruct (getGroupedCoverageHistory l) as [m0|]; [|done].
    intros ->%groupItem_Returns. unfold regrouped.
    by rewrite forEach_snoc, (IH m0 eq_refl).
Qed.

(** It returns when lodash [get] finds nothing but groups. *)
Lemma nothing_elsewhere_returns l :
  nothing_elsewhere l → getGroupedCoverageHistory l = Returns (regrouped l).
Proof.
  induction l as [|x l IH] using rev_ind; intros Hq; [done|].
  rewrite getGroupedCoverageHistory_snoc, IH.
  2: { intros m item id Hin. apply Hq. set_solver. }
  unfold regrouped at 2. rewrite forEach_snoc.
  destruct (coverage_key x) as [id|] eqn:K.
  - rewrite (groupItem_insert _ _ _ K). unfold init_group.
    destruct (regrouped l !! id); [done|].
    apply coverage_key_Some in K as [E _].
    rewrite (Hq _ x id); [done | set_solver | done].
  - rewrite (groupItem_skip _ _ K). unfold regroup. by rewrite K.
Qed.

(** The record built from the entries of one coverage, oldest first. *)
Definition aggregate (es : list HistoryItem) : CoverageHistory :=
  fold_left (λ r item, absorb item r) es emptyCoverageHistory.

Lemma aggregate_snoc es x : aggregate (es ++ [x]) = absorb x (aggregate es).
Proof. unfold aggregate. by rewrite fold_left_app. Qed.

Lemma entries_of_snoc id l x :
  entries_of id (l ++ [x]) =
  entries_of id l ++ (if decide (coverage_key x = Some id) then [x] else []).
Proof.
  unfold entries_of. by rewrite filter_app.
Qed.

Lemma last_set_snoc {A : Type} (f : HistoryItem → option A) es x :
  last_set f (es ++ [x]) =
  match f x with Some v => Some v | None => last_set f es end.
Proof.
  unfold last_set. rewrite omap_app. simpl.
  destruct (f x); [by rewrite last_snoc | by rewrite app_nil_r].
Qed.

(** Field by field, what [absorb] leaves in the record. *)
Lemma absorb_items x r : cov_items (absorb x r) = cov_items r ++ [x].
Proof.
  unfold absorb.
  destruct (set_value (get_g2_content_type x)), (set_value (get_scheduled x)),
    (get_assigned_to x), (set_value (get_workflow_status x)); done.
Qed.

Lemma absorb_g2_content_type x r :
  cov_g2_content_type (cov_planning (absorb x r)) =
  match set_value (get_g2_content_type x) with
  | Some v => Some v
  | None => cov_g2_content_type (cov_planning r)
  end.
Proof.
  unfold absorb.
  destruct (set_value (get_g2_content_type x)), (set_value (get_scheduled x)),
    (get_assigned_to x), (set_value (get_workflow_status x)); done.
Qed.

Lemma absorb_scheduled x r :
  cov_scheduled (cov_planning (absorb x r)) =
  match set_value (get_scheduled x) with
  | Some v => Some (moment v)
  | None => cov_scheduled (cov_planning r)
  end.
Proof.
  unfold absorb.
  destruct (set_value (get_g2_content_type x)), (set_value (get_scheduled x)),
    (get_assigned_to x), (set_value (get_workflow_status x)); done.
Qed.

Lemma absorb_workflow_status x r :
  cov_workflow_status (absorb x r) =
  match set_value (get_workflow_status x) with
  | Some v => Some v
  | None => cov_workflow_status r
  end.
Proof.
  unfold absorb.
  destruct (set_value (get_g2_content_type x)), (set_value (get_scheduled x)),
    (get_assigned_to x), (set_value (get_workflow_status x)); done.
Qed.

Lemma absorb_assigned_to x r :
  cov_assigned_to (absorb x r) =
  match get_assigned_to x with
  | Some a => spread (cov_assigned_to r) a
  | None => cov_assigned_to r
  end.
Proof.
  unfold absorb.
  destruct (set_value (get_g2_content_type x)), (set_value (get_scheduled x)),
    (get_assigned_to x), (set_value (get_workflow_status x)); done.
Qed.

Lemma aggregate_items es : cov_items (aggregate es) = es.
Proof.
  induction es as [|x es IH] using rev_ind; [done|].
  by rewrite aggregate_snoc, absorb_items, IH.
Qed.

Lemma aggregate_g2_content_type es :
  cov_g2_content_type (cov_planning (aggregate es)) =
  last_set (λ item, set_value (get_g2_content_type item)) es.
Proof.
  induction es as [|x es IH] using rev_ind; [done|].
  rewrite aggregate_snoc, absorb_g2_content_type, last_set_snoc, IH. done.
Qed.

Lemma aggregate_scheduled es :
  cov_scheduled (cov_planning (aggregate es)) =
  moment <$> last_set (λ item, set_value (get_scheduled item)) es.
Proof.
  induction es as [|x es IH] using rev_ind; [done|].
  rewrite aggregate_snoc, absorb_scheduled, last_set_snoc, IH.
  by destruct (set_value (get_scheduled x)).
Qed.

Lemma aggregate_workflow_status es :
  cov_workflow_status (aggregate es) =
  last_set (λ item, set_value (get_workflow_status item)) es.
Proof.
  induction es as [|x es IH] using rev_ind; [done|].
  rewrite aggregate_snoc, absorb_workflow_status, last_set_snoc, IH. done.
Qed.

Lemma aggregate_assigned_to es k :
  cov_assigned_to (aggregate es) !! k =
  last_set (λ item, get_assigned_to item ≫= (.!! k)) es.
Proof.
  induction es as [|x es IH] using rev_ind; [done|].
  rewrite aggregate_snoc, absorb_assigned_to, last_set_snoc.
  destruct (get_assigned_to x) as [a|]; simpl; [|done].
  unfold spread. rewrite lookup_union, IH.
  by destruct (a !! k), (last_set _ es).
Qed.

(** The group stored for a coverage id is the aggregate of the entries
    that carry the id; ids no entry carries have no group. *)
Lemma lookup_regrouped l id :
  regrouped l !! id =
  match entries_of id l with
  | [] => None
  | es => Some (aggregate es)
  end.
Proof.
  unfold regrouped.
  induction l as [|x l IH] using rev_ind; [done|].
  rewrite forEach_snoc, entries_of_snoc. unfold regroup at 1.
  destruct (coverage_key x) as [id'|] eqn:K.
  - destruct (decide (id' = id)) as [->|Hne].
    + rewrite decide_True by done. rewrite lookup_insert_eq, IH.
      destruct (entries_of id l) as [|e es] eqn:E; simpl.
      * done.
      * by rewrite <- aggregate_snoc.
    + rewrite decide_False by congruence.
      rewrite lookup_insert_ne by done. by rewrite app_nil_r.
  - rewrite decide_False by done. by rewrite app_nil_r.
Qed.

Lemma lookup_grouped l m id :
  getGroupedCoverageHistory l = Returns m →
  m !! id =
  match entries_of id l with
  | [] => None
  | es => Some (aggregate es)
  end.
Proof. intros ->%returned_regrouped. apply lookup_regrouped. Qed.

Lemma grouped_aggregate l m id r :
  getGroupedCoverageHistory l = Returns m →
  m !! id = Some r → r = aggregate (entries_of id l).
Proof.
  intros H. rewrite (lookup_grouped _ _ _ H).
  destruct (entries_of id l); [done | by intros [= <-]].
Qed.

Lemma grouped_items l m id r :
  getGroupedCoverageHistory l = Returns m →
  m !! id = Some r → cov_items r = entries_of id l.
Proof. intros H ->%(grouped_aggregate _ _ _ _ H). apply aggregate_items. Qed.

Lemma getPlanningItemHistory_filter l :
  getPlanningItemHistory l = filter (λ item, coverage_key item = None) l.
Proof.
  unfold getPlanningItemHistory.
  induction l as [|x l IH] using rev_ind; [done|].
  rewrite forEach_snoc, IH, filter_app, filter_cons, filter_nil.
  destruct (truthy (get_coverage_id x)) eqn:T; simpl.
  - rewrite decide_False, app_nil_r; [done|].
    rewrite coverage_key_None. congruence.
  - rewrite decide_True; [done|]. by apply coverage_key_None.
Qed.

Lemma all_items_insert (m : gmap string CoverageHistory) id r :
  all_items (<[id := r]> m) ≡ₚ cov_items r ++ all_items (delete id m).
Proof.
  unfold all_items. rewrite <- insert_delete_eq.
  rewrite map_to_list_insert by apply lookup_delete_eq. done.
Qed.

Lemma all_items_lookup (m : gmap string CoverageHistory) id :
  all_items m ≡ₚ
  cov_items (default emptyCoverageHistory (m !! id)) ++ all_items (delete id m).
Proof.
  destruct (m !! id) as [r|] eqn:E; simpl.
  - unfold all_items. by rewrite <- (map_to_list_delete m id r E).
  - by rewrite delete_id.
Qed.

(** One step of the loop adds the entry to exactly one of the two
    results. *)
Lemma all_items_regroup m x :
  all_items (regroup m x) ≡ₚ
  all_items m ++ (if decide (coverage_key x = None) then [] else [x]).
Proof.
  unfold regroup. destruct (coverage_key x) as [id|] eqn:K.
  - rewrite decide_False by done.
    rewrite all_items_insert, absorb_items, (all_items_lookup m id).
    rewrite <- !app_assoc. apply Permutation_app_head, Permutation_app_comm.
  - rewrite decide_True by done. by rewrite app_nil_r.
Qed.

Lemma regrouped_partition l :
  filter (λ item, coverage_key item = None) l ++ all_items (regrouped l) ≡ₚ l.
Proof.
  unfold regrouped.
  induction l as [|x l IH] using rev_ind; [done|].
  rewrite forEach_snoc, all_items_regroup, filter_app, filter_cons, filter_nil.
  rewrite <- IH at 3. case_decide.
  - rewrite app_nil_r, <- !app_assoc. apply Permutation_app_head.
    apply Permutation_app_comm.
  - by rewrite app_nil_r, <- !app_assoc.
Qed.

(** C1, as the code has it. The helper returns whenever lodash [get] finds
    nothing but groups under the coverage ids of the list. In the object it
    returns, every coverage id that an entry carries has a record; in that
    record the content type, the workflow status and the scheduled date
    (wrapped by [moment]) are those of the last entry carrying the id that
    sets the field to a truthy value, while [assigned_to] is merged property
    by property: each of its properties has the value given by the last
    entry whose [assigned_to] has that property. *)
Theorem grouped_history_latest_values l :
  (nothing_elsewhere l → ∃ m, getGroupedCoverageHistory l = Returns m)
  ∧ ∀ m id,
      getGroupedCoverageHistory l = Returns m →
      entries_of id l ≠ [] →
      ∃ r, m !! id = Some r
        ∧ cov_g2_content_type (cov_planning r) =
            last_set (λ item, set_value (get_g2_content_type item))
                     (entries_of id l)
        ∧ cov_scheduled (cov_planning r) =
            moment <$> last_set (λ item, set_value (get_scheduled item))
                                (entries_of id l)
        ∧ cov_workflow_status r =
            last_set (λ item, set_value (get_workflow_status item))
                     (entries_of id l)
        ∧ ∀ k, cov_assigned_to r !! k =
            last_set (λ item, get_assigned_to item ≫= (.!! k))
                     (entries_of id l).
Proof.
  split.
  - intros Hq. eexists. by apply nothing_elsewhere_returns.
  - intros m id Hm Hes. exists (aggregate (entries_of id l)). split_and!.
    + rewrite (lookup_grouped _ _ _ Hm). by destruct (entries_of id l).
    + apply aggregate_g2_content_type.
    + apply aggregate_scheduled.
    + apply aggregate_workflow_status.
    + apply aggregate_assigned_to.
Qed.

(** C2: the planning-item history is the sub-list of the entries without a
    (truthy) coverage id, in input order. Whenever the grouping helper
    returns, the planning-item history together with the entries of all
    groups is a rearrangement of the input: nothing is dropped and nothing
    is duplicated; and the helper returns whenever lodash [get] finds
    nothing but groups under the coverage ids of the list. It does not
    return for every list: an entry with a new coverage id under which
    lodash [get] finds something makes it throw, and no groups are there to
    make up the input. *)
Theorem history_partition l :
  getPlanningItemHistory l = filter (λ item, coverage_key item = None) l
  ∧ (∀ m, getGroupedCoverageHistory l = Returns m →
          getPlanningItemHistory l ++ all_items m ≡ₚ l)
  ∧ (nothing_elsewhere l → ∃ m, getGroupedCoverageHistory l = Returns m)
  ∧ (∀ m item id,
       getGroupedCoverageHistory l = Returns m →
       coverage_key item = Some id →
       m !! id = None →
       finds_elsewhere m id = true →
       getGroupedCoverageHistory (l ++ [item]) = Throws).
Proof.
  split_and!.
  - apply getPlanningItemHistory_filter.
  - intros m ->%returned_regrouped. rewrite getPlanningItemHistory_filter.
    apply regrouped_partition.
  - intros Hq. eexists. by apply nothing_elsewhere_returns.
  - intros m item id Hm K Hid Hf.
    rewrite getGroupedCoverageHistory_snoc, Hm, (groupItem_insert _ _ _ K).
    unfold init_group. by rewrite Hid, Hf.
Qed.

(** C9: an entry whose [update.coverage_id] is falsy, the empty string
    included, is part of the planning-item history and of no group. *)
Theorem falsy_coverage_id_is_planning_history l item :
  item ∈ l →
  truthy (get_coverage_id item) = false →
  item ∈ getPlanningItemHistory l
  ∧ ∀ m id r, getGroupedCoverageHistory l = Returns m →
              m !! id = Some r → item ∉ cov_items r.
Proof.
  intros Hin HF%coverage_key_None. split.
  - rewrite getPlanningItemHistory_filter. by apply list_elem_of_filter.
  - intros m id r Hm ->%(grouped_items _ _ _ _ Hm) [HK _]%list_elem_of_filter.
    congruence.
Qed.

End HistoryFacts.

(** *** The history helpers on sample entries *)

Section HistorySamples.
Import Js History.

(** lodash [get] on objects whose only properties are groups with plain
    names, but for the name [constructor]. *)
Definition sample_finds (m : gmap string CoverageHistory) (id : string) : bool :=
  bool_decide (id = "constructor").

Local Abbreviation getGroupedCoverageHistory :=
  (getGroupedCoverageHistory sample_finds).

(** Sample entries: two updates of coverage [cov1], the second of which
    reassigns the desk only, one planning-level entry and one entry whose
    coverage id is the empty string. *)
Definition sample_entry (id : option string) (g2 sched : option string)
    (assigned : option (gmap string jsval)) (status : option string)
  : HistoryItem :=
  mkHistoryItem "update"
    (Some (mkUpdate id (Some (mkPlanningUpdate g2 sched)) assigned status None))
    (Some "user1") "2019-03-01T10:00:00+0000".

Definition entry_a : HistoryItem :=
  sample_entry (Some "cov1") (Some "text") (Some "2019-03-02T09:00:00+0000")
    (Some {[ "desk" := JStr "desk1"; "user" := JStr "user7" ]}) (Some "draft").
Definition entry_b : HistoryItem :=
  sample_entry (Some "cov1") None None
    (Some {[ "desk" := JStr "desk2" ]}) (Some "active").
Definition entry_plan : HistoryItem :=
  mkHistoryItem "create" None (Some "user1") "2019-03-01T09:00:00+0000".
Definition entry_blank : HistoryItem :=
  sample_entry (Some "") None None None (Some "draft").

(** An entry whose coverage id is a name that every object inherits. *)
Definition entry_inherited : HistoryItem :=
  mkHistoryItem "update"
    (Some (mkUpdate (Some "constructor") None None None None))
    (Some "user1") "2019-03-01T11:00:00+0000".

(** An update of [cov1] whose workflow status is the empty string. *)
Definition entry_unset : HistoryItem :=
  sample_entry (Some "cov1") None None None (Some "").

Definition sample_history : list HistoryItem :=
  [entry_plan; entry_a; entry_blank; entry_b].

Lemma sample_nothing_elsewhere : nothing_elsewhere sample_finds sample_history.
Proof.
  intros m item id Hin Hid. unfold sample_finds.
  apply bool_decide_eq_false. intros ->.
  unfold sample_history in Hin.
  repeat (apply elem_of_cons in Hin as [->|Hin]; [discriminate Hid|]).
  by apply elem_of_nil in Hin.
Qed.

Example sample_planning_history :
  getPlanningItemHistory sample_history = [entry_plan; entry_blank].
Proof. reflexivity. Qed.

Example sample_group_items :
  match getGroupedCoverageHistory sample_history with
  | Returns m => cov_items <$> m !! "cov1" = Some [entry_a; entry_b]
  | Throws => False
  end.
Proof. vm_compute. reflexivity. Qed.

Example sample_group_status :
  match getGroupedCoverageHistory sample_history with
  | Returns m => m !! "cov1" ≫= cov_workflow_status = Some "active"
  | Throws => False
  end.
Proof. vm_compute. reflexivity. Qed.

Lemma grouped_history_latest_values_witness :
  ∃ m r, getGroupedCoverageHistory sample_history = Returns m
    ∧ m !! "cov1" = Some r
    ∧ cov_workflow_status r = Some "active"
    ∧ cov_assigned_to r !! "user" = Some (JStr "user7").
Proof.
  destruct (grouped_history_latest_values sample_finds sample_history)
    as [Hret Hrec].
  destruct (Hret sample_nothing_elsewhere) as [m Hm]. exists m.
  destruct (Hrec m "cov1" Hm) as (r & Hr & _ & _ & Hs & Ha);
    [by vm_compute|].
  exists r. split; [done|]. split; [done|].
  split; [rewrite Hs | rewrite Ha]; vm_compute; reflexivity.
Defined.

(** A store with one update of coverage [cov1] that sets the scheduled
    date, and the list of it at location 3. *)
Definition sample_scheduled_store : Store.heap :=
  [ Store.OObj [("scheduled", Store.VStr "2019-03-02T09:00:00+0000")];
    Store.OObj [("coverage_id", Store.VStr "cov1"); ("planning", Store.VRef 0)];
    Store.OObj [("operation", Store.VStr "update"); ("update", Store.VRef 1)];
    Store.OArr [Store.VRef 2] ].

(** C1 as stated fails in three ways. For [assigned_to]: after [entry_a]
    and [entry_b] the record of [cov1] still has the user given by
    [entry_a], so it is not the [assigned_to] of the last entry that sets
    one. For a field set to a falsy value: after [entry_a] and
    [entry_unset] the workflow status is still the one of [entry_a], not the
    empty string that [entry_unset] has. For [planning.scheduled]: the
    record holds a new [moment] object, which is not the string the entry
    has. *)
Lemma record_is_not_the_last_values :
  (∃ m r a,
     getGroupedCoverageHistory sample_history = Returns m
     ∧ m !! "cov1" = Some r
     ∧ last_set get_assigned_to (entries_of "cov1" sample_history) = Some a
     ∧ cov_assigned_to r ≠ a)
  ∧ (∃ m r,
       getGroupedCoverageHistory [entry_a; entry_unset] = Returns m
       ∧ m !! "cov1" = Some r
       ∧ last_set get_workflow_status
                  (entries_of "cov1" [entry_a; entry_unset]) = Some ""
       ∧ cov_workflow_status r = Some "draft")
  ∧ (∃ h covHistory,
       Store.getGroupedCoverageHistory (λ _ _, "") (λ _, []) (λ _ _ _, false)
         (Store.VRef 3) sample_scheduled_store = (h, Store.Done covHistory)
       ∧ Store.get (λ _, []) h (Store.VRef 2) ["update"; "planning"; "scheduled"]
         = Store.VStr "2019-03-02T09:00:00+0000"
       ∧ Store.get (λ _, []) h covHistory ["cov1"; "planning"; "scheduled"]
         ≠ Store.VStr "2019-03-02T09:00:00+0000").
Proof.
  split_and!.
  - eexists _, (aggregate [entry_a; entry_b]), {[ "desk" := JStr "desk2" ]}.
    split; [vm_compute; reflexivity|].
    split; [vm_compute; reflexivity|]. split; [vm_compute; reflexivity|].
    intros H. apply (f_equal (.!! "user")) in H. vm_compute in H. discriminate H.
  - eexists _, (aggregate [entry_a; entry_unset]).
    split; [vm_compute; reflexivity|].
    split; [vm_compute; reflexivity|]. split; vm_compute; reflexivity.
  - eexists _, _. split; [vm_compute; reflexivity|].
    split; [vm_compute; reflexivity|]. vm_compute. discriminate.
Qed.

Lemma history_partition_witness :
  (∃ m, getGroupedCoverageHistory sample_history = Returns m
        ∧ getPlanningItemHistory sample_history ++ all_items m
          ≡ₚ sample_history)
  ∧ getGroupedCoverageHistory [entry_inherited] = Throws.
Proof.
  destruct (history_partition sample_finds sample_history)
    as (_ & Hperm & Hret & _).
  destruct (history_partition sample_finds []) as (_ & _ & _ & Hthrow).
  split.
  - destruct (Hret sample_nothing_elsewhere) as [m Hm]. exists m.
    split; [done | by apply Hperm].
  - by apply (Hthrow ∅ entry_inherited "constructor").
Defined.

Lemma falsy_coverage_id_is_planning_history_witness :
  get_coverage_id entry_blank = Some ""
  ∧ entry_blank ∈ getPlanningItemHistory sample_history
  ∧ ∀ m id r, getGroupedCoverageHistory sample_history = Returns m →
              m !! id = Some r → entry_blank ∉ cov_items r.
Proof.
  split; [reflexivity|].
  apply falsy_coverage_id_is_planning_history.
  - unfold sample_history. set_solver.
  - reflexivity.
Defined.

End HistorySamples.

(** ** Planning edit panel *)

Section PanelFacts.
Import EditPlanningPanel.

Context {Item User : Type}.
Variable isItemSpiked : option Item → bool.
Variable getLockedUser : option Item → list User → option User.
Variable canSavePlanning canPublishPlanning canUnpublishPlanning :
  option Item → option Item → bool.
Variable canEditPlanning :
  option Item → option Item → bool → bool → option User → bool.

Lemma handleSave_calls (form : Submission Item) st :
  (handleSave Item form st).2 =
  if validates Item form then [onSubmit Item st (values Item form)] else [].
Proof. done. Qed.

Lemma handleSave_state (form : Submission Item) st :
  saveMethod (handleSave Item form st).1 =
  if fulfilled Item form st then SAVE else saveMethod st.
Proof. unfold handleSave. simpl. by destruct (fulfilled Item form st). Qed.

(** C3: with a pristine form that is not read-only, pressing Publish makes
    the submit handler dispatch [publish] and nothing else, in particular
    never [saveAndPublish]; once the submission has gone through, the stored
    save method is [SAVE] again. *)
Theorem publish_only_when_pristine
    (props : Props Item User) (form : Submission Item) (st : State) :
  pristine _ _ props = true →
  readOnly _ _ props = false →
  let result := handleSaveAndPublish Item User props form st in
  (∀ c, c ∈ result.2 → c = publish Item (values Item form))
  ∧ (validates Item form = true → result.2 = [publish Item (values Item form)])
  ∧ (validates Item form = true →
     succeeds Item form (publish Item (values Item form)) = true →
     saveMethod result.1 = SAVE).
Proof.
  intros Hp _. unfold handleSaveAndPublish. rewrite Hp. cbn [orb].
  cbv zeta. rewrite handleSave_calls, handleSave_state.
  unfold fulfilled, onSubmit. cbn [saveMethod set_saveMethod].
  split_and!.
  - destruct (validates Item form); intros c Hc.
    + by apply list_elem_of_singleton in Hc.
    + by apply elem_of_nil in Hc.
  - by intros ->.
  - intros Hv Hs. by rewrite Hv, Hs.
Qed.

(** C4: the form is read-only whenever the session does not hold the lock or
    the planning or its event is spiked, whatever the caller asked for;
    otherwise it is read-only exactly when the caller asked for it. *)
Theorem read_only_is_forced (props : Props Item User) (st : State) :
  (lockedInThisSession _ _ props = false
   ∨ isItemSpiked (planning _ _ props) = true
   ∨ isItemSpiked (event _ _ props) = true →
   forceReadOnly Item User isItemSpiked props = true)
  ∧ (lockedInThisSession _ _ props = true →
     isItemSpiked (planning _ _ props) = false →
     isItemSpiked (event _ _ props) = false →
     forceReadOnly Item User isItemSpiked props = readOnly _ _ props)
  ∧ (previewHistory st = false →
     planningForm _
       (render Item User isItemSpiked getLockedUser canSavePlanning
               canPublishPlanning canUnpublishPlanning canEditPlanning props st)
     = Some (forceReadOnly Item User isItemSpiked props)).
Proof.
  unfold render, forceReadOnly. cbn [planningForm]. split_and!.
  - intros [-> | [-> | ->]]; cbn [negb orb]; [done| |].
    + by rewrite orb_true_r.
    + by destruct (negb _).
  - by intros -> -> ->.
  - by intros ->.
Qed.

End PanelFacts.

(** A planning whose only content is whether it is spiked, for examples. *)
Definition sample_panel_props (pristine readOnly locked : bool) (spiked : bool)
  : EditPlanningPanel.Props bool unit :=
  EditPlanningPanel.mkProps bool unit (Some spiked) None pristine false readOnly
                            locked true false [].

Definition sample_spiked (item : option bool) : bool := default false item.

Definition sample_submission : EditPlanningPanel.Submission bool :=
  EditPlanningPanel.mkSubmission bool false true (λ _, true).

Lemma publish_only_when_pristine_witness :
  let result :=
    EditPlanningPanel.handleSaveAndPublish bool unit
      (sample_panel_props true false true false) sample_submission
      EditPlanningPanel.initialState in
  result.2 = [EditPlanningPanel.publish bool false]
  ∧ EditPlanningPanel.saveMethod result.1 = EditPlanningPanel.SAVE.
Proof.
  destruct (publish_only_when_pristine
              (sample_panel_props true false true false) sample_submission
              EditPlanningPanel.initialState eq_refl eq_refl) as (_ & H1 & H2).
  split; [exact (H1 eq_refl) | exact (H2 eq_refl eq_refl)].
Defined.

Lemma read_only_is_forced_witness :
  EditPlanningPanel.forceReadOnly bool unit sample_spiked
    (sample_panel_props false false true true) = true
  ∧ EditPlanningPanel.forceReadOnly bool unit sample_spiked
    (sample_panel_props false true true false) = true
  ∧ EditPlanningPanel.forceReadOnly bool unit sample_spiked
    (sample_panel_props false false true false) = false.
Proof.
  split_and!.
  - apply (read_only_is_forced sample_spiked (λ _ _, None) (λ _ _, true)
             (λ _ _, true) (λ _ _, true) (λ _ _ _ _ _, true)
             (sample_panel_props false false true true)
             EditPlanningPanel.initialState).
    right. left. reflexivity.
  - apply (read_only_is_forced sample_spiked (λ _ _, None) (λ _ _, true)
             (λ _ _, true) (λ _ _, true) (λ _ _ _ _ _, true)
             (sample_panel_props false true true false)
             EditPlanningPanel.initialState); reflexivity.
  - apply (read_only_is_forced sample_spiked (λ _ _, None) (λ _ _, true)
             (λ _ _, true) (λ _ _, true) (λ _ _ _ _ _, true)
             (sample_panel_props false false true false)
             EditPlanningPanel.initialState); reflexivity.
Defined.

(** With unsaved changes the same button saves and publishes. *)
Example publish_with_changes :
  (EditPlanningPanel.handleSaveAndPublish bool unit
     (sample_panel_props false false true false) sample_submission
     EditPlanningPanel.initialState).2
  = [EditPlanningPanel.saveAndPublish bool false].
Proof. reflexivity. Qed.

(** ** Array-field editor *)

Section InputArrayFacts.
Import InputArray.

Context {A Arg : Type}.

Lemma filter_indexed_delete (index k : nat) (l : list A) :
  filter_indexed A (λ _ i, negb (Nat.eqb i index)) k l =
  if decide (k ≤ index) then delete (index - k) l else l.
Proof.
  revert k. induction l as [|x l IH]; intros k; simpl.
  - by case_decide.
  - rewrite IH. destruct (Nat.eqb_spec k index) as [->|Hne]; simpl.
    + rewrite decide_False by lia. rewrite decide_True by lia.
      by rewrite Nat.sub_diag.
    + case_decide.
      * rewrite !decide_True by lia.
        replace (index - k) with (S (index - S k)) by lia. done.
      * rewrite decide_False by lia. done.
Qed.

Lemma currentValue_rerender (props : Props A Arg) f v :
  currentValue _ _ (rerender _ _ props (onChange f v)) = v.
Proof. done. Qed.

Lemma field_rerender (props : Props A Arg) c :
  field _ _ (rerender _ _ props c) = field _ _ props.
Proof. by destruct c. Qed.

(** What the [then] callback of [remove] does once the user has agreed. *)
Lemma remove_accepted (index : nat) (props : Props A Arg) :
  (remove A Arg index).2 true props =
  [onChange (field _ _ props) (delete index (currentValue _ _ props));
   notify_success "The coverage has been removed"].
Proof.
  simpl. rewrite filter_indexed_delete, decide_True by lia.
  by rewrite Nat.sub_0_r.
Qed.

(** C6: [remove] first asks for confirmation and changes nothing by itself;
    a declined confirmation leads to no call at all, so neither to a change of
    the list nor to a notification; after [onAdd], removing the last index
    with the confirmation accepted reports the list as it was before the
    addition, hence of the prior length, followed by the success
    notification. *)
Theorem remove_needs_confirmation (props : Props A Arg) (index : nat)
    (args : list Arg) :
  (remove A Arg index).1 = [confirm "Remove Coverage"]
  ∧ (∀ props', (remove A Arg index).2 false props' = [])
  ∧ (let added := fold_left (rerender A Arg) (onAdd _ _ props args) props in
     let lastIndex := length (currentValue _ _ added) - 1 in
     (remove A Arg lastIndex).2 true added =
       [onChange (field _ _ props) (currentValue _ _ props);
        notify_success "The coverage has been removed"]
     ∧ length (currentValue _ _
                 (fold_left (rerender A Arg)
                            ((remove A Arg lastIndex).2 true added) added))
       = length (currentValue _ _ props)).
Proof.
  split; [done|]. split; [done|].
  cbv zeta. unfold onAdd. cbn [fold_left].
  set (new := match defaultElement _ _ props with
              | Factory f => f args | Element a => a end).
  rewrite !remove_accepted. cbn [fold_left].
  rewrite !currentValue_rerender, field_rerender.
  rewrite length_app. cbn [length].
  replace (length (currentValue _ _ props) + 1 - 1)
    with (length (currentValue _ _ props)) by lia.
  rewrite delete_middle, app_nil_r. done.
Qed.

End InputArrayFacts.

Example remove_middle_element :
  (InputArray.remove nat unit 1).2 true
    (InputArray.mkProps nat unit "coverages" (Some [10; 20; 30])
                        (InputArray.Element 0) 0 false 3 false)
  = [InputArray.onChange "coverages" [10; 30];
     InputArray.notify_success "The coverage has been removed"].
Proof. reflexivity. Qed.

(** ** JavaScript data *)

Section JsFacts.
Import Js.

Lemma jsval_eqb_eq (a b : jsval) : jsval_eqb a b = true ↔ a = b.
Proof.
  revert b.
  induction a as [| | x | x | x | xs IH | xs IH] using jsval_ind;
    intros [| | y | y | y | ys | ys]; simpl;
    try (split; [discriminate | congruence]); try done.
  - rewrite Bool.eqb_true_iff. split; congruence.
  - rewrite Z.eqb_eq. split; congruence.
  - rewrite String.eqb_eq. split; congruence.
  - revert ys. induction IH as [|x xs Hx _ IHxs]; intros [|y ys];
      try (split; [discriminate | congruence]); [done|].
    rewrite andb_true_iff, Hx, IHxs.
    split; [intros [-> [= ->]]; done | intros [= -> ->]; done].
  - revert ys. induction IH as [|[k x] xs Hx _ IHxs]; intros [|[l y] ys];
      try (split; [discriminate | congruence]); [done|].
    simpl in Hx. rewrite !andb_true_iff, String.eqb_eq, Hx, IHxs.
    split; [intros [[-> ->] [= ->]]; done | intros [= -> -> ->]; done].
Qed.

#[export] Instance jsval_eq_dec : EqDecision jsval.
Proof.
  intros a b. destruct (jsval_eqb a b) eqn:E.
  - left. by apply jsval_eqb_eq.
  - right. intros H%jsval_eqb_eq. congruence.
Defined.


Lemma JSON_stringify_is_Some (v : jsval) :
  v ≠ JUndefined → is_Some (JSON_stringify v).
Proof. destruct v; simpl; eauto. done. Qed.

End JsFacts.

(** ** Related-articles search modal *)

Section ModalFacts.
Import Js EventsRelatedArticlesModal.

Variable searchProviderName : option string.
Variable languageVocabulary : list (string * string).
Variable projections : string.
Variable superdeskToElasticQuery : ISuperdeskQuery → list (string * jsval).
Variable cleanArticlesFields : list article → list article.
Variable toLowerCase : string → string.

Local Abbreviation handle :=
  (handle searchProviderName languageVocabulary cleanArticlesFields).
Local Abbreviation run :=
  (run searchProviderName languageVocabulary cleanArticlesFields).
Local Abbreviation getItems :=
  (getItems projections superdeskToElasticQuery toLowerCase).





(** The update hook and the handlers other than the answer of the provider
    lookup leave [repo] alone. *)
Lemma repo_componentDidUpdate prev st :
  repo (componentDidUpdate prev st) = repo st.
Proof. unfold componentDidUpdate. by destruct (_ || _). Qed.

Lemma repo_setState update st :
  repo (setState update st) = repo (update st).
Proof. apply repo_componentDidUpdate. Qed.

Lemma repo_handle props st ev :
  (∀ items, ev ≠ ProvidersLoaded items) →
  repo (handle props st ev).1 = repo st.
Proof.
  intros H. destruct ev; simpl; try done; try (by rewrite repo_setState).
  - exfalso. by apply (H items).
  - unfold removeArticle. by rewrite repo_setState.
  - unfold addArticle. by rewrite repo_setState.
  - by destruct (apply_disabled props st).
Qed.

Lemma run_snoc props evs ev st :
  run props (evs ++ [ev]) st = (handle props (run props evs st) ev).1.
Proof. unfold EventsRelatedArticlesModal.run. by rewrite fold_left_app. Qed.

(** Whether a provider of the configured name is in the answer. *)
Definition provider_found (items : list provider) : bool :=
  match searchProviderName with
  | Some name =>
      bool_decide (is_Some (find (λ p, String.eqb (search_provider p) name) items))
  | None => false
  end.

Lemma repo_unresolved props st items :
  provider_found items = false →
  nullish (repo st) = true →
  nullish (repo (handle props st (ProvidersLoaded items)).1) = true.
Proof.
  unfold provider_found, EventsRelatedArticlesModal.handle, componentDidMount.
  destruct searchProviderName as [name|]; [|done].
  intros H _. cbn [fst]. rewrite repo_setState. cbn [repo set_repo_languages].
  destruct (find _ items); [|done].
  apply bool_decide_eq_false in H. destruct H. eauto.
Qed.

Lemma nullish_repo_run props evs st :
  (∀ items, ProvidersLoaded items ∈ evs → provider_found items = false) →
  nullish (repo st) = true →
  nullish (repo (run props evs st)) = true.
Proof.
  induction evs as [|ev evs IH] using rev_ind; intros Hevs Hst; [done|].
  rewrite run_snoc.
  assert (Hrun : nullish (repo (run props evs st)) = true).
  { apply IH; [|done]. intros items Hin. apply Hevs. set_solver. }
  assert (Hev : (∃ items, ev = ProvidersLoaded items)
                ∨ ∀ items, ev ≠ ProvidersLoaded items)
    by (destruct ev; eauto).
  destruct Hev as [[items ->]|Hne].
  - apply repo_unresolved; [|done]. apply Hevs. set_solver.
  - by rewrite repo_handle.
Qed.

(** C8: when no provider of the configured name is found, or no name is
    configured, the provider id stays [null]/[undefined] whatever the user
    does, and every page the pagination asks for is the empty page with item
    count 0, answered on the spot without a request. *)
Theorem unresolved_provider_gives_empty_pages props evs :
  (∀ items, ProvidersLoaded items ∈ evs → provider_found items = false) →
  let st := run props evs (constructor props) in
  nullish (repo st) = true
  ∧ ∀ pageNo pageSize, getItems st pageNo pageSize = Resolved [] 0.
Proof.
  intros Hevs st.
  assert (H : nullish (repo st) = true) by by apply nullish_repo_run.
  split; [done|]. intros pageNo pageSize.
  unfold EventsRelatedArticlesModal.getItems. by rewrite H.
Qed.



End ModalFacts.

(** A session with one provider: the article selected at the start has a
    [headline] property holding [undefined]; the user removes the article and
    adds it again from the search results. *)
Definition sample_article : EventsRelatedArticlesModal.article :=
  [("guid", Js.JStr "urn:a"); ("headline", Js.JUndefined);
   ("search_provider", Js.JStr "provider1")].

Definition sample_modal_props : EventsRelatedArticlesModal.Props :=
  EventsRelatedArticlesModal.mkProps (Some [sample_article]).

Definition sample_providers : list EventsRelatedArticlesModal.provider :=
  [EventsRelatedArticlesModal.mkProvider "other" (Js.JStr "provider0");
   EventsRelatedArticlesModal.mkProvider "archive" (Js.JStr "provider1")].

Definition sample_session : list EventsRelatedArticlesModal.event :=
  [EventsRelatedArticlesModal.ProvidersLoaded sample_providers;
   EventsRelatedArticlesModal.ArticleRemoved "urn:a";
   EventsRelatedArticlesModal.ArticleAdded [("guid", Js.JStr "urn:a")]].

Definition sample_run (name : option string)
    (evs : list EventsRelatedArticlesModal.event)
  : EventsRelatedArticlesModal.State :=
  EventsRelatedArticlesModal.run name [("English", "en")] (λ l, l)
    sample_modal_props evs
    (EventsRelatedArticlesModal.constructor sample_modal_props).





Lemma unresolved_provider_gives_empty_pages_witness :
  EventsRelatedArticlesModal.getItems "[]" (λ _, []) (λ q, q)
    (sample_run (Some "missing") sample_session) 1 20
  = EventsRelatedArticlesModal.Resolved [] 0.
Proof.
  apply (unresolved_provider_gives_empty_pages (Some "missing")
           [("English", "en")] "[]" (λ _, []) (λ l, l) (λ q, q)
           sample_modal_props sample_session).
  intros items Hin. unfold sample_session in Hin.
  apply elem_of_cons in Hin as [[= ->]|Hin]; [reflexivity|].
  apply elem_of_cons in Hin as [Hin|Hin]; [discriminate Hin|].
  apply list_elem_of_singleton in Hin. discriminate Hin.
Defined.

(** With the provider found, the same page is asked of the proxy. *)
Example resolved_provider_requests_page :
  ∃ request,
    EventsRelatedArticlesModal.getItems "[]" (λ _, []) (λ q, q)
      (sample_run (Some "archive") sample_session) 1 20
    = EventsRelatedArticlesModal.Requested request.
Proof. eexists. reflexivity. Qed.

(** ** The history helpers over an object store *)

Section StoreFacts.
Import Store.

Variable toString : heap → val → string.
Variable moment_fields : val → list (string * val).
Variable finds_elsewhere : heap → loc → string → bool.

(** The store a helper is called in. Everything in it, the list of entries
    and the entries themselves included, must still be there, unchanged,
    whatever the helper does: the store may only grow at its end. *)
Variable h0 : heap.

(** What is known when a computation ends at a point the model has no rule
    for: [False] where that is shown not to happen. *)
Variable when_stuck : Prop.

(** [safe P m Q]: started in a store that extends [h0] and satisfies [P],
    the computation [m] ends in a store that extends [h0]; when it returns
    [a] the store satisfies [Q a], and when it gets stuck [when_stuck]
    holds. *)
Definition safe {A : Type} (P : heap → Prop) (m : M A)
    (Q : A → heap → Prop) : Prop :=
  ∀ h, h0 `prefix_of` h → P h →
    h0 `prefix_of` (m h).1
    ∧ match (m h).2 with
      | Done a => Q a (m h).1
      | Throw => True
      | Stuck => when_stuck
      end.

Lemma safe_ret {A : Type} (P : heap → Prop) (a : A) (Q : A → heap → Prop) :
  (∀ h, P h → Q a h) → safe P (ret a) Q.
Proof. intros H h Hpre HP. split; [done|]. by apply H. Qed.

Lemma safe_throw {A : Type} (P : heap → Prop) (Q : A → heap → Prop) :
  safe P throw Q.
Proof. intros h Hpre HP. done. Qed.

Lemma safe_stuck {A : Type} (P : heap → Prop) (Q : A → heap → Prop) :
  when_stuck → safe P stuck Q.
Proof. intros H h Hpre HP. done. Qed.


Lemma safe_assume {A : Type} (P : heap → Prop) (fact : Prop) (m : M A)
    (Q : A → heap → Prop) :
  (fact → safe P m Q) → safe (λ h, P h ∧ fact) m Q.
Proof. intros H h Hpre [HP Hf]. by apply H. Qed.

Lemma safe_bind {A B : Type} (P : heap → Prop) (m : M A)
    (Q : A → heap → Prop) (k : A → M B) (R : B → heap → Prop) :
  safe P m Q → (∀ a, safe (Q a) (k a) R) → safe P (bind m k) R.
Proof.
  intros Hm Hk h Hpre HP. destruct (Hm h Hpre HP) as [Hpre' HQ].
  unfold bind. destruct (m h) as [h' [a| |]]; simpl in *; [|done..].
  by apply Hk.
Qed.

Lemma safe_get_heap (P : heap → Prop) (Q : heap → heap → Prop) :
  (∀ h, P h → Q h h) → safe P get_heap Q.
Proof. intros H h Hpre HP. split; [done|]. by apply H. Qed.

Lemma safe_alloc (P : heap → Prop) (o : object) (Q : loc → heap → Prop) :
  (∀ h, h0 `prefix_of` h → P h → Q (length h) (h ++ [o])) →
  safe P (alloc o) Q.
Proof.
  intros H h Hpre HP. split; [|by apply H].
  simpl. by apply prefix_app_r.
Qed.

Lemma prefix_insert_ge (h : heap) (l : loc) (o : object) :
  h0 `prefix_of` h → length h0 ≤ l → h0 `prefix_of` <[l := o]> h.
Proof.
  intros [ext ->] Hl. rewrite insert_app_r_alt by done. by eexists.
Qed.

Lemma safe_store (P : heap → Prop) (l : loc) (o : object)
    (Q : unit → heap → Prop) :
  (∀ h, P h → length h0 ≤ l ∧ Q tt (<[l := o]> h)) →
  safe P (store l o) Q.
Proof.
  intros H h Hpre HP. destruct (H h HP) as [Hl HQ].
  split; [|done]. simpl. by apply prefix_insert_ge.
Qed.

Lemma safe_weaken {A : Type} (P P' : heap → Prop) (m : M A)
    (Q Q' : A → heap → Prop) :
  safe P m Q → (∀ h, P' h → P h) → (∀ a h, Q a h → Q' a h) → safe P' m Q'.
Proof.
  intros Hm HP HQ h Hpre HP'. destruct (Hm h Hpre (HP h HP')) as [? Hr].
  split; [done|]. destruct ((m h).2); [by apply HQ | done..].
Qed.

(** A precondition that cannot hold. *)
Lemma safe_absurd {A : Type} (P : heap → Prop) (m : M A)
    (Q : A → heap → Prop) :
  (∀ h, ¬ P h) → safe P m Q.
Proof. intros H h _ HP. by destruct (H h). Qed.

(** Looking at the store before going on. *)
Lemma safe_inspect {A : Type} (P : heap → Prop) (k : heap → M A)
    (Q : A → heap → Prop) :
  (∀ h, P h → safe (λ h', h' = h) (k h) Q) →
  safe P (bind get_heap k) Q.
Proof. intros H h Hpre HP. by apply (H h HP h Hpre). Qed.

Lemma safe_inspect_grown {A : Type} (P : heap → Prop) (k : heap → M A)
    (Q : A → heap → Prop) :
  (∀ h, length h0 ≤ length h → P h → safe (λ h', h' = h) (k h) Q) →
  safe P (bind get_heap k) Q.
Proof.
  intros H h Hpre HP. apply (H h); [by apply prefix_length|done..].
Qed.

(** Going on from a store that is known. *)
Lemma safe_at {A : Type} (P : heap → Prop) (m : M A) (Q : A → heap → Prop) h :
  P h → safe P m Q → safe (λ h', h' = h) m Q.
Proof. intros HP Hm. eapply safe_weaken; [apply Hm | by intros ? -> | done]. Qed.

Lemma safe_forEach_from (P : heap → Prop) (f : val → M unit) n i l :
  (∀ item, safe P (f item) (λ _, P)) →
  safe P (forEach_from n i l f) (λ _, P).
Proof.
  intros Hf. revert i. induction n as [|n IH]; intros i; simpl.
  - by apply safe_ret.
  - apply safe_inspect. intros h HP.
    apply safe_bind with (Q := λ _, P); [|intros _; apply IH].
    apply (safe_at P); [done|].
    destruct (h !! l) as [[| elems |]|]; try by apply safe_ret.
    destruct (elems !! i); [apply Hf | by apply safe_ret].
Qed.

Lemma safe_forEach (P : heap → Prop) (f : val → M unit) arr :
  (∀ item, safe P (f item) (λ _, P)) →
  safe P (forEach arr f) (λ _, P).
Proof.
  intros Hf. apply safe_inspect. intros h HP. apply (safe_at P); [done|].
  destruct arr as [| | | | |l]; try apply safe_throw.
  destruct (h !! l) as [[| elems |]|]; try apply safe_throw.
  by apply safe_forEach_from.
Qed.

Lemma safe_or_empty_array (P : heap → Prop) v :
  (∀ h o, P h → P (h ++ [o])) →
  safe P (or_empty_array v) (λ _, P).
Proof.
  intros HP. destruct v; try by apply safe_ret.
  eapply safe_bind; [apply safe_alloc with (Q := λ _, P)|].
  - intros h _ ?. by apply HP.
  - intros l. by apply safe_ret.
Qed.

(** *** [getPlanningItemHistory] *)

(** The array under construction is one the helper allocated. *)
Definition own_array (l : loc) (h : heap) : Prop :=
  length h0 ≤ l ∧ ∃ elems, h !! l = Some (OArr elems).

Lemma safe_push l item :
  safe (own_array l) (push l item) (λ _, own_array l).
Proof.
  unfold push. apply safe_inspect. intros h [Hl [elems He]]. rewrite He.
  apply safe_store. intros h' Heq. subst h'. split; [done|]. split; [done|].
  exists (elems ++ [item]). apply list_lookup_insert_eq.
  by apply lookup_lt_Some in He.
Qed.

Lemma safe_getPlanningItemHistory historyItems :
  safe (λ _, True) (getPlanningItemHistory moment_fields historyItems)
       (λ _ _, True).
Proof.
  unfold getPlanningItemHistory.
  eapply safe_bind; [by apply safe_or_empty_array with (P := λ _, True)|].
  intros items.
  eapply safe_bind; [apply safe_alloc with (Q := own_array)|].
  { intros h Hpre _. split; [by apply prefix_length|].
    exists []. by rewrite lookup_app_r, Nat.sub_diag. }
  intros history.
  eapply safe_bind; [apply safe_forEach with (P := own_array history)|].
  - intros item. apply safe_inspect. intros h Hh.
    apply (safe_at (own_array history)); [done|].
    destruct (negb _); [apply safe_push | by apply safe_ret].
  - intros ?. by apply safe_ret.
Qed.

(** *** [getGroupedCoverageHistory] *)

Lemma prop_lookup_assign key value props k :
  prop_lookup k (prop_assign key value props) =
  if decide (k = key) then Some value else prop_lookup k props.
Proof.
  induction props as [|[k' v'] props IH]; simpl.
  - destruct (String.eqb_spec key k); case_decide; congruence.
  - destruct (String.eqb_spec k' key) as [->|Hne]; simpl.
    + destruct (String.eqb_spec key k); case_decide; congruence.
    + destruct (String.eqb_spec k' k) as [->|Hne'].
      * by rewrite decide_False.
      * done.
Qed.

(** A group record as the helper builds it: allocated by the helper, with an
    array under [items] and, under [planning], an object of the helper's
    own that has no [items]. *)
Definition group_ok (c g : loc) (h : heap) : Prop :=
  length h0 ≤ g ∧ g ≠ c
  ∧ ∃ gps i es pl pps,
      h !! g = Some (OObj gps)
      ∧ prop_lookup "items" gps = Some (VRef i)
      ∧ h !! i = Some (OArr es)
      ∧ prop_lookup "planning" gps = Some (VRef pl)
      ∧ length h0 ≤ pl ∧ pl ≠ c
      ∧ h !! pl = Some (OObj pps)
      ∧ prop_lookup "items" pps = None.

(** The coverage-history object: allocated by the helper, and each of its
    properties refers to a group record. *)
Definition cov_ok (c : loc) (h : heap) : Prop :=
  length h0 ≤ c
  ∧ ∃ cps, h !! c = Some (OObj cps)
      ∧ ∀ k v, prop_lookup k cps = Some v → ∃ g, v = VRef g ∧ group_ok c g h.

Lemma group_ok_alloc c g h o : group_ok c g h → group_ok c g (h ++ [o]).
Proof.
  intros (Hg & Hgc & gps & i & es & pl & pps & H1 & H2 & H3 & H4 & H5 & H6 & H7 & H8).
  split; [done|]. split; [done|]. exists gps, i, es, pl, pps.
  split_and!; try done; by apply lookup_app_l_Some.
Qed.

Lemma cov_ok_alloc c h o : cov_ok c h → cov_ok c (h ++ [o]).
Proof.
  intros (Hc & cps & Hcps & Hall). split; [done|]. exists cps.
  split; [by apply lookup_app_l_Some|].
  intros k v Hk. destruct (Hall k v Hk) as (g & -> & Hg).
  exists g. split; [done|]. by apply group_ok_alloc.
Qed.

(** Assignments that keep a group record in shape: any assignment to the
    coverage-history object; one to a property other than [items] and
    [planning]; and a new array under the [items] of an object that has
    [items]. *)
Definition harmless (c l : loc) (props : list (string * val)) (key : string)
    (value : val) (h : heap) : Prop :=
  l = c
  ∨ (key ≠ "items" ∧ key ≠ "planning")
  ∨ (key = "items" ∧ is_Some (prop_lookup "items" props)
     ∧ ∃ i es, value = VRef i ∧ h !! i = Some (OArr es)).

Lemma group_ok_store c g h l props key value :
  group_ok c g h →
  h !! l = Some (OObj props) →
  harmless c l props key value h →
  group_ok c g (<[l := OObj (prop_assign key value props)]> h).
Proof.
  intros (Hg & Hgc & gps & i & es & pl & pps & H1 & H2 & H3 & H4 & H5 & H6 & H7 & H8)
         Hl Hw.
  assert (Hlt : l < length h) by by apply lookup_lt_Some in Hl.
  assert (Hi : i ≠ l) by (intros ->; congruence).
  split; [done|]. split; [done|].
  destruct Hw as [-> | [[Hk1 Hk2] | (-> & Hsome & i' & es' & -> & Hi')]].
  - (* the coverage-history object itself *)
    exists gps, i, es, pl, pps.
    split_and!; try done; by rewrite list_lookup_insert_ne.
  - (* a property that is neither [items] nor [planning] *)
    destruct (decide (g = l)) as [->|Hgl].
    + assert (Hpl : pl ≠ l) by (intros ->; congruence).
      assert (props = gps) as -> by congruence.
      exists (prop_assign key value gps), i, es, pl, pps.
      split_and!; try done.
      * by apply list_lookup_insert_eq.
      * by rewrite prop_lookup_assign, decide_False.
      * by rewrite list_lookup_insert_ne.
      * by rewrite prop_lookup_assign, decide_False.
      * by rewrite list_lookup_insert_ne.
    + destruct (decide (pl = l)) as [->|Hpl].
      * assert (props = pps) as -> by congruence.
        exists gps, i, es, l, (prop_assign key value pps).
        split_and!; try done.
        -- by rewrite list_lookup_insert_ne.
        -- by rewrite list_lookup_insert_ne.
        -- by apply list_lookup_insert_eq.
        -- by rewrite prop_lookup_assign, decide_False.
      * exists gps, i, es, pl, pps.
        split_and!; try done; by rewrite list_lookup_insert_ne.
  - (* a new array under [items] *)
    assert (Hpl : pl ≠ l).
    { intros ->. assert (props = pps) as -> by congruence.
      rewrite H8 in Hsome. by destruct Hsome. }
    assert (Hi'l : i' ≠ l) by (intros ->; congruence).
    destruct (decide (g = l)) as [->|Hgl].
    + assert (props = gps) as -> by congruence.
      exists (prop_assign "items" (VRef i') gps), i', es', pl, pps.
      split_and!; try done.
      * by apply list_lookup_insert_eq.
      * by rewrite prop_lookup_assign, decide_True.
      * by rewrite list_lookup_insert_ne.
      * by rewrite prop_lookup_assign, decide_False.
      * by rewrite list_lookup_insert_ne.
    + exists gps, i, es, pl, pps.
      split_and!; try done; by rewrite list_lookup_insert_ne.
Qed.

Lemma harmless_alloc c l props key value h o :
  harmless c l props key value h → harmless c l props key value (h ++ [o]).
Proof.
  intros [?|[?|(? & ? & i & es & ? & ?)]]; [by left | by right; left |].
  right; right. split_and!; try done. exists i, es.
  split; [done|]. by apply lookup_app_l_Some.
Qed.

(** An assignment to another object than the coverage-history object. *)
Lemma cov_ok_store c h l props key value :
  cov_ok c h →
  l ≠ c →
  h !! l = Some (OObj props) →
  harmless c l props key value h →
  cov_ok c (<[l := OObj (prop_assign key value props)]> h).
Proof.
  intros (Hc & cps & Hcps & Hall) Hlc Hl Hw. split; [done|]. exists cps.
  split; [by rewrite list_lookup_insert_ne|].
  intros k v Hk. destruct (Hall k v Hk) as (g & -> & Hg).
  exists g. split; [done|]. by apply group_ok_store.
Qed.

(** A new group entered into the coverage-history object. *)
Lemma cov_ok_enter c h key g :
  cov_ok c h →
  group_ok c g h →
  ∃ cps, h !! c = Some (OObj cps)
    ∧ cov_ok c (<[c := OObj (prop_assign key (VRef g) cps)]> h).
Proof.
  intros (Hc & cps & Hcps & Hall) Hg. exists cps. split; [done|].
  split; [done|]. exists (prop_assign key (VRef g) cps).
  split; [apply list_lookup_insert_eq; by apply lookup_lt_Some in Hcps|].
  intros k v. rewrite prop_lookup_assign. case_decide.
  - intros [= <-]. exists g. split; [done|].
    apply group_ok_store; [done..|by left].
  - intros Hk. destruct (Hall k v Hk) as (g' & -> & Hg').
    exists g'. split; [done|]. apply group_ok_store; [done..|by left].
Qed.

Lemma safe_assign_prop (P : heap → Prop) l key value
    (Q : unit → heap → Prop) :
  (∀ h, P h →
     length h0 ≤ l
     ∧ ∃ props, h !! l = Some (OObj props)
         ∧ Q tt (<[l := OObj (prop_assign key value props)]> h)) →
  safe P (assign_prop l key value) Q.
Proof.
  intros H. unfold assign_prop. apply safe_inspect. intros h HP.
  destruct (H h HP) as (Hl & props & Hprops & HQ). rewrite Hprops.
  apply safe_store. intros h' Heq. subst h'. done.
Qed.

Lemma safe_init_group c key :
  safe (cov_ok c) (init_group c key) (λ _, cov_ok c).
Proof.
  unfold init_group.
  eapply safe_bind;
    [apply safe_alloc
       with (Q := λ items h, cov_ok c h ∧ h !! items = Some (OArr []))|].
  { intros h _ Hc. split; [by apply cov_ok_alloc|].
    by rewrite lookup_app_r, Nat.sub_diag. }
  intros items.
  eapply safe_bind;
    [apply safe_alloc
       with (Q := λ planning h,
                cov_ok c h ∧ h !! items = Some (OArr [])
                ∧ h !! planning = Some (OObj [])
                ∧ length h0 ≤ planning ∧ planning ≠ c)|].
  { intros h Hpre [Hc Hitems]. split_and!.
    - by apply cov_ok_alloc.
    - by apply lookup_app_l_Some.
    - by rewrite lookup_app_r, Nat.sub_diag.
    - by apply prefix_length.
    - destruct Hc as (_ & cps & Hcps & _). apply lookup_lt_Some in Hcps. lia. }
  intros planning.
  eapply safe_bind;
    [apply safe_alloc
       with (Q := λ _ h,
                cov_ok c h ∧ h !! items = Some (OArr [])
                ∧ h !! planning = Some (OObj [])
                ∧ length h0 ≤ planning ∧ planning ≠ c)|].
  { intros h Hpre (Hc & Hitems & Hplanning & ? & ?). split_and!; try done.
    - by apply cov_ok_alloc.
    - by apply lookup_app_l_Some.
    - by apply lookup_app_l_Some. }
  intros assigned_to.
  eapply safe_bind;
    [apply safe_alloc with (Q := λ group h, cov_ok c h ∧ group_ok c group h)|].
  { intros h Hpre (Hc & Hitems & Hplanning & ? & ?).
    split; [by apply cov_ok_alloc|]. split_and!.
    - by apply prefix_length.
    - destruct Hc as (_ & cps & Hcps & _). apply lookup_lt_Some in Hcps. lia.
    - eexists _, items, [], planning, [].
      split_and!; try done; try (by apply lookup_app_l_Some).
      + by rewrite lookup_app_r, Nat.sub_diag.
      + done.
      + done. }
  intros group. apply safe_assign_prop. intros h [Hc Hg].
  split; [by destruct Hc|]. by apply cov_ok_enter.
Qed.

(** The record being worked on is one of the groups of the object. *)
Definition at_group (c g : loc) (h : heap) : Prop :=
  cov_ok c h
  ∧ ∃ cps k, h !! c = Some (OObj cps) ∧ prop_lookup k cps = Some (VRef g).

Lemma at_group_ok c g h : at_group c g h → group_ok c g h.
Proof.
  intros [(_ & cps & Hcps & Hall) (cps' & k & Hcps' & Hk)].
  assert (cps' = cps) as -> by congruence.
  by destruct (Hall k _ Hk) as (g' & [= <-] & ?).
Qed.

Lemma at_group_alloc c g h o : at_group c g h → at_group c g (h ++ [o]).
Proof.
  intros [Hc (cps & k & Hcps & Hk)]. split; [by apply cov_ok_alloc|].
  exists cps, k. split; [by apply lookup_app_l_Some | done].
Qed.

Lemma at_group_store c g h l props key value :
  at_group c g h →
  l ≠ c →
  h !! l = Some (OObj props) →
  harmless c l props key value h →
  at_group c g (<[l := OObj (prop_assign key value props)]> h).
Proof.
  intros [Hc (cps & k & Hcps & Hk)] Hlc Hl Hw.
  split; [by apply cov_ok_store|].
  exists cps, k. split; [by rewrite list_lookup_insert_ne | done].
Qed.

Lemma safe_group_of c key :
  safe (cov_ok c) (group_of c key) (at_group c).
Proof.
  unfold group_of. apply safe_inspect. intros h Hc.
  pose proof Hc as (_ & cps & Hcps & Hall). rewrite Hcps.
  destruct (prop_lookup key cps) as [v|] eqn:Hk; [|apply safe_throw].
  destruct (Hall key v Hk) as (g & -> & Hg).
  apply safe_ret. intros h' ->. split; [done|]. by exists cps, key.
Qed.

(** Assigning a property of the group that is neither [items] nor
    [planning], or a property other than [items] of its planning object. *)
Lemma safe_assign_group c g key value :
  key ≠ "items" → key ≠ "planning" →
  safe (at_group c g) (assign_prop g key value) (λ _, at_group c g).
Proof.
  intros Hk1 Hk2. apply safe_assign_prop. intros h Hat.
  destruct (at_group_ok _ _ _ Hat) as (Hg & Hgc & gps & ? & ? & ? & ? & Hgps & _).
  split; [done|]. exists gps. split; [done|].
  apply at_group_store; [done..|]. by right; left.
Qed.

Lemma safe_assign_planning c g key value h :
  key ≠ "items" → key ≠ "planning" →
  at_group c g h →
  safe (λ h', h' = h)
       match get_prop moment_fields h (VRef g) "planning" with
       | VRef planning => assign_prop planning key value
       | _ => stuck
       end
       (λ _, at_group c g).
Proof.
  intros Hk1 Hk2 Hat.
  destruct (at_group_ok _ _ _ Hat)
    as (Hg & Hgc & gps & i & es & pl & pps & Hgps & _ & _ & Hpl & Hpl0 & Hplc & Hpps & _).
  unfold get_prop. rewrite Hgps, Hpl. simpl.
  apply safe_assign_prop. intros h' ->. split; [done|].
  exists pps. split; [done|].
  apply at_group_store; [done..|]. by right; left.
Qed.

Lemma safe_groupItem c item :
  safe (cov_ok c)
       (groupItem toString moment_fields finds_elsewhere c item)
       (λ _, cov_ok c).
Proof.
  unfold groupItem. apply safe_inspect. intros h Hc.
  destruct (to_boolean _); [|apply safe_ret; by intros ? ->].
  set (key := property_key toString h _).
  (* the initialisation *)
  apply safe_bind with (Q := λ _, cov_ok c).
  { pose proof Hc as (_ & cps & Hcps & Hall). rewrite Hcps.
    destruct (prop_lookup key cps) as [v|] eqn:Hk.
    - destruct (Hall key v Hk) as (g & -> & Hg). cbn [to_boolean].
      apply safe_ret. by intros ? ->.
    - destruct (finds_elsewhere h c key).
      + apply safe_ret. by intros ? ->.
      + apply (safe_at (cov_ok c)); [done|]. apply safe_init_group. }
  intros ?.
  eapply safe_bind; [apply safe_group_of|]. intros g.
  apply (safe_weaken (at_group c g) _ _ (λ _, at_group c g));
    [|done|by intros ? ? [? _]].
  (* items *)
  apply safe_inspect. intros h1 Hat.
  apply safe_bind with (Q := λ _, at_group c g).
  { destruct (at_group_ok _ _ _ Hat)
      as (Hg & Hgc & gps & i & es & pl & pps & Hgps & Hi & Hes & _).
    unfold get_prop. rewrite Hgps, Hi. unfold default. cbn [from_option id].
    rewrite Hes.
    apply (safe_at (at_group c g)); [done|].
    eapply safe_bind;
      [apply safe_alloc
         with (Q := λ items h, at_group c g h ∧ ∃ es', h !! items = Some (OArr es'))|].
    { intros h2 _ Hat2. split; [by apply at_group_alloc|].
      eexists. by rewrite lookup_app_r, Nat.sub_diag. }
    intros items. apply safe_assign_prop. intros h2 [Hat2 [es' Hes']].
    destruct (at_group_ok _ _ _ Hat2)
      as (_ & _ & gps2 & i2 & ? & ? & ? & Hgps2 & Hi2 & _).
    split; [done|]. exists gps2. split; [done|].
    apply at_group_store; [done..|]. right; right.
    split; [done|]. split; [by rewrite Hi2|]. by exists items, es'. }
  intros ?. clear h1 Hat.
  (* planning.g2_content_type *)
  apply safe_inspect. intros h1 Hat.
  apply safe_bind with (Q := λ _, at_group c g).
  { destruct (to_boolean _).
    - by apply safe_assign_planning.
    - apply safe_ret. by intros ? ->. }
  intros ?. clear h1 Hat.
  (* planning.scheduled *)
  apply safe_inspect. intros h1 Hat.
  apply safe_bind with (Q := λ _, at_group c g).
  { destruct (to_boolean _); [|apply safe_ret; by intros ? ->].
    apply (safe_at (at_group c g)); [done|].
    eapply safe_bind; [apply safe_alloc with (Q := λ _, at_group c g)|].
    { intros h2 _ Hat2. by apply at_group_alloc. }
    intros m. apply safe_inspect. intros h2 Hat2.
    by apply safe_assign_planning. }
  intros ?. clear h1 Hat.
  (* assigned_to *)
  apply safe_inspect. intros h1 Hat.
  apply safe_bind with (Q := λ _, at_group c g).
  { destruct (to_boolean _); [|apply safe_ret; by intros ? ->].
    apply (safe_at (at_group c g)); [done|].
    eapply safe_bind; [apply safe_alloc with (Q := λ _, at_group c g)|].
    { intros h2 _ Hat2. by apply at_group_alloc. }
    intros merged. by apply safe_assign_group. }
  intros ?. clear h1 Hat.
  (* workflow_status *)
  apply safe_inspect. intros h1 Hat.
  destruct (to_boolean _); [|apply safe_ret; by intros ? ->].
  apply (safe_at (at_group c g)); [done|]. by apply safe_assign_group.
Qed.

Lemma safe_getGroupedCoverageHistory historyItems :
  safe (λ _, True)
       (getGroupedCoverageHistory toString moment_fields finds_elsewhere
                                  historyItems)
       (λ _ _, True).
Proof.
  unfold getGroupedCoverageHistory.
  eapply safe_bind; [by apply safe_or_empty_array with (P := λ _, True)|].
  intros items.
  eapply safe_bind; [apply safe_alloc with (Q := cov_ok)|].
  { intros h Hpre _. split; [by apply prefix_length|].
    exists []. split; [by rewrite lookup_app_r, Nat.sub_diag | done]. }
  intros covHistory.
  eapply safe_bind; [apply safe_forEach with (P := cov_ok covHistory)|].
  - apply safe_groupItem.
  - intros ?. by apply safe_ret.
Qed.

End StoreFacts.

(** C7: whatever store the helpers are called in and whatever they are
    given, every object of that store, the list of entries and each entry
    among them, is the same after the call as before: the helpers only add
    objects of their own. They end by returning or by throwing, never at a
    point the model has no rule for. *)
Theorem history_helpers_leave_input_alone
    (toString : Store.heap → Store.val → string)
    (moment_fields : Store.val → list (string * Store.val))
    (finds_elsewhere : Store.heap → Store.loc → string → bool)
    (h : Store.heap) (historyItems : Store.val) :
  let planning := Store.getPlanningItemHistory moment_fields historyItems h in
  let grouped :=
    Store.getGroupedCoverageHistory toString moment_fields finds_elsewhere
                                    historyItems h in
  (∀ l o, h !! l = Some o → planning.1 !! l = Some o)
  ∧ planning.2 ≠ Store.Stuck
  ∧ (∀ l o, h !! l = Some o → grouped.1 !! l = Some o)
  ∧ grouped.2 ≠ Store.Stuck.
Proof.
  intros planning grouped.
  destruct (safe_getPlanningItemHistory moment_fields h False historyItems h)
    as [Hp1 Hp2]; [done..|].
  destruct (safe_getGroupedCoverageHistory toString moment_fields
              finds_elsewhere h False historyItems h) as [Hg1 Hg2]; [done..|].
  fold planning in Hp1, Hp2. fold grouped in Hg1, Hg2.
  split_and!.
  - intros l o Hl. by apply (prefix_lookup_Some _ _ _ _ Hl).
  - intros E. by rewrite E in Hp2.
  - intros l o Hl. by apply (prefix_lookup_Some _ _ _ _ Hl).
  - intros E. by rewrite E in Hg2.
Qed.

(** A store with the entries [entry_a], [entry_b] and [entry_plan] of the
    sample history, and the list of the three at location 7. *)
Definition sample_store : Store.heap :=
  [ Store.OObj [("coverage_id", Store.VStr "cov1");
                ("workflow_status", Store.VStr "draft");
                ("assigned_to", Store.VRef 1)];
    Store.OObj [("desk", Store.VStr "desk1"); ("user", Store.VStr "user7")];
    Store.OObj [("operation", Store.VStr "update"); ("update", Store.VRef 0)];
    Store.OObj [("coverage_id", Store.VStr "cov1");
                ("workflow_status", Store.VStr "active");
                ("assigned_to", Store.VRef 4)];
    Store.OObj [("desk", Store.VStr "desk2")];
    Store.OObj [("operation", Store.VStr "update"); ("update", Store.VRef 3)];
    Store.OObj [("operation", Store.VStr "create")];
    Store.OArr [Store.VRef 6; Store.VRef 2; Store.VRef 5] ].

Definition sample_grouped : Store.heap * Store.outcome Store.val :=
  Store.getGroupedCoverageHistory (λ _ _, "") (λ _, []) (λ _ _ _, false)
                                  (Store.VRef 7) sample_store.

(** The store version computes what the functional version does. *)
Example sample_grouped_store :
  match sample_grouped.2 with
  | Store.Done covHistory =>
      Store.get (λ _, []) sample_grouped.1 covHistory ["cov1"; "workflow_status"]
      = Store.VStr "active"
      ∧ Store.get (λ _, []) sample_grouped.1 covHistory
                  ["cov1"; "assigned_to"; "user"]
        = Store.VStr "user7"
      ∧ Store.get (λ _, []) sample_grouped.1 covHistory
                  ["cov1"; "assigned_to"; "desk"]
        = Store.VStr "desk2"
      ∧ Store.get (λ _, []) sample_grouped.1 covHistory ["cov1"; "items"; "1"]
        = Store.VRef 5
  | _ => False
  end.
Proof. vm_compute. done. Qed.

Example sample_planning_store :
  let result :=
    Store.getPlanningItemHistory (λ _, []) (Store.VRef 7) sample_store in
  match result.2 with
  | Store.Done history =>
      Store.get (λ _, []) result.1 history ["0"] = Store.VRef 6
      ∧ Store.get (λ _, []) result.1 history ["1"] = Store.VUndefined
  | _ => False
  end.
Proof. vm_compute. done. Qed.

Lemma history_helpers_leave_input_alone_witness :
  sample_grouped.1 !! 7
  = Some (Store.OArr [Store.VRef 6; Store.VRef 2; Store.VRef 5])
  ∧ sample_grouped.1 !! 0 = sample_store !! 0.
Proof.
  destruct (history_helpers_leave_input_alone (λ _ _, "") (λ _, [])
              (λ _ _ _, false) sample_store (Store.VRef 7))
    as (_ & _ & H & _).
  split; apply H; reflexivity.
Defined.

(** ** Coverage assignment modal *)

Section AssignmentModalFacts.
Import Js EditCoverageAssignmentModal.


Lemma prop_get_set_eq key value props :
  prop_get key (prop_set key value props) = value.
Proof.
  induction props as [|[k v] props IH]; simpl.
  - by rewrite String.eqb_refl.
  - destruct (String.eqb_spec k key) as [->|Hne]; simpl.
    + by rewrite String.eqb_refl.
    + destruct (String.eqb_spec k key); [done | apply IH].
Qed.

Lemma prop_get_set_ne key key' value props :
  key ≠ key' → prop_get key' (prop_set key value props) = prop_get key' props.
Proof.
  intros Hne. induction props as [|[k v] props IH]; simpl.
  - by destruct (String.eqb_spec key key').
  - destruct (String.eqb_spec k key) as [->|Hk]; simpl.
    + by destruct (String.eqb_spec key key').
    + by rewrite IH.
Qed.













Lemma get_undefined path : get JUndefined path = JUndefined.
Proof. by destruct path. Qed.












End AssignmentModalFacts.

Definition sample_draft : Js.jsval :=
  Js.JObj [("assigned_to",
            Js.JObj [("desk", Js.JStr "desk1"); ("user", Js.JStr "user7")]);
           ("news_coverage_status", Js.JStr "ncostat:int")].

Example onChange_nested_field :
  EditCoverageAssignmentModal.diff
    (EditCoverageAssignmentModal.onChange ["assigned_to"; "desk"]
       (Js.JStr "desk2")
       (EditCoverageAssignmentModal.mkState true false sample_draft)).1
  = Js.JObj [("assigned_to",
              Js.JObj [("desk", Js.JStr "desk2"); ("user", Js.JStr "user7")]);
             ("news_coverage_status", Js.JStr "ncostat:int")].
Proof. reflexivity. Qed.

Example onChange_missing_link :
  EditCoverageAssignmentModal.set (Js.JObj [("a", Js.JNum 1)])
    ["contacts"; "1"; "name"] (Js.JStr "x")
  = Js.JObj [("a", Js.JNum 1);
             ("contacts",
              Js.JArr [Js.JUndefined; Js.JObj [("name", Js.JStr "x")]])].
Proof. vm_compute. reflexivity. Qed.

(** ** The coverage assignment modal over an object store *)

Section AssignmentStoreFacts.
Import Store AssignmentStore.

Variable moment_fields : val → list (string * val).

(** The store the modal is opened in; the value it is opened with is part
    of it. *)
Variable h0 : heap.

(** Only that store is followed here: a computation may get stuck. *)
Local Abbreviation frames := (safe h0 True).

(** The values an object holds. *)
Definition held (o : object) : list val :=
  match o with
  | OObj props => props.*2
  | OArr elems => elems
  | OMoment input => [input]
  end.

(** From location [n] on, the objects refer to nothing below [n]. *)
Definition closed_from (n : nat) (h : heap) : Prop :=
  ∀ l o l', n ≤ l → h !! l = Some o → VRef l' ∈ held o → n ≤ l'.

Definition fresh_val (n : nat) (v : val) : Prop :=
  ∀ l, v = VRef l → n ≤ l.

Definition fresh_memo (n : nat) (memo : list (loc * loc)) : Prop :=
  ∀ l copy, memo_lookup l memo = Some copy → n ≤ copy.

Lemma closed_from_start (h : heap) : closed_from (length h) h.
Proof.
  intros l o l' Hl Ho. apply lookup_lt_Some in Ho. lia.
Qed.

Lemma closed_from_alloc n h o :
  closed_from n h →
  (∀ l', VRef l' ∈ held o → n ≤ l') →
  closed_from n (h ++ [o]).
Proof.
  intros Hc Ho l o' l' Hl Hlook Hin.
  destruct (decide (l < length h)).
  - rewrite lookup_app_l in Hlook by done. by eapply Hc.
  - apply lookup_lt_Some in Hlook as Hlt. rewrite length_app in Hlt. simpl in Hlt.
    assert (l = length h) as -> by lia.
    rewrite lookup_app_r, Nat.sub_diag in Hlook by done.
    injection Hlook as <-. by apply Ho.
Qed.

Lemma closed_from_store n h l o :
  closed_from n h →
  (∀ l', VRef l' ∈ held o → n ≤ l') →
  closed_from n (<[l := o]> h).
Proof.
  intros Hc Ho l1 o' l' Hl Hlook Hin.
  destruct (decide (l = l1)) as [->|Hne].
  - apply lookup_lt_Some in Hlook as Hlt. rewrite length_insert in Hlt.
    rewrite list_lookup_insert_eq in Hlook by done.
    injection Hlook as <-. by apply Ho.
  - rewrite list_lookup_insert_ne in Hlook by done. by eapply Hc.
Qed.

Lemma held_prop_assign key value props x :
  x ∈ (prop_assign key value props).*2 → x = value ∨ x ∈ props.*2.
Proof.
  induction props as [|[k v] props IH]; simpl.
  - rewrite list_elem_of_singleton. by left.
  - destruct (String.eqb k key); simpl; rewrite !elem_of_cons.
    + intros [->|?]; [by left | by right; right].
    + intros [->|H]; [by right; left|].
      destruct (IH H); [by left | by right; right].
Qed.




(** The part of the store from [n] on is closed, and [n] is in or at the end
    of the store. *)
Definition new_part (n : nat) (h : heap) : Prop :=
  closed_from n h ∧ n ≤ length h.

Lemma frames_alloc_fresh n o :
  (∀ l', VRef l' ∈ held o → n ≤ l') →
  frames (new_part n) (alloc o) (λ l h, new_part n h ∧ n ≤ l).
Proof.
  intros Ho. apply safe_alloc. intros h _ [Hc Hn]. split; [|done].
  split; [by apply closed_from_alloc|]. rewrite length_app. lia.
Qed.

Lemma frames_store_fresh n l o :
  length h0 ≤ n → n ≤ l →
  (∀ l', VRef l' ∈ held o → n ≤ l') →
  frames (new_part n) (store l o) (λ _, new_part n).
Proof.
  intros Hn Hl Ho. apply safe_store. intros h [Hc Hlen]. split; [lia|].
  split; [by apply closed_from_store|]. by rewrite length_insert.
Qed.

(** Assigning a value of the new part to a property of an object of the new
    part. *)
Lemma frames_assign_fresh n l key value :
  length h0 ≤ n → n ≤ l → fresh_val n value →
  frames (new_part n) (assign_prop l key value) (λ _, new_part n).
Proof.
  intros Hn Hl Hv. unfold assign_prop. apply safe_inspect. intros h [Hc Hlen].
  destruct (h !! l) as [[props| |]|] eqn:E; try by apply safe_stuck.
  apply (safe_at _ _ (new_part n)); [done|].
  apply frames_store_fresh; [done..|]. intros l' Hin. simpl in Hin.
  apply held_prop_assign in Hin as [Heq|Hin]; [by apply Hv|].
  by apply (Hc l (OObj props) l').
Qed.

Lemma frames_push_fresh n l value :
  length h0 ≤ n → n ≤ l → fresh_val n value →
  frames (new_part n) (push l value) (λ _, new_part n).
Proof.
  intros Hn Hl Hv. unfold push. apply safe_inspect. intros h [Hc Hlen].
  destruct (h !! l) as [[|elems|]|] eqn:E; try by apply safe_stuck.
  apply (safe_at _ _ (new_part n)); [done|].
  apply frames_store_fresh; [done..|]. intros l' Hin. simpl in Hin.
  apply elem_of_app in Hin as [Hin|Hin%list_elem_of_singleton];
    [|by apply Hv].
  by apply (Hc l (OArr elems) l').
Qed.

Lemma fresh_memo_cons n l copy memo :
  n ≤ copy → fresh_memo n memo → fresh_memo n ((l, copy) :: memo).
Proof.
  intros Hc Hm l1 c1. simpl. destruct (Nat.eqb l l1); [|apply Hm].
  by intros [= <-].
Qed.

(** A deep copy is made of new objects only, and no new object refers to
    an old one. *)
Lemma frames_baseClone n :
  length h0 ≤ n →
  ∀ fuel v memo,
    fresh_memo n memo →
    frames (new_part n) (baseClone fuel v memo)
           (λ r h, new_part n h ∧ (fresh_memo n r.2 ∧ fresh_val n r.1)).
Proof.
  intros Hn fuel. induction fuel as [|fuel IH]; intros v memo Hmemo.
  - destruct v as [| | | | |l]; try (apply safe_ret; by intros).
    simpl. destruct (memo_lookup l memo) as [copy|] eqn:Hl; [|by apply safe_stuck].
    apply safe_ret. intros h Hh. split_and!; [done..|].
    intros ? [= <-]. by eapply Hmemo.
  - destruct v as [| | | | |l]; try (apply safe_ret; by intros).
    cbn [baseClone]. destruct (memo_lookup l memo) as [copy|] eqn:Hl.
    { apply safe_ret. intros h Hh. split_and!; [done..|].
      intros ? [= <-]. by eapply Hmemo. }
    apply safe_inspect. intros h Hh. apply (safe_at _ _ (new_part n)); [done|].
    destruct (h !! l) as [[props|elems|input]|]; [| | |by apply safe_stuck].
    + (* an object *)
      eapply safe_bind;
        [apply frames_alloc_fresh; by intros l' ?%elem_of_nil|].
      intros copy.
      apply safe_assume. intros Hcopy.
      pose proof (fresh_memo_cons n l copy memo Hcopy Hmemo) as Hmemo'.
      revert Hmemo'. generalize ((l, copy) :: memo). clear Hmemo Hl memo.
      intros memo Hmemo.
      apply safe_bind
        with (Q := λ memo' h', new_part n h' ∧ fresh_memo n memo').
      * revert memo Hmemo.
        induction props as [|[key sub] props IHp]; intros memo Hmemo.
        { apply safe_ret. by intros. }
        eapply safe_bind; [by apply IH|]. intros r.
        apply safe_assume. intros [Hr2 Hr1].
        eapply safe_bind; [by apply frames_assign_fresh|]. intros ?.
        by apply IHp.
      * intros memo'. apply safe_assume. intros Hmemo'.
        apply safe_ret. intros h' Hh'. split_and!; [done..|].
        by intros ? [= <-].
    + (* an array *)
      eapply safe_bind;
        [apply frames_alloc_fresh; by intros l' ?%elem_of_nil|].
      intros copy.
      apply safe_assume. intros Hcopy.
      pose proof (fresh_memo_cons n l copy memo Hcopy Hmemo) as Hmemo'.
      revert Hmemo'. generalize ((l, copy) :: memo). clear Hmemo Hl memo.
      intros memo Hmemo.
      apply safe_bind
        with (Q := λ memo' h', new_part n h' ∧ fresh_memo n memo').
      * revert memo Hmemo.
        induction elems as [|sub elems IHe]; intros memo Hmemo.
        { apply safe_ret. by intros. }
        eapply safe_bind; [by apply IH|]. intros r.
        apply safe_assume. intros [Hr2 Hr1].
        eapply safe_bind; [by apply frames_push_fresh|]. intros ?.
        by apply IHe.
      * intros memo'. apply safe_assume. intros Hmemo'.
        apply safe_ret. intros h' Hh'. split_and!; [done..|].
        by intros ? [= <-].
    + (* a moment *)
      eapply safe_bind; [apply frames_alloc_fresh|].
      { simpl. by intros l' [=]%list_elem_of_singleton. }
      intros copy. apply safe_assume. intros Hcopy.
      eapply safe_bind; [by apply IH, fresh_memo_cons|]. intros r.
      apply safe_assume. intros [Hr2 Hr1].
      eapply safe_bind; [apply frames_store_fresh; [done..|]|].
      { simpl. intros l' Hin%list_elem_of_singleton. by apply Hr1. }
      intros ?. apply safe_ret. intros h' Hh'. split_and!; [done..|].
      by intros ? [= <-].
Qed.






Lemma frames_cloneDeep v :
  frames (λ _, True) (cloneDeep v)
         (λ r h, ∃ n, (new_part n h ∧ fresh_val n r) ∧ length h0 ≤ n).
Proof.
  unfold cloneDeep. apply safe_inspect_grown. intros h Hlen _.
  apply (safe_at _ _ (new_part (length h)));
    [split; [apply closed_from_start | done]|].
  eapply safe_bind; [by apply (frames_baseClone (length h))|]. intros r.
  apply safe_assume. intros [_ Hr]. apply safe_ret. intros h' Hh'.
  by exists (length h).
Qed.




End AssignmentStoreFacts.

(** ** The two models of the coverage assignment modal

    The functional model takes the draft as a plain value, and its
    [cloneDeep] has nothing to do. Here the model over the object store is
    shown to compute the same drafts, for drafts and changes that are plain
    trees: objects and arrays of primitives, each reached in one way. *)

Section AssignmentRefinement.
Import Store AssignmentStore.

(** A store that agrees with [h] on a footprint represents the same. *)
Lemma repr_agree h h' :
  (∀ v t F, repr h v t F → (∀ l, l ∈ F → h' !! l = h !! l) → repr h' v t F)
  ∧ (∀ props tprops F, repr_props h props tprops F →
       (∀ l, l ∈ F → h' !! l = h !! l) → repr_props h' props tprops F)
  ∧ (∀ elems telems F, repr_elems h elems telems F →
       (∀ l, l ∈ F → h' !! l = h !! l) → repr_elems h' elems telems F).
Proof.
  apply repr_mutind; try by constructor.
  - intros l props tprops F Hl Hnd _ IH Hagree.
    apply (repr_obj _ _ props); [|done|].
    + rewrite Hagree; [done | by left].
    + apply IH. intros l' Hl'. apply Hagree. by right.
  - intros l elems telems F Hl _ IH Hagree.
    apply (repr_arr _ _ elems).
    + rewrite Hagree; [done | by left].
    + apply IH. intros l' Hl'. apply Hagree. by right.
  - intros key v t F props tprops F' _ IH1 _ IH2 Hagree.
    apply repr_props_cons; [apply IH1 | apply IH2];
      intros l Hl; apply Hagree, elem_of_app; auto.
  - intros v t F elems telems F' _ IH1 _ IH2 Hagree.
    apply repr_elems_cons; [apply IH1 | apply IH2];
      intros l Hl; apply Hagree, elem_of_app; auto.
Qed.

Lemma repr_valid h :
  (∀ v t F, repr h v t F → ∀ l, l ∈ F → l < length h)
  ∧ (∀ props tprops F, repr_props h props tprops F → ∀ l, l ∈ F → l < length h)
  ∧ (∀ elems telems F, repr_elems h elems telems F → ∀ l, l ∈ F → l < length h).
Proof.
  apply repr_mutind; try by (intros; by apply elem_of_nil in H).
  - intros l props tprops F Hl Hnd _ IH l' [->|?]%elem_of_cons;
      [by eapply lookup_lt_Some | by apply IH].
  - intros l elems telems F Hl _ IH l' [->|?]%elem_of_cons;
      [by eapply lookup_lt_Some | by apply IH].
  - intros key v t F props tprops F' _ IH1 _ IH2 l [?|?]%elem_of_app;
      [by apply IH1 | by apply IH2].
  - intros v t F elems telems F' _ IH1 _ IH2 l [?|?]%elem_of_app;
      [by apply IH1 | by apply IH2].
Qed.

Lemma repr_props_agree h h' props tprops F :
  repr_props h props tprops F →
  (∀ l, l ∈ F → h' !! l = h !! l) → repr_props h' props tprops F.
Proof. apply repr_agree. Qed.

Lemma repr_elems_agree h h' elems telems F :
  repr_elems h elems telems F →
  (∀ l, l ∈ F → h' !! l = h !! l) → repr_elems h' elems telems F.
Proof. apply repr_agree. Qed.

Lemma repr_val_agree h h' v t F :
  repr h v t F → (∀ l, l ∈ F → h' !! l = h !! l) → repr h' v t F.
Proof. apply repr_agree. Qed.

Lemma repr_val_valid h v t F l : repr h v t F → l ∈ F → l < length h.
Proof. intros H. by apply (proj1 (repr_valid h) v t F H). Qed.

Lemma repr_props_valid h props tprops F l :
  repr_props h props tprops F → l ∈ F → l < length h.
Proof. intros H. by apply (proj1 (proj2 (repr_valid h)) props tprops F H). Qed.

Lemma repr_elems_valid h elems telems F l :
  repr_elems h elems telems F → l ∈ F → l < length h.
Proof. intros H. by apply (proj2 (proj2 (repr_valid h)) elems telems F H). Qed.

Lemma bind_done {A B : Type} (m : M A) (k : A → M B) h h1 a :
  m h = (h1, Done a) → bind m k h = k a h1.
Proof. intros H. unfold bind. by rewrite H. Qed.

Lemma prefix_agree (h h' : heap) :
  length h ≤ length h' →
  (∀ l, l < length h → h' !! l = h !! l) →
  h `prefix_of` h'.
Proof.
  intros Hlen Hagree. exists (drop (length h) h').
  rewrite <- (take_drop (length h) h') at 1. f_equal.
  apply list_eq. intros i. destruct (decide (i < length h)).
  - rewrite lookup_take_lt by done. by apply Hagree.
  - rewrite lookup_take_ge by lia. symmetry. apply lookup_ge_None. lia.
Qed.

Lemma prefix_lookup_lt (h h' : heap) l :
  h `prefix_of` h' → l < length h → h' !! l = h !! l.
Proof. intros [ext ->] Hl. by apply lookup_app_l. Qed.

Lemma repr_prefix h h' v t F :
  h `prefix_of` h' → repr h v t F → repr h' v t F.
Proof.
  intros Hpre Hr. apply (repr_val_agree h h' v t F Hr).
  intros l Hl. apply prefix_lookup_lt; [done|]. by eapply repr_val_valid.
Qed.

Lemma repr_props_snoc h props tprops F key v t F' :
  repr_props h props tprops F →
  repr h v t F' →
  repr_props h (props ++ [(key, v)]) (tprops ++ [(key, t)]) (F ++ F').
Proof.
  induction 1 as [|key0 v0 t0 F0 props tprops F1 Hv0 _ IH]; intros Hv; simpl.
  - rewrite <- (app_nil_r F'). by repeat constructor.
  - rewrite <- app_assoc. constructor; [done | by apply IH].
Qed.

Lemma repr_elems_snoc h elems telems F v t F' :
  repr_elems h elems telems F →
  repr h v t F' →
  repr_elems h (elems ++ [v]) (telems ++ [t]) (F ++ F').
Proof.
  induction 1 as [|v0 t0 F0 elems telems F1 Hv0 _ IH]; intros Hv; simpl.
  - rewrite <- (app_nil_r F'). by repeat constructor.
  - rewrite <- app_assoc. constructor; [done | by apply IH].
Qed.

Lemma prop_assign_fresh key value props :
  key ∉ props.*1 → prop_assign key value props = props ++ [(key, value)].
Proof.
  induction props as [|[k v] props IH]; simpl; [done|].
  intros Hk. apply not_elem_of_cons in Hk as [Hne Hk].
  destruct (String.eqb_spec k key); [congruence|]. by rewrite IH.
Qed.

(** What a correct copy of a value is: the run ends in a store that extends
    the given one, with a value that stands for the same plain value and is
    made of new objects only, each reached in one way; the objects noted in
    the memo in passing are those of the original. *)
Definition clone_ok (h : heap) (t : Js.jsval) (F : list loc)
    (memo : list (loc * loc))
    (result : heap * outcome (val * list (loc * loc))) : Prop :=
  ∃ h' v' F' memo',
    result = (h', Done (v', memo'))
    ∧ h `prefix_of` h'
    ∧ repr h' v' t F'
    ∧ (∀ l', l' ∈ F' → length h ≤ l' < length h')
    ∧ NoDup F'
    ∧ (∀ l, is_Some (memo_lookup l memo') → is_Some (memo_lookup l memo) ∨ l ∈ F).

Definition clones (bound : nat)
    (clone : val → list (loc * loc) → M (val * list (loc * loc))) : Prop :=
  ∀ v t F h memo,
    repr h v t F → NoDup F → length F ≤ bound →
    (∀ l, l ∈ F → memo_lookup l memo = None) →
    clone_ok h t F memo (clone v memo h).

Lemma NoDup_app_ranges (F1 F2 : list loc) (a b c : nat) :
  NoDup F1 → NoDup F2 → b ≤ c →
  (∀ l, l ∈ F1 → a ≤ l < b) → (∀ l, l ∈ F2 → c ≤ l) →
  NoDup (F1 ++ F2).
Proof.
  intros H1 H2 Hbc Hr1 Hr2. apply NoDup_app. split; [done|]. split; [|done].
  intros l Hl1 Hl2. apply Hr1 in Hl1. apply Hr2 in Hl2. lia.
Qed.

Lemma clone_props_ok bound clone copy :
  clones bound clone →
  ∀ props tprops F h memo cprops ctprops cF,
    repr_props h props tprops F → NoDup F → length F ≤ bound →
    (∀ l, l ∈ F → memo_lookup l memo = None) →
    h !! copy = Some (OObj cprops) →
    repr_props h cprops ctprops cF →
    copy ∉ F → copy ∉ cF →
    NoDup (cprops.*1 ++ props.*1) →
    ∃ h' memo' cprops' F2,
      clone_props clone copy props memo h = (h', Done memo')
      ∧ length h ≤ length h'
      ∧ (∀ l, l < length h → l ≠ copy → h' !! l = h !! l)
      ∧ h' !! copy = Some (OObj cprops')
      ∧ cprops'.*1 = cprops.*1 ++ props.*1
      ∧ repr_props h' cprops' (ctprops ++ tprops) (cF ++ F2)
      ∧ (∀ l', l' ∈ F2 → length h ≤ l' < length h')
      ∧ NoDup F2
      ∧ (∀ l, is_Some (memo_lookup l memo') →
              is_Some (memo_lookup l memo) ∨ l ∈ F).
Proof.
  intros Hclone props.
  induction props as [|[key v] props IH];
    intros tprops F h memo cprops ctprops cF Hrepr Hnd Hlen Hmemo Hcopy
           Hcrepr HcopyF HcopycF Hkeys.
  { inversion Hrepr; subst. exists h, memo, cprops, [].
    rewrite !app_nil_r. split_and!; try done; [|by left].
    by intros l' ?%elem_of_nil. }
  inversion Hrepr as [|? ? t Fv ? tprops' Fr Hv Hrest]; subst.
  apply NoDup_app in Hnd as (HndV & Hdisj & HndR).
  rewrite length_app in Hlen.
  assert (Hcopy_lt : copy < length h) by by eapply lookup_lt_Some.
  (* the copy of the value of the property *)
  destruct (Hclone v t Fv h memo) as (h1 & v' & Fv' & memo1 & E1 & Hpre1
                                      & Hv' & Hrange1 & Hnd1 & Hdom1);
    [done | done | lia | by intros l Hl; apply Hmemo, elem_of_app; left |].
  pose proof (prefix_length _ _ Hpre1) as Hlen1.
  (* its assignment to the copy of the object *)
  assert (Hcopy1 : h1 !! copy = Some (OObj cprops))
    by by rewrite (prefix_lookup_lt h h1).
  set (h2 := <[copy := OObj (cprops ++ [(key, v')])]> h1).
  assert (E2 : assign_prop copy key v' h1 = (h2, Done tt)).
  { unfold assign_prop, bind, get_heap. rewrite Hcopy1. unfold store, h2.
    rewrite prop_assign_fresh; [done|].
    apply NoDup_app in Hkeys as (_ & Hk & _). intros Hin.
    apply (Hk key Hin). simpl. by left. }
  assert (Hagree2 : ∀ l, l < length h → l ≠ copy → h2 !! l = h !! l).
  { intros l Hl Hne. unfold h2. rewrite list_lookup_insert_ne by done.
    by apply prefix_lookup_lt. }
  assert (Hfresh1 : ∀ l, l ∈ Fv' → l ≠ copy)
    by (intros l Hl%Hrange1; lia).
  (* the remaining properties *)
  destruct (IH tprops' Fr h2 memo1 (cprops ++ [(key, v')])
               (ctprops ++ [(key, t)]) (cF ++ Fv'))
    as (h' & memo' & cprops' & F2 & E3 & Hlen3 & Hagree3 & Hcopy3 & Hkeys3
        & Hrepr3 & Hrange3 & Hnd3 & Hdom3).
  - apply (repr_props_agree h h2 _ _ _ Hrest).
    intros l Hl. apply Hagree2.
    + apply (repr_props_valid _ _ _ _ _ Hrest Hl).
    + intros ->. apply HcopyF, elem_of_app. by right.
  - done.
  - lia.
  - intros l Hl. destruct (memo_lookup l memo1) eqn:E; [|done].
    destruct (Hdom1 l) as [[? Hs]|Hin]; [by eexists | |].
    + rewrite Hmemo in Hs; [done|]. apply elem_of_app. by right.
    + by destruct (Hdisj l Hin).
  - unfold h2. apply list_lookup_insert_eq. lia.
  - apply repr_props_snoc.
    + apply (repr_props_agree h h2 _ _ _ Hcrepr).
      intros l Hl. apply Hagree2.
      * apply (repr_props_valid _ _ _ _ _ Hcrepr Hl).
      * by intros ->.
    + apply (repr_val_agree h1 h2 _ _ _ Hv').
      intros l Hl. unfold h2. rewrite list_lookup_insert_ne; [done|].
      intros <-. by apply (Hfresh1 copy).
  - intros Hin. apply HcopyF, elem_of_app. by right.
  - intros [?|Hin]%elem_of_app; [done|]. by apply (Hfresh1 copy).
  - rewrite fmap_app, <- app_assoc. done.
  - assert (Hlen2 : length h2 = length h1) by apply length_insert.
    exists h', memo', cprops', (Fv' ++ F2). split_and!.
    + cbn [clone_props]. rewrite (bind_done _ _ _ _ _ E1).
      cbn [fst snd]. by rewrite (bind_done _ _ _ _ _ E2).
    + lia.
    + intros l Hl Hne. rewrite Hagree3 by (done || lia). by apply Hagree2.
    + done.
    + rewrite Hkeys3, fmap_app, <- app_assoc. done.
    + rewrite <- !app_assoc in Hrepr3. rewrite app_assoc. simpl in Hrepr3.
      by rewrite <- app_assoc.
    + intros l' [Hl'%Hrange1|Hl'%Hrange3]%elem_of_app; lia.
    + apply (NoDup_app_ranges _ _ (length h) (length h1) (length h2));
        [done | done | lia | done |].
      intros l Hl%Hrange3. lia.
    + intros l Hl. destruct (Hdom3 l Hl) as [Hs|Hin].
      * destruct (Hdom1 l Hs) as [?|Hin]; [by left|].
        right. apply elem_of_app. by left.
      * right. apply elem_of_app. by right.
Qed.

Lemma clone_elems_ok bound clone copy :
  clones bound clone →
  ∀ elems telems F h memo celems ctelems cF,
    repr_elems h elems telems F → NoDup F → length F ≤ bound →
    (∀ l, l ∈ F → memo_lookup l memo = None) →
    h !! copy = Some (OArr celems) →
    repr_elems h celems ctelems cF →
    copy ∉ F → copy ∉ cF →
    ∃ h' memo' F2,
      clone_elems clone copy elems memo h = (h', Done memo')
      ∧ length h ≤ length h'
      ∧ (∀ l, l < length h → l ≠ copy → h' !! l = h !! l)
      ∧ (∃ celems', h' !! copy = Some (OArr celems')
           ∧ repr_elems h' celems' (ctelems ++ telems) (cF ++ F2))
      ∧ (∀ l', l' ∈ F2 → length h ≤ l' < length h')
      ∧ NoDup F2
      ∧ (∀ l, is_Some (memo_lookup l memo') →
              is_Some (memo_lookup l memo) ∨ l ∈ F).
Proof.
  intros Hclone elems.
  induction elems as [|v elems IH];
    intros telems F h memo celems ctelems cF Hrepr Hnd Hlen Hmemo Hcopy
           Hcrepr HcopyF HcopycF.
  { inversion Hrepr; subst. exists h, memo, [].
    rewrite !app_nil_r. split_and!; try done; [by eauto | | by left].
    by intros l' ?%elem_of_nil. }
  inversion Hrepr as [|? t Fv ? telems' Fr Hv Hrest]; subst.
  apply NoDup_app in Hnd as (HndV & Hdisj & HndR).
  rewrite length_app in Hlen.
  assert (Hcopy_lt : copy < length h) by by eapply lookup_lt_Some.
  destruct (Hclone v t Fv h memo) as (h1 & v' & Fv' & memo1 & E1 & Hpre1
                                      & Hv' & Hrange1 & Hnd1 & Hdom1);
    [done | done | lia | by intros l Hl; apply Hmemo, elem_of_app; left |].
  pose proof (prefix_length _ _ Hpre1) as Hlen1.
  assert (Hcopy1 : h1 !! copy = Some (OArr celems))
    by by rewrite (prefix_lookup_lt h h1).
  set (h2 := <[copy := OArr (celems ++ [v'])]> h1).
  assert (E2 : push copy v' h1 = (h2, Done tt)).
  { unfold push, bind, get_heap. by rewrite Hcopy1. }
  assert (Hagree2 : ∀ l, l < length h → l ≠ copy → h2 !! l = h !! l).
  { intros l Hl Hne. unfold h2. rewrite list_lookup_insert_ne by done.
    by apply prefix_lookup_lt. }
  assert (Hfresh1 : ∀ l, l ∈ Fv' → l ≠ copy)
    by (intros l Hl%Hrange1; lia).
  destruct (IH telems' Fr h2 memo1 (celems ++ [v']) (ctelems ++ [t])
               (cF ++ Fv'))
    as (h' & memo' & F2 & E3 & Hlen3 & Hagree3 & (celems' & Hcopy3 & Hrepr3)
        & Hrange3 & Hnd3 & Hdom3).
  - apply (repr_elems_agree h h2 _ _ _ Hrest).
    intros l Hl. apply Hagree2.
    + apply (repr_elems_valid _ _ _ _ _ Hrest Hl).
    + intros ->. apply HcopyF, elem_of_app. by right.
  - done.
  - lia.
  - intros l Hl. destruct (memo_lookup l memo1) eqn:E; [|done].
    destruct (Hdom1 l) as [[? Hs]|Hin]; [by eexists | |].
    + rewrite Hmemo in Hs; [done|]. apply elem_of_app. by right.
    + by destruct (Hdisj l Hin).
  - unfold h2. apply list_lookup_insert_eq. lia.
  - apply repr_elems_snoc.
    + apply (repr_elems_agree h h2 _ _ _ Hcrepr).
      intros l Hl. apply Hagree2.
      * apply (repr_elems_valid _ _ _ _ _ Hcrepr Hl).
      * by intros ->.
    + apply (repr_val_agree h1 h2 _ _ _ Hv').
      intros l Hl. unfold h2. rewrite list_lookup_insert_ne; [done|].
      intros <-. by apply (Hfresh1 copy).
  - intros Hin. apply HcopyF, elem_of_app. by right.
  - intros [?|Hin]%elem_of_app; [done|]. by apply (Hfresh1 copy).
  - assert (Hlen2 : length h2 = length h1) by apply length_insert.
    exists h', memo', (Fv' ++ F2). split_and!.
    + cbn [clone_elems]. rewrite (bind_done _ _ _ _ _ E1).
      cbn [fst snd]. by rewrite (bind_done _ _ _ _ _ E2).
    + lia.
    + intros l Hl Hne. rewrite Hagree3 by (done || lia). by apply Hagree2.
    + exists celems'. split; [done|].
      rewrite <- !app_assoc in Hrepr3. rewrite app_assoc. simpl in Hrepr3.
      by rewrite <- app_assoc.
    + intros l' [Hl'%Hrange1|Hl'%Hrange3]%elem_of_app; lia.
    + apply (NoDup_app_ranges _ _ (length h) (length h1) (length h2));
        [done | done | lia | done |].
      intros l Hl%Hrange3. lia.
    + intros l Hl. destruct (Hdom3 l Hl) as [Hs|Hin].
      * destruct (Hdom1 l Hs) as [?|Hin]; [by left|].
        right. apply elem_of_app. by left.
      * right. apply elem_of_app. by right.
Qed.

Lemma memo_lookup_cons l copy memo l' :
  is_Some (memo_lookup l' ((l, copy) :: memo)) →
  l' = l ∨ is_Some (memo_lookup l' memo).
Proof.
  simpl. destruct (Nat.eqb_spec l l') as [->|Hne]; [by left | by right].
Qed.

(** With fuel for the depth of the value, [baseClone] makes a correct
    copy of a value that is made of objects each reached in one way. *)
Lemma baseClone_ok fuel : clones fuel (baseClone fuel).
Proof.
  induction fuel as [|fuel IH]; intros v t F h memo Hrepr Hnd Hlen Hmemo.
  - destruct Hrepr; simpl in Hlen; try lia;
      (eexists h, _, [], memo; split_and!;
         [reflexivity | done | constructor | by intros l' ?%elem_of_nil
         | constructor | by left]).
  - destruct Hrepr as [| |b|n|s|l props tprops F Hl Hkeys Hprops
                       |l elems telems F Hl Helems];
      try (eexists h, _, [], memo; split_and!;
             [reflexivity | done | constructor | by intros l' ?%elem_of_nil
             | constructor | by left]).
    + (* an object *)
      apply NoDup_cons in Hnd as [HlF HndF]. simpl in Hlen.
      set (copy := length h). set (h1 := h ++ [OObj []]).
      destruct (clone_props_ok fuel (baseClone fuel) copy IH props tprops F
                  h1 ((l, copy) :: memo) [] [] [])
        as (h' & memo' & cprops' & F2 & E & Hlen' & Hagree & Hcopy & Hkeys'
            & Hrepr' & Hrange & Hnd2 & Hdom).
      * apply (repr_props_agree h h1 _ _ _ Hprops). intros l' Hl'.
        apply lookup_app_l. apply (repr_props_valid _ _ _ _ _ Hprops Hl').
      * done.
      * lia.
      * intros l' Hl'. simpl. destruct (Nat.eqb_spec l l') as [->|Hne]; [done|].
        apply Hmemo. by right.
      * unfold h1, copy. by rewrite lookup_app_r, Nat.sub_diag.
      * constructor.
      * intros Hin. apply (repr_props_valid _ _ _ _ _ Hprops) in Hin.
        unfold copy in Hin. lia.
      * by intros ?%elem_of_nil.
      * done.
      * assert (Hlen1 : length h1 = S (length h))
          by (unfold h1; rewrite length_app; simpl; lia).
        exists h', (VRef copy), (copy :: F2), memo'. split_and!.
        -- cbn [baseClone]. rewrite Hmemo by by left.
           unfold bind at 1. unfold get_heap at 1. rewrite Hl.
           unfold bind at 1. unfold alloc at 1. fold copy h1.
           by rewrite (bind_done _ _ _ _ _ E).
        -- apply prefix_agree; [lia|]. intros l' Hl'.
           rewrite Hagree by (unfold copy; lia).
           unfold h1. by apply lookup_app_l.
        -- apply (repr_obj _ _ cprops'); [done | by rewrite Hkeys' | done].
        -- intros l' [->|Hl'%Hrange]%elem_of_cons; unfold copy; lia.
        -- apply NoDup_cons. split; [|done].
           intros Hin%Hrange. unfold copy in Hin. lia.
        -- intros l' Hl'. destruct (Hdom l' Hl') as [Hs|Hin]; [|by right; right].
           apply memo_lookup_cons in Hs as [->|?]; [right; by left | by left].
    + (* an array *)
      apply NoDup_cons in Hnd as [HlF HndF]. simpl in Hlen.
      set (copy := length h). set (h1 := h ++ [OArr []]).
      destruct (clone_elems_ok fuel (baseClone fuel) copy IH elems telems F
                  h1 ((l, copy) :: memo) [] [] [])
        as (h' & memo' & F2 & E & Hlen' & Hagree & (celems' & Hcopy & Hrepr')
            & Hrange & Hnd2 & Hdom).
      * apply (repr_elems_agree h h1 _ _ _ Helems). intros l' Hl'.
        apply lookup_app_l. apply (repr_elems_valid _ _ _ _ _ Helems Hl').
      * done.
      * lia.
      * intros l' Hl'. simpl. destruct (Nat.eqb_spec l l') as [->|Hne]; [done|].
        apply Hmemo. by right.
      * unfold h1, copy. by rewrite lookup_app_r, Nat.sub_diag.
      * constructor.
      * intros Hin. apply (repr_elems_valid _ _ _ _ _ Helems) in Hin.
        unfold copy in Hin. lia.
      * by intros ?%elem_of_nil.
      * assert (Hlen1 : length h1 = S (length h))
          by (unfold h1; rewrite length_app; simpl; lia).
        exists h', (VRef copy), (copy :: F2), memo'. split_and!.
        -- cbn [baseClone]. rewrite Hmemo by by left.
           unfold bind at 1. unfold get_heap at 1. rewrite Hl.
           unfold bind at 1. unfold alloc at 1. fold copy h1.
           by rewrite (bind_done _ _ _ _ _ E).
        -- apply prefix_agree; [lia|]. intros l' Hl'.
           rewrite Hagree by (unfold copy; lia).
           unfold h1. by apply lookup_app_l.
        -- by apply (repr_arr _ _ celems').
        -- intros l' [->|Hl'%Hrange]%elem_of_cons; unfold copy; lia.
        -- apply NoDup_cons. split; [|done].
           intros Hin%Hrange. unfold copy in Hin. lia.
        -- intros l' Hl'. destruct (Hdom l' Hl') as [Hs|Hin]; [|by right; right].
           apply memo_lookup_cons in Hs as [->|?]; [right; by left | by left].
Qed.

Lemma NoDup_bounded (F : list loc) (n : nat) :
  NoDup F → (∀ l, l ∈ F → l < n) → length F ≤ n.
Proof.
  intros Hnd Hlt. rewrite <- (length_seq n 0).
  apply submseteq_length, NoDup_submseteq; [done|].
  intros l Hl. apply elem_of_seq. specialize (Hlt l Hl). lia.
Qed.

Lemma cloneDeep_ok h v t F :
  repr h v t F → NoDup F →
  ∃ h' v' F',
    cloneDeep v h = (h', Done v')
    ∧ h `prefix_of` h'
    ∧ repr h' v' t F'
    ∧ (∀ l', l' ∈ F' → length h ≤ l' < length h')
    ∧ NoDup F'.
Proof.
  intros Hrepr Hnd.
  destruct (baseClone_ok (S (length h)) v t F h [] Hrepr Hnd)
    as (h' & v' & F' & memo' & E & Hpre & Hrepr' & Hrange & Hnd' & _).
  - apply Nat.le_le_succ_r, NoDup_bounded; [done|].
    intros l Hl. by eapply repr_val_valid.
  - done.
  - exists h', v', F'. split_and!; try done.
    unfold cloneDeep, bind at 1, get_heap at 1.
    by rewrite (bind_done _ _ _ _ _ E).
Qed.

Import EditCoverageAssignmentModal.











Lemma repr_elems_holes h n :
  repr_elems h (replicate n VUndefined) (replicate n Js.JUndefined) [].
Proof.
  induction n as [|n IH]; simpl; [constructor|].
  change (@nil loc) with (@nil loc ++ []). by repeat constructor.
Qed.



Variable moment_fields : val → list (string * val).






(** The state of the modal in the store stands for a state of the
    functional model; its draft is made of objects reached in one way
    each. *)
Definition state_repr (h : heap) (st : AssignmentStore.State) (pst : State)
    (F : list loc) : Prop :=
  AssignmentStore.valid st = valid pst
  ∧ AssignmentStore.submitting st = submitting pst
  ∧ repr h (AssignmentStore.diff st) (diff pst) F
  ∧ NoDup F.








End AssignmentRefinement.




(** The sample draft in a store, at location 2. *)
Definition sample_draft_store : Store.heap :=
  [ Store.OObj [("desk", Store.VStr "desk1"); ("user", Store.VStr "user7")];
    Store.OObj [("qcode", Store.VStr "ncostat:int")];
    Store.OObj [("assigned_to", Store.VRef 0);
                ("news_coverage_status", Store.VRef 1)] ].

Definition sample_changes : list (list string * Store.val) :=
  [ (["assigned_to"; "desk"], Store.VStr "desk2");
    (["news_coverage_status"], Store.VRef 1);
    (["news_coverage_status"; "qcode"], Store.VStr "ncostat:notdec") ].

(** In the store, the session ends with the draft the functional model
    gives, and the value the modal was opened with is as before. *)
Example sample_session_store :
  let result :=
    AssignmentStore.session (λ _, []) (Store.VRef 2) sample_changes
                            sample_draft_store in
  match result.2 with
  | Store.Done st =>
      AssignmentStore.reify 5 result.1 (AssignmentStore.diff st)
      = Js.JObj
          [("assigned_to",
            Js.JObj [("desk", Js.JStr "desk2"); ("user", Js.JStr "user7")]);
           ("news_coverage_status",
            Js.JObj [("qcode", Js.JStr "ncostat:notdec")])]
      ∧ AssignmentStore.reify 5 result.1 (Store.VRef 2)
        = Js.JObj
            [("assigned_to",
              Js.JObj [("desk", Js.JStr "desk1"); ("user", Js.JStr "user7")]);
             ("news_coverage_status",
              Js.JObj [("qcode", Js.JStr "ncostat:int")])]
  | _ => False
  end.
Proof. vm_compute. done. Qed.

(** The plain value the sample draft of the store stands for. *)
Definition sample_draft_plain : Js.jsval :=
  Js.JObj
    [("assigned_to",
      Js.JObj [("desk", Js.JStr "desk1"); ("user", Js.JStr "user7")]);
     ("news_coverage_status", Js.JObj [("qcode", Js.JStr "ncostat:int")])].

Lemma sample_state_repr :
  ∃ F, state_repr sample_draft_store
         (AssignmentStore.mkState true false (Store.VRef 2))
         (EditCoverageAssignmentModal.mkState true false sample_draft_plain)
         F.
Proof.
  eexists. split_and!; [reflexivity..| |]; simpl.
  - repeat first
      [ eapply AssignmentStore.repr_obj;
          [reflexivity | apply (bool_decide_unpack _); by vm_compute |]
      | econstructor ].
  - apply (bool_decide_unpack _). by vm_compute.
Qed.


(** * Further properties

    What the code shows beyond the statements of its specification. *)

(** ** History helpers *)

Section HistoryMoreFacts.
Import Js History.

Variable finds_elsewhere : gmap string CoverageHistory → string → bool.

Local Abbreviation getGroupedCoverageHistory :=
  (getGroupedCoverageHistory finds_elsewhere).

(** X1: the grouping helper returns whenever lodash [get] finds nothing but
    groups under the coverage ids of the list; in the object it returns, the
    group of a coverage id holds the entries that carry the id, in input
    order, and an id no entry carries has no group. *)
Theorem group_items_in_input_order l :
  (nothing_elsewhere finds_elsewhere l →
   ∃ m, getGroupedCoverageHistory l = Returns m)
  ∧ ∀ m id,
      getGroupedCoverageHistory l = Returns m →
      cov_items <$> m !! id =
      match entries_of id l with
      | [] => None
      | es => Some es
      end.
Proof.
  split.
  - intros Hq. eexists. by apply nothing_elsewhere_returns.
  - intros m id Hm. rewrite (lookup_grouped _ _ _ _ Hm).
    destruct (entries_of id l) as [|e es] eqn:E; [done|].
    simpl. by rewrite aggregate_items.
Qed.

Lemma coverage_key_dec_filter (l : list HistoryItem) :
  filter (λ item, coverage_key item = None)
         (filter (λ item, coverage_key item = None) l)
  = filter (λ item, coverage_key item = None) l.
Proof.
  induction l as [|x l IH]; [done|].
  rewrite filter_cons. case_decide as H.
  - rewrite filter_cons, decide_True by done. by rewrite IH.
  - done.
Qed.

Lemma grouped_skips l :
  Forall (λ item, coverage_key item = None) l →
  getGroupedCoverageHistory l = Returns ∅.
Proof.
  induction l as [|x l IH] using rev_ind; [done|].
  intros [Hl Hx]%Forall_app. apply Forall_cons_1 in Hx as [Hx _].
  rewrite getGroupedCoverageHistory_snoc, IH by done.
  exact (groupItem_skip _ _ _ Hx).
Qed.

(** X2: the planning-item history of a planning-item history is the same list,
    and it has no coverage groups. *)
Theorem planning_history_is_stable l :
  getPlanningItemHistory (getPlanningItemHistory l) = getPlanningItemHistory l
  ∧ getGroupedCoverageHistory (getPlanningItemHistory l) = Returns ∅.
Proof.
  rewrite !getPlanningItemHistory_filter. split.
  - apply coverage_key_dec_filter.
  - apply grouped_skips, Forall_forall. by intros x [? _]%list_elem_of_filter.
Qed.

Lemma last_omap_is_Some {A B : Type} (f : A → option B) (l : list A) x :
  x ∈ l → is_Some (f x) → is_Some (last (omap f l)).
Proof.
  intros Hin [y Hy]. apply list_elem_of_lookup in Hin as [i Hi].
  assert (y ∈ omap f l) as Hyin by (apply list_elem_of_omap; exists x; split;
    [by eapply list_elem_of_lookup_2 | done]).
  destruct (omap f l) as [|z l'] using rev_ind; [by apply elem_of_nil in Hyin|].
  rewrite last_snoc. eauto.
Qed.

(** X3: a property of [assigned_to] that some entry of a coverage sets is never
    lost: whenever the grouping helper returns, which it does when lodash
    [get] finds nothing but groups under the coverage ids of the list, the
    group of the coverage has the property, whatever later entries hold. *)
Theorem assigned_to_properties_persist l item id a k :
  item ∈ l →
  get_coverage_id item = Some id → id ≠ "" →
  get_assigned_to item = Some a →
  is_Some (a !! k) →
  (nothing_elsewhere finds_elsewhere l →
   ∃ m, getGroupedCoverageHistory l = Returns m)
  ∧ ∀ m, getGroupedCoverageHistory l = Returns m →
         ∃ r, m !! id = Some r ∧ is_Some (cov_assigned_to r !! k).
Proof.
  intros Hin Hid Hne Ha Hk. split.
  { intros Hq. eexists. by apply nothing_elsewhere_returns. }
  intros m Hm.
  assert (Hkey : coverage_key item = Some id) by (by apply coverage_key_Some).
  assert (Hent : item ∈ entries_of id l) by (by apply list_elem_of_filter).
  rewrite (lookup_grouped _ _ _ _ Hm).
  destruct (entries_of id l) as [|e es] eqn:E; [by apply elem_of_nil in Hent|].
  eexists. split; [done|]. rewrite aggregate_assigned_to.
  apply (last_omap_is_Some _ _ item); [done|]. by rewrite Ha.
Qed.

End HistoryMoreFacts.

Lemma assigned_to_properties_persist_witness :
  ∃ m r, History.getGroupedCoverageHistory sample_finds sample_history
         = History.Returns m
       ∧ m !! "cov1" = Some r
       ∧ is_Some (History.cov_assigned_to r !! "user").
Proof.
  destruct (assigned_to_properties_persist sample_finds sample_history entry_a
              "cov1" {[ "desk" := Js.JStr "desk1"; "user" := Js.JStr "user7" ]}
              "user") as [Hret Hrec].
  - unfold sample_history. set_solver.
  - reflexivity.
  - discriminate.
  - reflexivity.
  - exists (Js.JStr "user7"). vm_compute. reflexivity.
  - destruct (Hret sample_nothing_elsewhere) as [m Hm].
    destruct (Hrec m Hm) as (r & Hr & Hk). by exists m, r.
Defined.

(** ** History helpers over the object store *)

Section StoreMoreFacts.
Import Store.

Variable toString : heap → val → string.
Variable moment_fields : val → list (string * val).
Variable finds_elsewhere : heap → loc → string → bool.

Local Abbreviation get := (get moment_fields).
Local Abbreviation get_prop := (get_prop moment_fields).
Local Abbreviation getPlanningItemHistory :=
  (getPlanningItemHistory moment_fields).
Local Abbreviation getGroupedCoverageHistory :=
  (getGroupedCoverageHistory toString moment_fields finds_elsewhere).

(** A new array or empty object at the end of the store is not seen by a
    read under a name that is no index: a reference to its place gave
    [undefined] before, and gives [undefined] now. *)
Definition plain_end (o : object) : Prop :=
  (∃ elems, o = OArr elems) ∨ o = OObj [].

Lemma get_prop_plain_end h o v key :
  plain_end o → index_of_key key = None →
  get_prop (h ++ [o]) v key = get_prop h v key.
Proof.
  intros Ho Hkey. destruct v as [| | | | |l]; try done. unfold Store.get_prop.
  destruct (decide (l < length h)) as [Hl|Hl].
  - by rewrite lookup_app_l.
  - rewrite (lookup_ge_None_2 h l) by lia. rewrite lookup_app_r by lia.
    destruct (l - length h) as [|k]; simpl.
    + destruct Ho as [[elems ->]| ->]; [by rewrite Hkey | done].
    + by rewrite ?lookup_nil.
Qed.

Lemma get_plain_end h o path : ∀ v,
  plain_end o → Forall (λ key, index_of_key key = None) path →
  get (h ++ [o]) v path = get h v path.
Proof.
  induction path as [|key path IH]; intros v Ho Hpath; [done|].
  apply Forall_cons in Hpath as [Hkey Hpath]. simpl.
  destruct (nullish v); [done|].
  rewrite get_prop_plain_end by done. by apply IH.
Qed.

Lemma coverage_id_path :
  Forall (λ key, index_of_key key = None) ["update"; "coverage_id"].
Proof. repeat constructor. Qed.

(** Whether [getPlanningItemHistory] keeps an entry. *)
Definition kept (h : heap) (item : val) : bool :=
  negb (to_boolean (get h item ["update"; "coverage_id"])).

Lemma store_own_array (h : heap) old new :
  <[length h := new]> (h ++ [old]) = h ++ [new].
Proof. rewrite insert_app_r_alt by lia. by rewrite Nat.sub_diag. Qed.

Lemma forEach_from_kept h l elems n : ∀ i acc,
  h !! l = Some (OArr elems) →
  forEach_from n i l
    (λ item, h' <~ get_heap ;;
             if negb (to_boolean (get h' item ["update"; "coverage_id"]))
             then push (length h) item
             else ret tt)
    (h ++ [OArr acc])
  = (h ++ [OArr (acc ++ List.filter (kept h) (take n (drop i elems)))],
     Done tt).
Proof.
  induction n as [|n IH]; intros i acc Hl.
  { simpl. by rewrite app_nil_r. }
  assert (Hlt : l < length h) by (by eapply lookup_lt_Some).
  cbn [forEach_from]. unfold bind at 1. unfold bind at 1, get_heap at 1.
  rewrite lookup_app_l, Hl by done.
  destruct (elems !! i) as [item|] eqn:Hi.
  - rewrite (drop_S _ _ _ Hi). cbn [take List.filter].
    unfold bind at 1, get_heap at 1.
    rewrite (get_plain_end h (OArr acc))
      by (first [left; by eauto | apply coverage_id_path]).
    fold (kept h item). destruct (kept h item).
    + unfold push, bind at 1, get_heap at 1.
      rewrite lookup_app_r, Nat.sub_diag by lia. cbn [lookup list_lookup].
      unfold store. rewrite store_own_array, IH by done.
      by rewrite <- app_assoc.
    + unfold ret. by rewrite IH.
  - unfold ret. rewrite IH by done.
    apply lookup_ge_None in Hi.
    rewrite (drop_ge elems i), (drop_ge elems (S i)) by lia.
    by rewrite !take_nil.
Qed.

(** X4: [getPlanningItemHistory] on a list of the store: the store gets one new
    array, which is returned; it holds the entries without a truthy
    [update.coverage_id], in the order of the list, and they are the entries
    of the list themselves, not copies. *)
Theorem planning_history_shares_entries h l elems :
  h !! l = Some (OArr elems) →
  getPlanningItemHistory (VRef l) h
  = (h ++ [OArr (List.filter (kept h) elems)], Done (VRef (length h))).
Proof.
  intros Hl.
  assert (Hlt : l < length h) by (by eapply lookup_lt_Some).
  unfold Store.getPlanningItemHistory, or_empty_array.
  unfold bind at 1, ret at 1. unfold bind at 1, alloc at 1.
  unfold bind at 1, forEach, bind at 1, get_heap at 1.
  rewrite lookup_app_l, Hl by done.
  rewrite (forEach_from_kept h l elems _ 0 [] Hl).
  by rewrite drop_0, firstn_all.
Qed.

(** A value that is neither [undefined] nor an array of the store. *)
Definition no_array (h : heap) (v : val) : Prop :=
  match v with
  | VUndefined => False
  | VRef l => ∃ o, h !! l = Some o ∧ ∀ elems, o ≠ OArr elems
  | _ => True
  end.

(** X5: both helpers throw on anything that is not an array, [null] included,
    except for [undefined], which they take for the empty list: the result
    is then a new empty array, or a new object without groups. *)
Theorem history_helpers_need_a_list h v :
  (no_array h v →
   (getPlanningItemHistory v h).2 = Throw
   ∧ (getGroupedCoverageHistory v h).2 = Throw)
  ∧ getPlanningItemHistory VUndefined h
    = (h ++ [OArr []; OArr []], Done (VRef (S (length h))))
  ∧ getGroupedCoverageHistory VUndefined h
    = (h ++ [OArr []; OObj []], Done (VRef (S (length h)))).
Proof.
  split_and!.
  - intros Hv. destruct v as [| | | | |l]; try done.
    destruct Hv as (o & Hl & Ho).
    assert (Hlt : l < length h) by (by eapply lookup_lt_Some).
    unfold Store.getPlanningItemHistory, Store.getGroupedCoverageHistory,
      or_empty_array, forEach.
    unfold bind, ret, alloc, get_heap.
    rewrite !lookup_app_l, Hl by done.
    destruct o as [props|elems|input]; try done. by destruct (Ho elems).
  - unfold Store.getPlanningItemHistory, or_empty_array, forEach.
    unfold bind, ret, alloc, get_heap.
    rewrite lookup_app_l by (rewrite length_app; simpl; lia).
    rewrite lookup_app_r, Nat.sub_diag by lia. simpl.
    rewrite <- app_assoc, length_app. simpl. do 3 f_equal. lia.
  - unfold Store.getGroupedCoverageHistory, or_empty_array, forEach.
    unfold bind, ret, alloc, get_heap.
    rewrite lookup_app_l by (rewrite length_app; simpl; lia).
    rewrite lookup_app_r, Nat.sub_diag by lia. simpl.
    rewrite <- app_assoc, length_app. simpl. do 3 f_equal. lia.
Qed.

(** X6: a coverage id under which lodash [get] finds something in the empty
    object, such as the name of an inherited property, makes
    [getGroupedCoverageHistory] throw at the first entry that carries it: no
    group is set up for it, and the group that is then read is not there. *)
Theorem inherited_name_as_coverage_id_throws h l item rest key :
  h !! l = Some (OArr (item :: rest)) →
  get h item ["update"; "coverage_id"] = VStr key →
  key ≠ "" →
  finds_elsewhere (h ++ [OObj []]) (length h) key = true →
  (getGroupedCoverageHistory (VRef l) h).2 = Throw.
Proof.
  intros Hl Hid Hkey Hfinds.
  assert (Hlt : l < length h) by (by eapply lookup_lt_Some).
  assert (Hid1 : get (h ++ [OObj []]) item ["update"; "coverage_id"]
                 = VStr key).
  { rewrite get_plain_end; [done | by right | apply coverage_id_path]. }
  assert (Htrue : to_boolean (VStr key) = true).
  { simpl. by destruct (String.eqb_spec key ""). }
  unfold Store.getGroupedCoverageHistory, or_empty_array, forEach.
  unfold bind at 1, ret at 1. unfold bind at 1, alloc at 1.
  unfold bind at 1. unfold bind at 1, get_heap at 1.
  rewrite lookup_app_l, Hl by done.
  cbn [length forEach_from]. unfold bind at 1. unfold bind at 1, get_heap at 1.
  rewrite lookup_app_l, Hl by done. cbn [lookup list_lookup].
  unfold groupItem at 1. unfold bind at 1, get_heap at 1.
  rewrite Hid1, Htrue. cbn [property_key].
  unfold bind at 1.
  rewrite lookup_app_r, Nat.sub_diag by lia. cbn [lookup list_lookup prop_lookup].
  rewrite Hfinds. unfold ret at 1.
  unfold bind at 1, group_of, bind at 1, get_heap at 1.
  rewrite lookup_app_r, Nat.sub_diag by lia. cbn [lookup list_lookup prop_lookup].
  done.
Qed.

End StoreMoreFacts.

Lemma planning_history_shares_entries_witness :
  Store.getPlanningItemHistory (λ _, []) (Store.VRef 7) sample_store
  = (sample_store ++ [Store.OArr [Store.VRef 6]], Store.Done (Store.VRef 8)).
Proof.
  exact (planning_history_shares_entries (λ _, []) sample_store 7
           [Store.VRef 6; Store.VRef 2; Store.VRef 5] eq_refl).
Defined.

(** An entry for the coverage id [constructor], which every object
    inherits. *)
Definition sample_inherited_store : Store.heap :=
  [ Store.OObj [("coverage_id", Store.VStr "constructor")];
    Store.OObj [("operation", Store.VStr "update"); ("update", Store.VRef 0)];
    Store.OArr [Store.VRef 1] ].

Lemma inherited_name_as_coverage_id_throws_witness :
  (Store.getGroupedCoverageHistory (λ _ _, "") (λ _, [])
     (λ _ _ key, String.eqb key "constructor")
     (Store.VRef 2) sample_inherited_store).2
  = Store.Throw.
Proof.
  apply (inherited_name_as_coverage_id_throws (λ _ _, "") (λ _, [])
           (λ _ _ key, String.eqb key "constructor")
           sample_inherited_store 2 (Store.VRef 1) [] "constructor");
    [reflexivity | reflexivity | discriminate | reflexivity].
Defined.

(** ** Rows of the history list and menu entries *)

Section HistoryRowsFacts.
Import Js HistoryRows.

Variable gettext : string → string.
Variable POST EVENTS_CANCEL PLANNING_CANCEL : string.
Variable CANCELLED : string.
Variable getItemInArrayById : jsval → jsval → jsval.

Local Abbreviation getPostedHistoryElement :=
  (getPostedHistoryElement gettext POST EVENTS_CANCEL PLANNING_CANCEL
                           CANCELLED getItemInArrayById).

Lemma getHistoryRowElement_row text' item users row :
  getHistoryRowElement gettext getItemInArrayById text' item users
  = Returned (Some row) →
  text row = text'
  ∧ (by_word row = None ↔ nullish (get_own item "user_id") = true).
Proof.
  unfold getHistoryRowElement.
  destruct (negb (String.eqb text' "")); [|done].
  destruct (nullish item); [done|]. intros [= <-]. cbn [text by_word].
  split; [done|]. by destruct (nullish (get_own item "user_id")).
Qed.

(** X7: [getPostedHistoryElement] needs an entry at the index: past the end of
    the list, or on an entry that is not an object, it throws. When it
    returns a row, the entry is one of a post or cancel operation, and the
    row says "unposted" exactly when [update.pubstatus] is the cancelled
    state, whichever of the three operations it is; the word before the user
    name is there exactly when the entry has a user. *)
Theorem posted_row (index : nat) (historyItems : list jsval) (users : jsval) :
  (historyItems !! index = None →
   getPostedHistoryElement index historyItems users = TypeError)
  ∧ (∀ item, historyItems !! index = Some item →
       has_event_id item = None →
       getPostedHistoryElement index historyItems users = TypeError)
  ∧ (∀ row, getPostedHistoryElement index historyItems users
            = Returned (Some row) →
       ∃ item is_event,
         historyItems !! index = Some item
         ∧ has_event_id item = Some is_event
         ∧ (is_string (get_own item "operation") POST = true
            ∨ is_string (get_own item "operation") EVENTS_CANCEL = true
            ∨ is_string (get_own item "operation") PLANNING_CANCEL = true)
         ∧ text row
           = String.append
               (if is_event then gettext "Event " else gettext "Planning ")
               (if is_string (get item ["update"; "pubstatus"]) CANCELLED
                then gettext "unposted" else gettext "posted")
         ∧ (by_word row = None ↔ nullish (get_own item "user_id") = true)).
Proof.
  unfold HistoryRows.getPostedHistoryElement. split_and!.
  - by intros ->.
  - intros item -> Hev. cbn [default from_option id]. by rewrite Hev.
  - intros row. destruct (historyItems !! index) as [item|] eqn:E; [|done].
    cbn [default from_option id].
    destruct (has_event_id item) as [is_event|] eqn:Hev; [|done].
    cbv zeta.
    destruct (negb (is_string (get_own item "operation") POST)
              && negb (is_string (get_own item "operation") EVENTS_CANCEL)
              && negb (is_string (get_own item "operation") PLANNING_CANCEL))
      eqn:Hop; [done|].
    intros [Htext Hby]%getHistoryRowElement_row.
    exists item, is_event. split_and!; [done..| | |done].
    + destruct (is_string _ POST); [by left|].
      destruct (is_string _ EVENTS_CANCEL); [by right; left|].
      destruct (is_string _ PLANNING_CANCEL); [by right; right|done].
    + rewrite Htext. by destruct (is_string (get item _) CANCELLED).
Qed.

End HistoryRowsFacts.

Section ItemActionsFacts.
Import Js ItemActions.

Variable DIVIDER_label : string.

(** X8: an entry with a label is an item action or a divider and never both;
    one without a label, or with [null] for it, is neither. *)
Theorem item_action_or_divider (x : list (string * jsval)) :
  xorb (isItemAction DIVIDER_label x) (isMenuDivider DIVIDER_label x)
  = negb (nullish (prop_get "label" x))
  ∧ isItemAction DIVIDER_label x && isMenuDivider DIVIDER_label x = false.
Proof.
  unfold isItemAction, isMenuDivider.
  by destruct (nullish _), (HistoryRows.is_string _ _).
Qed.

End ItemActionsFacts.

(** ** Planning edit panel *)

Section PanelMoreFacts.
Import EditPlanningPanel.

Context {Item User : Type}.
Variable isItemSpiked : option Item → bool.
Variable getLockedUser : option Item → list User → option User.
Variable canSavePlanning canPublishPlanning canUnpublishPlanning :
  option Item → option Item → bool.
Variable canEditPlanning :
  option Item → option Item → bool → bool → option User → bool.

Local Abbreviation render :=
  (render Item User isItemSpiked getLockedUser canSavePlanning
          canPublishPlanning canUnpublishPlanning canEditPlanning).

(** The action the Publish button has dispatched for the values of a
    form. *)
Definition publish_action (props : Props Item User) (v : Item)
  : dispatched Item :=
  if pristine _ _ props || readOnly _ _ props then publish Item v
  else saveAndPublish Item v.

Definition unpublish_action (props : Props Item User) (v : Item)
  : dispatched Item :=
  if pristine _ _ props || readOnly _ _ props then unpublish Item v
  else saveAndUnpublish Item v.

(** X9: whatever save method an earlier submission has left in the state, the
    Publish button dispatches [publish] for a pristine or read-only form and
    [saveAndPublish] otherwise, the Unpublish button [unpublish] or
    [saveAndUnpublish]; neither dispatches anything when the validation
    fails. *)
Theorem publish_buttons_ignore_stored_method
    (props : Props Item User) (form : Submission Item) (st : State) :
  (handleSaveAndPublish Item User props form st).2
  = (if validates Item form then [publish_action props (values Item form)]
     else [])
  ∧ (handleSaveAndUnpublish Item User props form st).2
    = (if validates Item form then [unpublish_action props (values Item form)]
       else []).
Proof.
  unfold handleSaveAndPublish, handleSaveAndUnpublish, publish_action,
    unpublish_action.
  destruct (pristine _ _ props || readOnly _ _ props);
    by rewrite !handleSave_calls.
Qed.

(** X10: the save method is restored only by a submission that goes through.
    After a Publish whose submission fails, in the validation or in the
    dispatched action, the Save button dispatches what Publish would have
    dispatched, not [save]; after one that goes through it dispatches
    [save]. *)
Theorem save_after_publish
    (props : Props Item User) (form1 form2 : Submission Item) (st : State) :
  validates Item form2 = true →
  let went_through :=
    validates Item form1
    && succeeds Item form1 (publish_action props (values Item form1)) in
  let st1 := (handleSaveAndPublish Item User props form1 st).1 in
  (handleSave Item form2 st1).2
  = [if went_through then save Item (values Item form2)
     else publish_action props (values Item form2)].
Proof.
  intros Hv2. cbv zeta. rewrite handleSave_calls, Hv2. f_equal.
  unfold handleSaveAndPublish, publish_action.
  destruct (pristine _ _ props || readOnly _ _ props);
    unfold handleSave, fulfilled, onSubmit; cbn [fst saveMethod set_saveMethod];
    destruct (validates Item form1); cbn [andb];
    try destruct (succeeds Item form1 _); done.
Qed.

(** X11: what the panel offers: while the history of a planning is
    previewed, no action and no form; otherwise exactly one of the Cancel
    button and the close button, the Save button only on an editable form,
    the edit button only on a read-only one, and the form with the forced
    read-only flag. *)
Theorem panel_actions (props : Props Item User) (st : State) :
  let view := render props st in
  let forced := forceReadOnly Item User isItemSpiked props in
  (previewHistory st = true →
   is_Some (planning _ _ props) →
   cancelButton _ view = None ∧ saveButton _ view = None
   ∧ publishButton _ view = None ∧ unpublishButton _ view = None
   ∧ editButton _ view = false ∧ closeButton _ view = false
   ∧ planningForm _ view = None ∧ historyPreview _ view = true)
  ∧ (previewHistory st = false →
     (closeButton _ view = forced)
     ∧ (is_Some (cancelButton _ view) ↔ forced = false)
     ∧ (is_Some (saveButton _ view) → forced = false)
     ∧ (editButton _ view = true → forced = true)
     ∧ (is_Some (publishButton _ view)
        ↔ canPublishPlanning (planning _ _ props) (event _ _ props) = true)).
Proof.
  cbv zeta. unfold EditPlanningPanel.render.
  cbn [cancelButton saveButton publishButton unpublishButton editButton
       closeButton planningForm historyPreview].
  split; intros ->; cbn [negb andb]; [done|].
  unfold shown.
  destruct (forceReadOnly Item User isItemSpiked props),
           (canPublishPlanning _ _), (canSavePlanning _ _);
    cbn [negb andb]; repeat split; try done; eauto;
    by intros [? [=]].
Qed.

End PanelMoreFacts.

Definition failing_submission : EditPlanningPanel.Submission bool :=
  EditPlanningPanel.mkSubmission bool true false (λ _, true).

Lemma save_after_publish_witness :
  (EditPlanningPanel.handleSave bool sample_submission
     (EditPlanningPanel.handleSaveAndPublish bool unit
        (sample_panel_props true false true false) failing_submission
        EditPlanningPanel.initialState).1).2
  = [EditPlanningPanel.publish bool false].
Proof.
  apply (save_after_publish (sample_panel_props true false true false)
           failing_submission sample_submission
           EditPlanningPanel.initialState).
  reflexivity.
Defined.

Lemma panel_actions_witness :
  let render :=
    EditPlanningPanel.render bool unit sample_spiked (λ _ _, None)
      (λ _ _, true) (λ _ _, true) (λ _ _, true) (λ _ _ _ _ _, true)
      (sample_panel_props false false false false) in
  let view := render EditPlanningPanel.initialState in
  let preview :=
    render (EditPlanningPanel.mkState false true EditPlanningPanel.SAVE) in
  EditPlanningPanel.closeButton _ view = true
  ∧ ¬ is_Some (EditPlanningPanel.cancelButton _ view)
  ∧ EditPlanningPanel.planningForm _ preview = None
  ∧ EditPlanningPanel.historyPreview _ preview = true.
Proof.
  destruct (panel_actions sample_spiked (λ _ _, None) (λ _ _, true)
              (λ _ _, true) (λ _ _, true) (λ _ _ _ _ _, true)
              (sample_panel_props false false false false)
              EditPlanningPanel.initialState) as [_ H].
  destruct (panel_actions sample_spiked (λ _ _, None) (λ _ _, true)
              (λ _ _, true) (λ _ _, true) (λ _ _ _ _ _, true)
              (sample_panel_props false false false false)
              (EditPlanningPanel.mkState false true EditPlanningPanel.SAVE))
    as [Hp _].
  destruct (H eq_refl) as (Hclose & Hcancel & _).
  destruct (Hp eq_refl (mk_is_Some _ _ eq_refl))
    as (_ & _ & _ & _ & _ & _ & Hform & Hhistory).
  split; [exact Hclose|]. split; [|by split].
  intros Hc. apply Hcancel in Hc. discriminate Hc.
Defined.

(** ** Array-field editor *)

Section InputArrayMoreFacts.
Import InputArray InputArrayView.

Context {A Arg : Type}.

(** X12: removing an index the list does not have: once the user has agreed,
    the unchanged list is reported and the success notification is shown all
    the same. *)
Theorem remove_out_of_range (props : Props A Arg) (index : nat) :
  length (currentValue _ _ props) ≤ index →
  (remove A Arg index).2 true props =
  [onChange (field _ _ props) (currentValue _ _ props);
   notify_success "The coverage has been removed"].
Proof.
  intros Hlen. rewrite remove_accepted.
  rewrite delete_take_drop, take_ge, drop_ge by lia. by rewrite app_nil_r.
Qed.

(** X13: removing an index of the list: the reported list is one shorter, the
    elements before the index keep their place and those after it move down
    by one. *)
Theorem remove_keeps_the_others (props : Props A Arg) (index : nat) :
  index < length (currentValue _ _ props) →
  ∃ l', (remove A Arg index).2 true props =
          [onChange (field _ _ props) l';
           notify_success "The coverage has been removed"]
        ∧ S (length l') = length (currentValue _ _ props)
        ∧ (∀ j, j < index → l' !! j = currentValue _ _ props !! j)
        ∧ (∀ j, index ≤ j → l' !! j = currentValue _ _ props !! S j).
Proof.
  intros Hlen. exists (delete index (currentValue _ _ props)).
  split; [apply remove_accepted|]. split_and!.
  - rewrite length_delete; [lia|]. by apply lookup_lt_is_Some_2.
  - intros j Hj. by apply list_lookup_delete_lt.
  - intros j Hj. by apply list_lookup_delete_ge.
Qed.

Lemma showAddButton_length (props : Props A Arg) :
  showAddButton _ _ props = true →
  maxCount _ _ props ≠ 0 →
  length (currentValue _ _ props) < maxCount _ _ props.
Proof.
  unfold showAddButton. intros [H _]%andb_true_iff Hmax.
  destruct (Nat.eqb_spec (maxCount _ _ props) 0); [done|].
  by apply Nat.ltb_lt.
Qed.

Lemma clickAdd_shown layout (props : Props A Arg) :
  addButtonBesideLabel _ _ props layout || addButtonBelow _ _ props layout
  = true →
  showAddButton _ _ props = true.
Proof.
  unfold addButtonBesideLabel, addButtonBelow.
  destruct (noLabel layout), (buttonWithLabel layout),
           (showAddButton _ _ props); done.
Qed.

(** X14: with a maximum set, clicks on the add button never take a list that is
    within the maximum beyond it, and on a read-only editor they change
    nothing. *)
Theorem add_button_keeps_max_count layout (presses : list (list Arg)) :
  ∀ (props : Props A Arg) (l : list A),
    value _ _ props = Some l →
    let after := fold_left (clickAdd A Arg layout) presses props in
    (maxCount _ _ props ≠ 0 →
     length l ≤ maxCount _ _ props →
     length (currentValue _ _ after) ≤ maxCount _ _ props)
    ∧ (readOnly _ _ props = true → after = props).
Proof.
  induction presses as [|args presses IH]; intros props l Hl.
  { cbn. unfold currentValue. rewrite Hl. done. }
  cbn [fold_left]. unfold clickAdd at 2 4.
  destruct (addButtonBesideLabel _ _ props layout
            || addButtonBelow _ _ props layout) eqn:E.
  - apply clickAdd_shown in E.
    unfold onAdd. cbn [fold_left].
    set (new := match defaultElement _ _ props with
                | Factory f => f args | Element a => a end).
    set (props' := rerender A Arg props (onChange _ _)).
    destruct (IH props' (currentValue _ _ props ++ [new]) eq_refl)
      as [Hmax Hro].
    split.
    + intros Hne Hlen. apply Hmax; [done|].
      apply showAddButton_length in E; [|done].
      rewrite length_app. simpl. change (maxCount A Arg props') with
        (maxCount A Arg props). lia.
    + intros Hr. unfold showAddButton in E. rewrite Hr in E.
      by rewrite andb_false_r in E.
  - by apply (IH props l).
Qed.

(** X15: the add button is never shown twice; with [buttonWithLabel] and no
    label it is not shown at all, whatever the list and the maximum. *)
Theorem add_button_placement (props : Props A Arg) (layout : Layout) :
  addButtonBesideLabel _ _ props layout && addButtonBelow _ _ props layout
  = false
  ∧ (buttonWithLabel layout = true → noLabel layout = true →
     addButtonBesideLabel _ _ props layout = false
     ∧ addButtonBelow _ _ props layout = false).
Proof.
  unfold addButtonBesideLabel, addButtonBelow. split.
  - by destruct (noLabel layout), (buttonWithLabel layout),
               (showAddButton _ _ props).
  - by intros -> ->.
Qed.

End InputArrayMoreFacts.

Definition sample_array_props (maxCount : nat) (readOnly : bool)
  : InputArray.Props nat unit :=
  InputArray.mkProps nat unit "coverages" (Some [10; 20; 30])
                     (InputArray.Element 0) maxCount false 3 readOnly.

Lemma remove_out_of_range_witness :
  (InputArray.remove nat unit 7).2 true (sample_array_props 0 false)
  = [InputArray.onChange "coverages" [10; 20; 30];
     InputArray.notify_success "The coverage has been removed"].
Proof.
  apply (remove_out_of_range (sample_array_props 0 false) 7). simpl. lia.
Defined.

Lemma remove_keeps_the_others_witness :
  ∃ l', (InputArray.remove nat unit 1).2 true (sample_array_props 0 false)
        = [InputArray.onChange "coverages" l';
           InputArray.notify_success "The coverage has been removed"]
        ∧ l' !! 0 = Some 10 ∧ l' !! 1 = Some 30.
Proof.
  destruct (remove_keeps_the_others (sample_array_props 0 false) 1)
    as (l' & Hcalls & _ & Hbefore & Hafter); [simpl; lia|].
  exists l'. split; [exact Hcalls|]. split.
  - rewrite Hbefore by lia. reflexivity.
  - rewrite Hafter by lia. reflexivity.
Defined.

Lemma add_button_keeps_max_count_witness :
  length (InputArray.currentValue _ _
            (fold_left (InputArrayView.clickAdd nat unit
                          (InputArrayView.mkLayout None false))
                       [[]; []; []] (sample_array_props 4 false)))
  ≤ 4.
Proof.
  destruct (add_button_keeps_max_count (InputArrayView.mkLayout None false)
              [[]; []; []] (sample_array_props 4 false) [10; 20; 30] eq_refl)
    as [H _].
  apply H; simpl; lia.
Defined.

Lemma add_button_placement_witness :
  InputArrayView.addButtonBesideLabel nat unit (sample_array_props 0 false)
    (InputArrayView.mkLayout (Some "") true) = false
  ∧ InputArrayView.addButtonBelow nat unit (sample_array_props 0 false)
      (InputArrayView.mkLayout (Some "") true) = false.
Proof.
  destruct (add_button_placement (sample_array_props 0 false)
              (InputArrayView.mkLayout (Some "") true)) as [_ H].
  apply H; reflexivity.
Defined.

(** ** Related-articles search modal *)

Section ModalMoreFacts.
Import Js EventsRelatedArticlesModal.

Variable searchProviderName : option string.
Variable languageVocabulary : list (string * string).
Variable cleanArticlesFields : list article → list article.

Local Abbreviation handle :=
  (handle searchProviderName languageVocabulary cleanArticlesFields).
Local Abbreviation run :=
  (run searchProviderName languageVocabulary cleanArticlesFields).

Lemma selected_componentDidUpdate prev st :
  currentlySelectedArticles (componentDidUpdate prev st)
  = currentlySelectedArticles st.
Proof. unfold componentDidUpdate. by destruct (_ || _). Qed.

Lemma selected_setState update st :
  currentlySelectedArticles (setState update st)
  = currentlySelectedArticles (update st).
Proof. apply selected_componentDidUpdate. Qed.

Lemma selected_removeArticle g st :
  currentlySelectedArticles (removeArticle g st)
  = Some (List.filter (guid_differs g) (selection st)).
Proof. unfold removeArticle. by rewrite selected_setState. Qed.

Lemma selected_addArticle a st :
  currentlySelectedArticles (addArticle a st)
  = Some (selection st ++ [prop_set "search_provider" (repo st) a]).
Proof. unfold addArticle. by rewrite selected_setState. Qed.

Lemma selection_removeArticle g st :
  selection (removeArticle g st)
  = List.filter (guid_differs g) (selection st).
Proof. unfold selection at 1. by rewrite selected_removeArticle. Qed.

Lemma selection_addArticle a st :
  selection (addArticle a st)
  = selection st ++ [prop_set "search_provider" (repo st) a].
Proof. unfold selection at 1. by rewrite selected_addArticle. Qed.

Lemma filter_all_true {A : Type} (p : A → bool) (l : list A) :
  Forall (λ x, p x = true) l → List.filter p l = l.
Proof.
  induction 1 as [|x l Hx _ IH]; [done|]. simpl. by rewrite Hx, IH.
Qed.

(** X16: adding an article whose [guid] no selected article has and removing it
    again gives back the selection. *)
Theorem add_then_remove_restores_selection (a : article) g st :
  prop_get "guid" a = JStr g →
  Forall (λ b, guid_differs g b = true) (selection st) →
  currentlySelectedArticles (removeArticle g (addArticle a st))
  = Some (selection st).
Proof.
  intros Hg Hsel. rewrite selected_removeArticle, selection_addArticle.
  f_equal.
  rewrite List.filter_app, (filter_all_true _ _ Hsel). cbn [List.filter].
  unfold guid_differs at 1.
  rewrite prop_get_set_ne, Hg by done. rewrite String.eqb_refl. cbn [negb].
  apply app_nil_r.
Qed.

(** X17: [removeArticle] takes out every selected article with the given [guid]
    and no other, keeps the order of the rest, and leaves nothing to remove
    for a second call. *)
Theorem removeArticle_removes_every_match g st :
  let rest := selection (removeArticle g st) in
  (∀ b, b ∈ rest ↔ b ∈ selection st ∧ guid_differs g b = true)
  ∧ rest `sublist_of` selection st
  ∧ selection (removeArticle g (removeArticle g st)) = rest.
Proof.
  cbv zeta. rewrite !selection_removeArticle. split_and!.
  - intros b. rewrite !list_elem_of_In, List.filter_In. done.
  - induction (selection st) as [|x l IH]; [done|]. simpl.
    destruct (guid_differs g x); by constructor.
  - apply filter_all_true, Forall_forall. intros b.
    rewrite list_elem_of_In, List.filter_In. by intros [_ ?].
Qed.

(** X18: [addArticle] appends the article, also when an article of the same
    [guid] is selected already, and gives it the current provider id as
    [search_provider] in place of any it came with; its other properties are
    as they were. *)
Theorem addArticle_stamps_provider (a : article) st :
  ∃ added,
    selection (addArticle a st) = selection st ++ [added]
    ∧ prop_get "search_provider" added = repo st
    ∧ ∀ key, key ≠ "search_provider" → prop_get key added = prop_get key a.
Proof.
  exists (prop_set "search_provider" (repo st) a). split_and!.
  - apply selection_addArticle.
  - apply prop_get_set_eq.
  - intros key Hkey. by apply prop_get_set_ne.
Qed.

(** X19: the pending selection changes through [addArticle] and [removeArticle]
    only: a search, a change of language, a preview, the answers of the
    server and the two buttons leave it as it is. *)
Theorem selection_changes_by_add_and_remove_only props st ev :
  (∀ a, ev ≠ ArticleAdded a) →
  (∀ g, ev ≠ ArticleRemoved g) →
  currentlySelectedArticles (handle props st ev).1
  = currentlySelectedArticles st.
Proof.
  intros Hadd Hrem. destruct ev; simpl; try done;
    try (by rewrite selected_setState).
  - unfold componentDidMount. destruct searchProviderName; [|done].
    cbn [fst]. by rewrite selected_setState.
  - by destruct (Hrem articleId).
  - by destruct (Hadd article).
  - by destruct (apply_disabled props st).
Qed.

Lemma loading_componentDidUpdate prev st :
  loading st = true → loading (componentDidUpdate prev st) = true.
Proof. unfold componentDidUpdate. by destruct (_ || _). Qed.

Lemma loading_handle props st ev :
  ev ≠ PageLoaded → loading st = true → loading (handle props st ev).1 = true.
Proof.
  intros Hev Hst. destruct ev; simpl; try done;
    try (by apply loading_componentDidUpdate).
  - unfold componentDidMount. destruct searchProviderName; [|done].
    by apply loading_componentDidUpdate.
  - by destruct (apply_disabled props st).
Qed.

(** X20: the loader is shown from the start and goes away with the answer to a
    page request only. *)
Theorem loading_until_page_loaded props evs :
  PageLoaded ∉ evs →
  loading (run props evs (constructor props)) = true.
Proof.
  induction evs as [|ev evs IH] using rev_ind; intros Hevs; [done|].
  rewrite run_snoc. apply loading_handle.
  - intros ->. apply Hevs. set_solver.
  - apply IH. intros Hin. apply Hevs. set_solver.
Qed.

Lemma selected_handle_Some props st ev :
  is_Some (currentlySelectedArticles st) →
  is_Some (currentlySelectedArticles (handle props st ev).1).
Proof.
  intros Hst. destruct ev; simpl;
    rewrite ?selected_setState, ?selected_removeArticle, ?selected_addArticle;
    eauto.
  - unfold componentDidMount. destruct searchProviderName; [|done].
    cbn [fst]. by rewrite selected_setState.
  - by destruct (apply_disabled props st).
Qed.

Lemma selected_run_Some props evs st :
  is_Some (currentlySelectedArticles st) →
  is_Some (currentlySelectedArticles (run props evs st)).
Proof.
  induction evs as [|ev evs IH] using rev_ind; intros Hst; [done|].
  rewrite run_snoc. by apply selected_handle_Some, IH.
Qed.

Lemma apply_enabled_None_Some props st :
  selectedArticles props = None →
  is_Some (currentlySelectedArticles st) →
  apply_disabled props st = false.
Proof.
  intros Hp [l Hl]. unfold apply_disabled. rewrite Hp, Hl. done.
Qed.

(** X21: a modal opened without a selection: from the first article added or
    removed on, Apply stays enabled, also when the pending selection is
    empty again. *)
Theorem apply_enabled_after_first_change props evs1 ev evs2 :
  selectedArticles props = None →
  (∃ a, ev = ArticleAdded a) ∨ (∃ g, ev = ArticleRemoved g) →
  apply_disabled props (run props (evs1 ++ ev :: evs2) (constructor props))
  = false.
Proof.
  intros Hp Hev. apply apply_enabled_None_Some; [done|].
  unfold EventsRelatedArticlesModal.run. rewrite fold_left_app. cbn [fold_left].
  apply selected_run_Some.
  destruct Hev as [[a ->]|[g ->]]; simpl.
  - rewrite selected_addArticle. eauto.
  - rewrite selected_removeArticle. eauto.
Qed.

End ModalMoreFacts.

Lemma add_then_remove_restores_selection_witness :
  EventsRelatedArticlesModal.currentlySelectedArticles
    (EventsRelatedArticlesModal.removeArticle "urn:b"
       (EventsRelatedArticlesModal.addArticle [("guid", Js.JStr "urn:b")]
          (EventsRelatedArticlesModal.constructor sample_modal_props)))
  = Some [sample_article].
Proof.
  apply (add_then_remove_restores_selection [("guid", Js.JStr "urn:b")]
           "urn:b" (EventsRelatedArticlesModal.constructor sample_modal_props)).
  - reflexivity.
  - repeat constructor.
Defined.

Lemma selection_changes_by_add_and_remove_only_witness :
  EventsRelatedArticlesModal.currentlySelectedArticles
    (EventsRelatedArticlesModal.handle (Some "archive") [("English", "en")]
       (λ l, l) sample_modal_props
       (EventsRelatedArticlesModal.constructor sample_modal_props)
       (EventsRelatedArticlesModal.SearchSubmitted "budget")).1
  = Some [sample_article].
Proof.
  apply (selection_changes_by_add_and_remove_only (Some "archive")
           [("English", "en")] (λ l, l) sample_modal_props
           (EventsRelatedArticlesModal.constructor sample_modal_props)
           (EventsRelatedArticlesModal.SearchSubmitted "budget"));
    discriminate.
Defined.

Lemma loading_until_page_loaded_witness :
  EventsRelatedArticlesModal.loading
    (sample_run (Some "archive") sample_session) = true.
Proof.
  apply (loading_until_page_loaded (Some "archive") [("English", "en")]
           (λ l, l) sample_modal_props sample_session).
  unfold sample_session. rewrite !not_elem_of_cons. split_and!; try done.
  apply not_elem_of_nil.
Defined.

Lemma apply_enabled_after_first_change_witness :
  EventsRelatedArticlesModal.apply_disabled
    (EventsRelatedArticlesModal.mkProps None)
    (EventsRelatedArticlesModal.run (Some "archive") [("English", "en")]
       (λ l, l) (EventsRelatedArticlesModal.mkProps None)
       ([] ++ EventsRelatedArticlesModal.ArticleAdded [("guid", Js.JStr "urn:b")]
           :: [EventsRelatedArticlesModal.ArticleRemoved "urn:b"])
       (EventsRelatedArticlesModal.constructor
          (EventsRelatedArticlesModal.mkProps None)))
  = false.
Proof.
  apply (apply_enabled_after_first_change (Some "archive") [("English", "en")]
           (λ l, l) (EventsRelatedArticlesModal.mkProps None) []
           (EventsRelatedArticlesModal.ArticleAdded [("guid", Js.JStr "urn:b")])
           [EventsRelatedArticlesModal.ArticleRemoved "urn:b"]).
  - reflexivity.
  - left. eauto.
Defined.

(** ** Date and time display *)

Section DateTimeFacts.
Import DateTime.

Variable gettext : string → string.
Variable dateformat timeformat : string.
Variable format : string → string.
Variable timeZone : string.

Local Abbreviation DateTime :=
  (DateTime gettext dateformat timeformat format timeZone).

Lemma after_ys_suffix s : after_ys s `suffix_of` s.
Proof.
  induction s as [|c s IH]; [done|]. simpl.
  destruct (is_y c); [by apply suffix_cons_r | done].
Qed.

Lemma Forall_suffix {A : Type} (P : A → Prop) (l k : list A) :
  l `suffix_of` k → Forall P k → Forall P l.
Proof. intros [pre ->] H. by apply Forall_app in H as [_ ?]. Qed.

(** The number of places given to [without_year] is enough: more would
    give the same text. *)
Lemma without_year_from_enough fuel1 : ∀ fuel2 s,
  length s ≤ fuel1 → length s ≤ fuel2 →
  without_year_from fuel1 s = without_year_from fuel2 s.
Proof.
  induction fuel1 as [|fuel1 IH]; intros fuel2 s H1 H2.
  { destruct s; [by destruct fuel2 | simpl in H1; lia]. }
  destruct s as [|c rest]; [by destruct fuel2|].
  destruct fuel2 as [|fuel2]; [simpl in H2; lia|].
  simpl in H1, H2.
  pose proof (suffix_length _ _ (after_ys_suffix rest)) as Hlen.
  assert (length (tail (after_ys rest)) ≤ length rest).
  { destruct (after_ys rest); simpl in *; lia. }
  simpl. destruct (_ && _); [apply IH; lia|].
  destruct (_ && _); [apply IH; lia|]. f_equal. apply IH; lia.
Qed.

Lemma without_year_from_no_y fuel s :
  Forall (λ c, is_y c = false) s → without_year_from fuel s = s.
Proof.
  revert s. induction fuel as [|fuel IH]; intros s Hs; [done|].
  destruct s as [|c rest]; [done|]. simpl.
  apply Forall_cons in Hs as [Hc Hrest]. rewrite Hc.
  destruct rest as [|y rest'].
  - rewrite andb_false_r. simpl. by rewrite IH.
  - apply Forall_cons in Hrest as [Hy Hrest']. rewrite Hy, andb_false_r.
    simpl. rewrite IH; [done|]. by constructor.
Qed.

Lemma without_year_from_no_separator fuel s :
  Forall (λ c, is_separator c = false) s → without_year_from fuel s = s.
Proof.
  revert s. induction fuel as [|fuel IH]; intros s Hs; [done|].
  destruct s as [|c rest]; [done|]. simpl.
  apply Forall_cons in Hs as [Hc Hrest]. rewrite Hc. simpl.
  assert (Hafter : match after_ys rest with
                   | d :: _ => is_separator d | [] => false end = false).
  { pose proof (Forall_suffix _ _ _ (after_ys_suffix rest) Hrest) as H.
    destruct (after_ys rest); [done|]. by apply Forall_cons in H as [? _]. }
  rewrite Hafter, andb_false_r. by rewrite IH.
Qed.

Lemma Forall_list_ascii (P : ascii → Prop) (s : string) :
  (∀ c, c ∈ String.list_ascii_of_string s → P c) →
  Forall P (String.list_ascii_of_string s).
Proof. intros H. by apply Forall_forall. Qed.

(** X22: leaving out the year changes nothing on a format that has no [y], and
    nothing on one that has none of the separators [/], [#], [.] and [-]:
    with a format such as [D MMMM YYYY] the year is shown also when
    [withYear] is not set. *)
Theorem year_stays_without_separator (props : Props) :
  (∀ c, c ∈ String.list_ascii_of_string dateformat → is_y c = false)
  ∨ (∀ c, c ∈ String.list_ascii_of_string dateformat → is_separator c = false) →
  DateTime props
  = DateTime (mkProps (withTime props) true (withDate props) (padLeft props)
                      (toBeConfirmed props) (isFullDay props)
                      (isEndEventDateTime props) (noEndTime props)
                      (multiDay props)).
Proof.
  intros H.
  assert (Hwy : without_year dateformat = dateformat).
  { unfold without_year.
    rewrite <- (String.string_of_list_ascii_of_string dateformat) at 3. f_equal.
    destruct H as [H|H].
    - by apply without_year_from_no_y, Forall_forall.
    - by apply without_year_from_no_separator, Forall_forall. }
  unfold DateTime.DateTime, displayDate, dateTimeFormat.
  cbn [withTime withYear withDate padLeft toBeConfirmed isFullDay
       isEndEventDateTime noEndTime multiDay].
  rewrite Hwy. by destruct (withYear props).
Qed.

(** X23: the element has no text exactly for the end of a single-day event that
    is a full day or has no end time; its [title] then ends in "null". The
    start of a full-day event is written in the date format as configured,
    whatever [withYear], [withDate], [withTime] and [toBeConfirmed] say. *)
Theorem end_of_single_day_is_empty (props : Props) :
  (children (DateTime props) = None
   ↔ isEndEventDateTime props = true
     ∧ (noEndTime props || isFullDay props) = true
     ∧ multiDay props = false)
  ∧ (children (DateTime props) = None →
     title (DateTime props) = String.append (String.append timeZone " ") "null")
  ∧ (isFullDay props = true → isEndEventDateTime props = false →
     children (DateTime props) = Some (format dateformat)).
Proof.
  unfold DateTime.DateTime, displayDate. cbn [children title].
  destruct (isEndEventDateTime props), (noEndTime props), (isFullDay props),
           (multiDay props); cbn; split_and!; try done;
    try (split; [done | by intros (? & ? & ?)]).
Qed.

End DateTimeFacts.

Example without_year_samples :
  DateTime.without_year "DD/MM/YYYY" = "DD/MM"
  ∧ DateTime.without_year "YYYY-MM-DD" = "MM-DD"
  ∧ DateTime.without_year "D MMMM YYYY" = "D MMMM YYYY"
  ∧ DateTime.without_year "MM.DD.yy" = "MM.DD".
Proof. by vm_compute. Qed.

Lemma year_stays_without_separator_witness :
  DateTime.children
    (DateTime.DateTime (λ s, s) "D MMMM YYYY" "HH:mm" (λ f, f) "UTC"
       (DateTime.mkProps false false true false false false false false false))
  = Some "D MMMM YYYY".
Proof.
  rewrite (year_stays_without_separator (λ s, s) "D MMMM YYYY" "HH:mm"
             (λ f, f) "UTC").
  - reflexivity.
  - right. apply Forall_forall. by repeat constructor.
Defined.

(** ** Coverage assignment modal *)

Section AssignmentModalMoreFacts.
Import Js EditCoverageAssignmentModal.



(** The calls made over a series of events, in order. *)
Definition run_calls (props : modalProps) (evs : list event) (st : State)
  : State * list call :=
  fold_left (λ acc ev, let r := handle props acc.1 ev in (r.1, acc.2 ++ r.2))
            evs (st, []).

Definition is_submission (c : call) : bool :=
  match c with
  | modalProps_onChange _ _ => true
  | _ => false
  end.

Lemma run_calls_snoc props evs ev st :
  run_calls props (evs ++ [ev]) st =
  let acc := run_calls props evs st in
  let r := handle props acc.1 ev in (r.1, acc.2 ++ r.2).
Proof. unfold run_calls. by rewrite fold_left_app. Qed.

Lemma handle_submission props st ev :
  let r := handle props st ev in
  (submitting st = true →
   submitting r.1 = true ∧ List.filter is_submission r.2 = [])
  ∧ (submitting st = false →
     (submitting r.1 = false ∧ List.filter is_submission r.2 = [])
     ∨ (submitting r.1 = true
        ∧ length (List.filter is_submission r.2) = 1)).
Proof.
  destruct st as [v s d].
  destruct ev, v, s; cbn; split; intros H; try discriminate H; auto.
Qed.

(** X25: however the events come, the caller's [onChange] is called at most
    once: the first submission disables the OK button for good. *)
Theorem submitted_at_most_once props evs :
  length (List.filter is_submission
            (run_calls props evs (constructor props)).2) ≤ 1.
Proof.
  assert (H : ∀ evs,
            let acc := run_calls props evs (constructor props) in
            (submitting acc.1 = false ∧ List.filter is_submission acc.2 = [])
            ∨ (submitting acc.1 = true
               ∧ length (List.filter is_submission acc.2) = 1)).
  { clear evs. intros evs. induction evs as [|ev evs IH] using rev_ind.
    - left. done.
    - rewrite run_calls_snoc. cbv zeta in *. cbn [fst snd].
      rewrite List.filter_app, length_app.
      destruct (handle_submission props
                  (run_calls props evs (constructor props)).1 ev)
        as [Hon Hoff].
      destruct IH as [[Hs Hc]|[Hs Hc]].
      + destruct (Hoff Hs) as [[Hs' Hc']|[Hs' Hc']].
        * left. split; [done|]. by rewrite Hc, Hc'.
        * right. split; [done|]. rewrite Hc. simpl. by rewrite Hc'.
      + destruct (Hon Hs) as [Hs' Hc']. right. split; [done|].
        rewrite Hc'. simpl. lia. }
  destruct (H evs) as [[_ ->]|[_ ->]]; simpl; lia.
Qed.

End AssignmentModalMoreFacts.


(** ** Coverage assignment modal over the object store *)

Section AssignmentStoreMoreFacts.
Import Store AssignmentStore.

(** X26: the draft the modal starts with is a deep copy: for a value that is a
    plain tree, it stands for the same plain value (the empty object for
    [null] and [undefined]), every object it is made of is new, and the
    objects that were there are as before. *)
Theorem draft_is_a_fresh_copy h value t F :
  repr h value t F → NoDup F →
  ∃ h' st F',
    constructor value h = (h', Done st)
    ∧ repr h' (diff st) (if Js.nullish t then Js.JObj [] else t) F'
    ∧ (∀ l, l ∈ F' → length h ≤ l)
    ∧ h `prefix_of` h'.
Proof.
  intros Hrepr HF.
  destruct (cloneDeep_ok h _ _ _ Hrepr HF)
    as (h1 & copy & Fc & Hclone & Hpre & Hcopy & Hrange & HFc).
  unfold constructor. rewrite (bind_done _ _ _ _ _ Hclone).
  assert (Hlen : length h ≤ length h1) by (by apply prefix_length).
  assert (Hempty :
            ∃ h' st F',
              (diff <~ (l <~ alloc (OObj []) ;; ret (VRef l)) ;;
               ret (mkState true false diff)) h1
              = (h', Done st)
              ∧ repr h' (diff st) (Js.JObj []) F'
              ∧ (∀ l, l ∈ F' → length h ≤ l)
              ∧ h `prefix_of` h').
  { exists (h1 ++ [OObj []]), (mkState true false (VRef (length h1))),
           [length h1].
    split; [done|]. split_and!.
    - simpl. apply (repr_obj _ _ []); [|constructor|constructor].
      by rewrite lookup_app_r, Nat.sub_diag.
    - intros l ->%list_elem_of_singleton. done.
    - etrans; [done | apply prefix_app_r; done]. }
  inversion Hcopy; subst; simpl; try by apply Hempty.
  all: eexists h1, _, _; (split; [done|]); split_and!; try done;
    intros l' Hl'; apply Hrange in Hl'; lia.
Qed.

End AssignmentStoreMoreFacts.

Lemma sample_draft_repr :
  ∃ F, AssignmentStore.repr sample_draft_store (Store.VRef 2)
         sample_draft_plain F ∧ NoDup F.
Proof.
  destruct sample_state_repr as (F & _ & _ & Hrepr & HF). by exists F.
Qed.

Lemma draft_is_a_fresh_copy_witness :
  ∃ h' st F',
    AssignmentStore.constructor (Store.VRef 2) sample_draft_store
    = (h', Store.Done st)
    ∧ AssignmentStore.repr h' (AssignmentStore.diff st) sample_draft_plain F'
    ∧ (∀ l, l ∈ F' → 3 ≤ l)
    ∧ sample_draft_store `prefix_of` h'.
Proof.
  destruct sample_draft_repr as (F & Hrepr & HF).
  exact (draft_is_a_fresh_copy sample_draft_store (Store.VRef 2)
           sample_draft_plain F Hrepr HF).
Defined.




(** ** The item of the editor *)

Section ItemInstanceFacts.
Import Store AssignmentStore ItemInstance.

Variable getProps : FormProps.
Variable getRelatedEventIdsForPlanning : heap → val → string → list val.

Local Abbreviation relatedPlannings :=
  (relatedPlannings getRelatedEventIdsForPlanning).
Local Abbreviation getAssociatedPlannings :=
  (getAssociatedPlannings getProps getRelatedEventIdsForPlanning).

Lemma Object_keys_Permutation (props : list (string * val)) :
  Object_keys props ≡ₚ props.*1.
Proof.
  unfold Object_keys.
  rewrite <- (filter_app_complement (λ key, is_Some (array_index key))
                                    props.*1) at 3.
  apply Permutation_app; [|done].
  rewrite merge_sort_Permutation.
  induction (props.*1) as [|key keys IH]; [done|].
  rewrite filter_cons. case_decide as Hkey.
  - destruct Hkey as [i Hi]. simpl. rewrite Hi. simpl. by rewrite IH.
  - simpl. destruct (array_index key) as [i|] eqn:E; [|done].
    destruct Hkey. eauto.
Qed.

(** X28: the plannings [getAssociatedPlannings] copies are the stored plannings
    that are not [null] or [undefined] and are related to the event of the
    editor: each of them, under whatever name it is stored, and no other
    value. *)
Theorem related_plannings_are_the_related_ones h plans v :
  v ∈ relatedPlannings h plans (getItemId getProps) ↔
  ∃ planId,
    planId ∈ plans.*1
    ∧ v = default VUndefined (prop_lookup planId plans)
    ∧ nullish v = false
    ∧ includes (getRelatedEventIdsForPlanning h v "primary")
               (getItemId getProps) = true.
Proof.
  unfold ItemInstance.relatedPlannings. rewrite list_elem_of_fmap.
  split.
  - intros (planId & -> & Hin). exists planId.
    apply list_elem_of_In, List.filter_In in Hin as [Hin Hok].
    apply list_elem_of_In in Hin. rewrite Object_keys_Permutation in Hin.
    cbv zeta in Hok. apply andb_true_iff in Hok as [Hnull Hrel].
    split_and!; [done..| |done]. by apply negb_true_iff.
  - intros (planId & Hin & -> & Hnull & Hrel). exists planId.
    split; [done|]. apply list_elem_of_In, List.filter_In. split.
    + apply list_elem_of_In. by rewrite Object_keys_Permutation.
    + cbv zeta. by rewrite Hnull, Hrel.
Qed.

Lemma map_cloneDeep_ok l : ∀ h ts,
  Forall2 (λ v t, ∃ F, repr h v t F ∧ NoDup F) l ts →
  ∃ h' copies,
    map_cloneDeep l h = (h', Done copies)
    ∧ h `prefix_of` h'
    ∧ Forall2 (λ c t, ∃ F', repr h' c t F' ∧ ∀ x, x ∈ F' → length h ≤ x)
              copies ts.
Proof.
  induction l as [|v l IH]; intros h ts Hl.
  - apply Forall2_nil_inv_l in Hl as ->. exists h, []. by split_and!.
  - apply Forall2_cons_inv_l in Hl as (t & ts' & (F & Hv & HF) & Hl & ->).
    destruct (cloneDeep_ok h v t F Hv HF)
      as (h1 & c & Fc & Hclone & Hpre & Hc & Hrange & _).
    assert (Hl1 : Forall2 (λ v t, ∃ F, repr h1 v t F ∧ NoDup F) l ts').
    { eapply Forall2_impl; [done|]. intros v' t' (F' & ? & ?).
      exists F'. split; [by apply (repr_prefix h) | done]. }
    destruct (IH h1 ts' Hl1) as (h' & copies & Hrun & Hpre' & Hcopies).
    exists h', (c :: copies). split_and!.
    + simpl. rewrite (bind_done _ _ _ _ _ Hclone).
      by rewrite (bind_done _ _ _ _ _ Hrun).
    + by etrans.
    + constructor.
      * exists Fc. split; [by apply (repr_prefix h1)|].
        intros x Hx. apply Hrange in Hx. lia.
      * eapply Forall2_impl; [done|]. intros c' t' (F' & ? & Hfresh).
        exists F'. split; [done|]. intros x Hx. apply Hfresh in Hx.
        apply prefix_length in Hpre. lia.
Qed.

(** X29: [getAssociatedPlannings] returns copies: for stored plannings that are
    plain trees, the result is a new array whose elements stand for the same
    plain values as the related plannings, in the same order, and are made of
    new objects only; the objects that were there are as before. *)
Theorem associated_plannings_are_copies h l plans ts :
  h !! l = Some (OObj plans) →
  Forall2 (λ v t, ∃ F, repr h v t F ∧ NoDup F)
          (relatedPlannings h plans (getItemId getProps)) ts →
  ∃ h' result copies,
    getAssociatedPlannings (VRef l) h = (h', Done (VRef result))
    ∧ h `prefix_of` h'
    ∧ length h ≤ result
    ∧ h' !! result = Some (OArr copies)
    ∧ Forall2 (λ c t, ∃ F', repr h' c t F' ∧ ∀ x, x ∈ F' → length h ≤ x)
              copies ts.
Proof.
  intros Hl Hplans.
  destruct (map_cloneDeep_ok _ h ts Hplans) as (h1 & copies & Hrun & Hpre & Hc).
  exists (h1 ++ [OArr copies]), (length h1), copies. split_and!.
  - unfold ItemInstance.getAssociatedPlannings, bind at 1, get_heap at 1.
    rewrite Hl. by rewrite (bind_done _ _ _ _ _ Hrun).
  - etrans; [done | by apply prefix_app_r].
  - by apply prefix_length.
  - by rewrite lookup_app_r, Nat.sub_diag.
  - eapply Forall2_impl; [done|]. intros c t (F' & ? & ?). exists F'.
    split; [|done]. apply (repr_prefix h1); [by apply prefix_app_r | done].
Qed.

Lemma frames_map_cloneDeep h0 l :
  safe h0 True (λ _, True) (map_cloneDeep l) (λ _ _, True).
Proof.
  induction l as [|v l IH]; simpl; [by apply safe_ret|].
  apply safe_bind with (Q := λ _ _, True).
  { eapply safe_weaken; [apply frames_cloneDeep | done | done]. }
  intros copy.
  apply safe_bind with (Q := λ _ _, True); [apply IH|].
  intros copies. by apply safe_ret.
Qed.

(** X30: whatever the stored plannings are made of, and however the call ends,
    [getAssociatedPlannings] changes no object of the store. *)
Theorem associated_plannings_keep_the_store h plans :
  h `prefix_of` (getAssociatedPlannings plans h).1.
Proof.
  assert (H : safe h True (λ _, True) (getAssociatedPlannings plans)
                (λ _ _, True)).
  { unfold ItemInstance.getAssociatedPlannings. apply safe_inspect.
    intros h1 _. apply (safe_at _ _ (λ _, True)); [done|].
    destruct plans as [| | | | |l]; try apply safe_throw;
      try (by apply safe_stuck).
    destruct (h1 !! l) as [[props| |]|]; try (by apply safe_stuck).
    eapply safe_bind; [apply frames_map_cloneDeep|]. intros copies.
    eapply safe_bind; [by apply safe_alloc with (Q := λ _ _, True)|].
    intros result. by apply safe_ret. }
  by destruct (H h (reflexivity h) I).
Qed.

End ItemInstanceFacts.

(** Two stored plannings, the first for event [e1], and a name without a
    planning; the object of the stored plannings is at location 2. *)
Definition sample_plannings : Store.heap :=
  [ Store.OObj [("event_item", Store.VStr "e1"); ("slugline", Store.VStr "a")];
    Store.OObj [("event_item", Store.VStr "e2")];
    Store.OObj [("p1", Store.VRef 0); ("p2", Store.VRef 1);
                ("p3", Store.VNull)] ].

Definition sample_related (h : Store.heap) (plan : Store.val) (link : string)
  : list Store.val :=
  [Store.get_prop (λ _, []) h plan "event_item"].

Definition sample_form : ItemInstance.FormProps :=
  ItemInstance.mkFormProps (Store.VStr "planning") (Store.VStr "e1").

Lemma associated_plannings_are_copies_witness :
  ∃ h' result copies,
    ItemInstance.getAssociatedPlannings sample_form sample_related
      (Store.VRef 2) sample_plannings
    = (h', Store.Done (Store.VRef result))
    ∧ sample_plannings `prefix_of` h'
    ∧ 3 ≤ result
    ∧ h' !! result = Some (Store.OArr copies)
    ∧ Forall2 (λ c t, ∃ F', AssignmentStore.repr h' c t F'
                             ∧ ∀ x, x ∈ F' → 3 ≤ x)
              copies
              [Js.JObj [("event_item", Js.JStr "e1");
                        ("slugline", Js.JStr "a")]].
Proof.
  apply (associated_plannings_are_copies sample_form sample_related
           sample_plannings 2
           [("p1", Store.VRef 0); ("p2", Store.VRef 1); ("p3", Store.VNull)]).
  - reflexivity.
  - assert (E : ItemInstance.relatedPlannings sample_related sample_plannings
                  [("p1", Store.VRef 0); ("p2", Store.VRef 1);
                   ("p3", Store.VNull)]
                  (ItemInstance.getItemId sample_form)
                = [Store.VRef 0]) by (vm_compute; reflexivity).
    rewrite E. constructor; [|constructor].
    eexists. split.
    + eapply AssignmentStore.repr_obj;
        [reflexivity | apply (bool_decide_unpack _); by vm_compute |].
      repeat econstructor.
    + apply (bool_decide_unpack _). by vm_compute.
Defined.

Example sample_associated_plannings :
  let result :=
    ItemInstance.getAssociatedPlannings sample_form sample_related
      (Store.VRef 2) sample_plannings in
  match result.2 with
  | Store.Done plannings =>
      AssignmentStore.reify 3 result.1 plannings
      = Js.JArr [Js.JObj [("event_item", Js.JStr "e1");
                          ("slugline", Js.JStr "a")]]
  | _ => False
  end.
Proof. by vm_compute. Qed.

Example Object_keys_order :
  ItemInstance.Object_keys
    [("b", Store.VNull); ("10", Store.VNull); ("a", Store.VNull);
     ("2", Store.VNull); ("01", Store.VNull)]
  = ["2"; "10"; "b"; "a"; "01"].
Proof. by vm_compute. Qed.

